(** * claude-conductor: the task queue and lock-lease protocol

    A shallow embedding of the programs that coordinate through the
    per-worker queue directory [~/.claude-code/orchestrator/workers/<id>/]:

    - [bin/worker.sh]: the worker daemon ([acquire_lock], [release_lock],
      [process_task] and its polling main loop), in Module [Worker];
    - [bin/orchestrator.js]: class [Orchestrator] ([findIdleWorker],
      [waitForAvailableWorker], [assignTask], [executeTasks],
      [executeSequential]), in Module [Orchestrator];
    - [lib/orchestrator-helper.js]: the four helpers built on the class,
      in Module [Helper].

    The queue directory of one worker is a [Slot]: the files [task.json],
    [status.json], [result.json] and the lock directory [.lock/].  The
    [timestamp] fields of the JSON records are written but never read by
    either program and are left out; log lines on stderr are left out too. *)

From Stdlib Require Import ZArith String List Lia.
From stdpp Require Import base tactics option list numbers strings.

Local Open Scope Z_scope.

(** ** The queue directory of one worker *)

(** The ["status"] field of [status.json]. *)
Inductive State := idle | working | done | error.

#[global] Instance State_eq_dec : EqDecision State.
Proof. solve_decision. Defined.

(** The [context] object of a task: passed through, never inspected. *)
Definition Context := list (string * string).

(** [status.json]: [{"status":..., "taskId":..., "timestamp":...}]. *)
Record StatusRec := mkStatus { st_state : State; st_taskId : option Z }.

(** [task.json].  [jq -r '.id // empty'] and [jq -r '.prompt // empty']
    yield the empty string for a field that is absent, so both fields are
    optional in the record the worker reads. *)
Record TaskRec := mkTask {
  t_id : option Z;
  t_prompt : option string;
  t_context : Context
}.

(** [result.json], as built by the [jq -n] call of [process_task]. *)
Record ResultRec := mkResult {
  r_taskId : option Z;
  r_output : string;
  r_success : bool;
  r_error : option string
}.

(** The lock directory [.lock/]: absent, present without its [pid] file
    (between [mkdir] and [echo $$ > .lock/pid]), or present with a pid.  A
    [pid] file that exists is taken to hold the pid of its writer. *)
Inductive Marker := NoLock | LockNoPid | LockPid (pid : Z).

Record Slot := mkSlot {
  task : option TaskRec;
  status : StatusRec;
  result : option ResultRec;
  lock : Marker
}.

#[global] Instance StatusRec_eq_dec : EqDecision StatusRec.
Proof. solve_decision. Defined.
#[global] Instance TaskRec_eq_dec : EqDecision TaskRec.
Proof. solve_decision. Defined.
#[global] Instance ResultRec_eq_dec : EqDecision ResultRec.
Proof. solve_decision. Defined.
#[global] Instance Marker_eq_dec : EqDecision Marker.
Proof. solve_decision. Defined.
#[global] Instance Slot_eq_dec : EqDecision Slot.
Proof. solve_decision. Defined.

Definition set_task (t : option TaskRec) (s : Slot) : Slot :=
  mkSlot t (status s) (result s) (lock s).
Definition set_status (st : StatusRec) (s : Slot) : Slot :=
  mkSlot (task s) st (result s) (lock s).
Definition set_result (r : option ResultRec) (s : Slot) : Slot :=
  mkSlot (task s) (status s) r (lock s).
Definition set_lock (m : Marker) (s : Slot) : Slot :=
  mkSlot (task s) (status s) (result s) m.

(** ** bin/worker.sh *)

Module Worker.

(** The files a worker touches. *)
Inductive File :=
  Task_file | Status_file | Result_file | Lock_pid | Output_tmp | Error_tmp.

#[global] Instance File_eq_dec : EqDecision File.
Proof. solve_decision. Defined.

Inductive Content :=
  | C_status (s : StatusRec)
  | C_result (r : ResultRec)
  | C_pid (pid : Z).

#[global] Instance Content_eq_dec : EqDecision Content.
Proof. solve_decision. Defined.

(** The commands of the script that act on the file system or the clock,
    in the order they run. *)
Inductive Event :=
  | Mkdir_lock (created : bool)          (* mkdir "$LOCK_FILE" *)
  | Overwrite (f : File) (c : Content)   (* cmd > "$f" *)
  | Rm_rf_lock                           (* rm -rf "$LOCK_FILE" *)
  | Rm_f (fs : list File)                (* rm -f ... *)
  | Sleep (seconds : Z)                  (* sleep "$wait" *)
  | Mktemp (f : File)                    (* $(mktemp) *)
  | Cd_worktree                          (* cd "$WORKTREE_PATH" *)
  | Run_agent (prompt : string).         (* echo "$prompt" | claude-code *)

#[global] Instance Event_eq_dec : EqDecision Event.
Proof. solve_decision. Defined.

(** What the external agent process does with a prompt: the exit status
    of [echo "$prompt" | claude-code], and its stdout and stderr as
    [process_task] captures them in [$output] and [$errors]. *)
Record AgentRun := mkRun { exit_ok : bool; stdout : string; stderr : string }.

(** What the script cannot control.  [interfere n] is what other processes
    did to the lock directory just before the [n]-th [mkdir] attempt of
    [acquire_lock]; [intrude n] is what they do to it between that [mkdir],
    when it succeeds, and the write of the pid file; [alive n pid] is the
    answer of [kill -0 pid] at that attempt; [claude_code] is the agent,
    as a function of the value of [$prompt]. *)
Record Env := mkEnv {
  interfere : nat -> Marker -> Marker;
  intrude : nat -> Marker -> Marker;
  alive : nat -> Z -> bool;
  claude_code : string -> AgentRun
}.

(** What a command substitution [$(cmd)] keeps of the output of [cmd]:
    bash drops the NUL bytes and strips every trailing newline. *)
Definition newline : Ascii.ascii := Ascii.ascii_of_nat 10.
Definition nul : Ascii.ascii := Ascii.ascii_of_nat 0.

Fixpoint drop_nul (out : string) : string :=
  match out with
  | EmptyString => EmptyString
  | String c out' =>
      if bool_decide (c = nul) then drop_nul out'
      else String c (drop_nul out')
  end.

Fixpoint strip_newlines (out : string) : string :=
  match out with
  | EmptyString => EmptyString
  | String c out' =>
      let rest := strip_newlines out' in
      if bool_decide (c = newline) && bool_decide (rest = EmptyString)
      then EmptyString
      else String c rest
  end.

Definition command_substitution (out : string) : string :=
  strip_newlines (drop_nul out).

(** [jq -r '.field // empty']: nothing for a field that is absent, the
    string followed by a newline otherwise. *)
Definition jq_r (field : option string) : string :=
  match field with
  | None => EmptyString
  | Some v => v +:+ String newline EmptyString
  end.

(** [$(jq -r '.prompt // empty' "$task_file")], the value of [$prompt]. *)
Definition prompt_of (t : TaskRec) : string :=
  command_substitution (jq_r (t_prompt t)).

(** A command: runs on the slot, returns a value, the new slot and the
    events it performed; [None] when a loop ran out of fuel. *)
Definition Sh (A : Type) : Type := Slot -> option (A * Slot * list Event).

#[global] Instance Sh_ret : MRet Sh := fun A a s => Some (a, s, []).
#[global] Instance Sh_bind : MBind Sh := fun A B k m s =>
  match m s with
  | None => None
  | Some (a, s1, t1) =>
      match k a s1 with
      | None => None
      | Some (b, s2, t2) => Some (b, s2, t1 ++ t2)
      end
  end.

Definition read {A} (f : Slot -> A) : Sh A := fun s => Some (f s, s, []).
Definition perform (e : Event) (f : Slot -> Slot) : Sh unit :=
  fun s => Some (tt, f s, [e]).
Definition out_of_fuel {A} : Sh A := fun _ => None.

(** [mkdir "$LOCK_FILE" 2>/dev/null]: succeeds iff the directory is absent. *)
Definition mkdir_lock : Sh bool := fun s =>
  match lock s with
  | NoLock => Some (true, set_lock LockNoPid s, [Mkdir_lock true])
  | _ => Some (false, s, [Mkdir_lock false])
  end.

(** [echo "$$" > "$LOCK_FILE/pid"]: creates or overwrites the pid file;
    when the directory is gone the redirection fails and nothing is
    written.  [acquire_lock] does not look at the status of the command. *)
Definition pid_written (pid : Z) (m : Marker) : Marker :=
  match m with
  | NoLock => NoLock
  | _ => LockPid pid
  end.

Definition write_pid (pid : Z) : Sh unit :=
  perform (Overwrite Lock_pid (C_pid pid))
    (fun s => set_lock (pid_written pid (lock s)) s).
Definition rm_rf_lock : Sh unit := perform Rm_rf_lock (set_lock NoLock).
Definition sleep (n : Z) : Sh unit := perform (Sleep n) id.
Definition write_status (st : StatusRec) : Sh unit :=
  perform (Overwrite Status_file (C_status st)) (set_status st).
Definition write_result (r : ResultRec) : Sh unit :=
  perform (Overwrite Result_file (C_result r)) (set_result (Some r)).
Definition rm_f (fs : list File) : Sh unit :=
  perform (Rm_f fs)
    (fun s => if bool_decide (Task_file ∈ fs) then set_task None s else s).
Definition mktemp (f : File) : Sh unit := perform (Mktemp f) id.
Definition cd_worktree : Sh unit := perform Cd_worktree id.

(** Exit status of a shell function. *)
Inductive RetCode := Ret0 | Ret1.

#[global] Instance RetCode_eq_dec : EqDecision RetCode.
Proof. solve_decision. Defined.

(** How one round of a [while] loop ends. *)
Inductive Next := Return (ok : bool) | Continue (retries wait : Z).

(** Whether the daemon is still in its main loop. *)
Inductive Daemon := Running | Exited.

(** The [sleep] durations of a run, in order. *)
Definition delays (t : list Event) : list Z :=
  omap (fun e => match e with Sleep n => Some n | _ => None end) t.

(** What a concurrent reader can find at the path of a file: nothing, the
    file opened by a redirection and not yet written, or a whole record. *)
Inductive View := Missing | Truncated | Whole (c : Content).

#[global] Instance View_eq_dec : EqDecision View.
Proof. solve_decision. Defined.

(** The states file [f] goes through while one command runs.  The shell
    opens the target of [cmd > f] with truncation before [cmd] writes; for
    the pid file this is so when the lock directory is there. *)
Definition passes_through (f : File) (e : Event) : list View :=
  match e with
  | Overwrite g c => if bool_decide (g = f) then [Truncated; Whole c] else []
  | Rm_f gs => if bool_decide (f ∈ gs) then [Missing] else []
  | Rm_rf_lock => if bool_decide (f = Lock_pid) then [Missing] else []
  | _ => []
  end.

Definition history (f : File) (t : list Event) : list View :=
  flat_map (passes_through f) t.

(** Lines 25-26: the status written when the script starts. *)
Definition init_status : Sh unit := write_status (mkStatus idle None).

Section script.
Context (env : Env) (me : Z).

(** Other processes act on the lock directory between two attempts, and
    between the [mkdir] and the write of the pid file. *)
Definition others (n : nat) : Sh unit := fun s =>
  Some (tt, set_lock (interfere env n (lock s)) s, []).
Definition intruders (n : nat) : Sh unit := fun s =>
  Some (tt, set_lock (intrude env n (lock s)) s, []).

Definition run_agent (prompt : string) : Sh AgentRun := fun s =>
  Some (claude_code env prompt, s, [Run_agent prompt]).

(** The body of the [while [ $retries -gt 0 ]] loop of [acquire_lock], at
    the [n]-th attempt.  After a [mkdir] that succeeded the function
    returns 0 whatever becomes of the pid file.  The stale branch ends in
    [continue]: it neither sleeps nor touches [retries] and [wait]. *)
Definition attempt (n : nat) (retries wait : Z) : Sh Next :=
  others n ;;
  created ← mkdir_lock;
  if created : bool then
    intruders n ;;
    write_pid me ;; mret (Return true)
  else
    m ← read lock;
    match m with
    | LockPid old_pid =>
        if negb (alive env n old_pid) then
          rm_rf_lock ;; mret (Continue retries wait)
        else
          sleep wait ;; mret (Continue (retries - 1) (wait * 2))
    | _ =>
        sleep wait ;; mret (Continue (retries - 1) (wait * 2))
    end.

Fixpoint acquire_loop (fuel : nat) (n : nat) (retries wait : Z) : Sh bool :=
  match fuel with
  | O => out_of_fuel
  | S fuel' =>
      if bool_decide (retries > 0) then
        next ← attempt n retries wait;
        match next with
        | Return ok => mret ok
        | Continue retries' wait' => acquire_loop fuel' (S n) retries' wait'
        end
      else mret false
  end.

(** [acquire_lock]: [local retries=5], [local wait=1]; [true] is
    [return 0], [false] is [return 1]. *)
Definition acquire_lock (fuel : nat) : Sh bool := acquire_loop fuel O 5 1.

Definition release_lock : Sh unit := rm_rf_lock.

(** [process_task]. *)
Definition process_task (fuel : nat) : Sh RetCode :=
  locked ← acquire_lock fuel;
  if negb locked then mret Ret1
  else
    t ← read task;
    match t with
    | None => release_lock ;; mret Ret0
    | Some t =>
        let task_id := t_id t in
        let prompt := prompt_of t in
        if bool_decide (prompt = EmptyString) then
          rm_f [Task_file] ;; release_lock ;; mret Ret0
        else
          write_status (mkStatus working task_id) ;;
          mktemp Output_tmp ;;
          mktemp Error_tmp ;;
          cd_worktree ;;
          run ← run_agent prompt;
          let success := exit_ok run in
          let errors := stderr run in
          write_result
            (mkResult task_id (stdout run) success
               (if bool_decide (errors ≠ EmptyString) then Some errors
                else None)) ;;
          (if success then write_status (mkStatus done task_id)
           else write_status (mkStatus error task_id)) ;;
          rm_f [Output_tmp; Error_tmp; Task_file] ;;
          release_lock ;;
          mret Ret0
    end.

(** One round of the main loop: [if [ -f "$TASK_FILE" ]; then process_task
    "$TASK_FILE"; fi].  The script runs under [set -e], so a non-zero
    status of [process_task] ends the script; the [EXIT] trap then runs
    [cleanup], which calls [release_lock]. *)
Definition main_round (fuel : nat) : Sh Daemon :=
  t ← read task;
  match t with
  | None => mret Running
  | Some _ =>
      rc ← process_task fuel;
      match rc with
      | Ret0 => mret Running
      | Ret1 => release_lock ;; mret Exited
      end
  end.

End script.

End Worker.

(** ** bin/orchestrator.js *)

Module Orchestrator.

(** A task object given to [executeTasks] or [executeSequential].  A
    missing [prompt] is [None]; a missing [context] is the default [{}] of
    [assignTask], the empty list; a missing [stopOnError] is falsy. *)
Record Task := mkJob {
  prompt : option string;
  context : Context;
  stopOnError : bool
}.

(** An element of the [results] array. *)
Record Outcome := mkOutcome {
  o_workerId : nat;
  o_taskId : Z;
  o_task : Task;
  o_result : option ResultRec;
  o_status : State
}.

(** What the orchestrator process sees: the queue directories of all
    workers (the worker with id [i] at position [i]), the clock read by
    [Date.now()], the number of suspensions so far, and the counter behind
    the task ids.  [dispatched] is a history variable: the task records
    written so far, with the worker they went to. *)
Record World := mkWorld {
  store : list Slot;
  clock : Z;
  tick : nat;
  nextId : Z;
  dispatched : list (nat * TaskRec)
}.

Definition with_store (f : list Slot -> list Slot) (w : World) : World :=
  mkWorld (f (store w)) (clock w) (tick w) (nextId w) (dispatched w).

(** Where an [async] method gives up control: the continuation of an
    [await] on an already settled promise, or a [setTimeout] of [ms]. *)
Inductive Suspension := Microtask | Timer (ms : Z).

(** What the worker processes do to the queue directories while the
    orchestrator is suspended for the [n]-th time. *)
Definition Env := nat -> Suspension -> list Slot -> list Slot.

Inductive Error := Timeout (msg : string) | TypeError.

(** A call returns, throws, or is still running when the fuel is spent. *)
Inductive Run (A : Type) := Returned (a : A) | Thrown (e : Error) | OutOfFuel.
Arguments Returned {A} a.
Arguments Thrown {A} e.
Arguments OutOfFuel {A}.

Definition Js (A : Type) : Type := World -> Run (A * World).

#[global] Instance Js_ret : MRet Js := fun A a w => Returned (a, w).
#[global] Instance Js_bind : MBind Js := fun A B k m w =>
  match m w with
  | Returned (a, w1) => k a w1
  | Thrown e => Thrown e
  | OutOfFuel => OutOfFuel
  end.

Definition throw {A} (e : Error) : Js A := fun _ => Thrown e.
Definition spent {A} : Js A := fun _ => OutOfFuel.
Definition Date_now : Js Z := fun w => Returned (clock w, w).

(** The slot [createWorker] establishes. *)
Definition created : Slot := mkSlot None (mkStatus idle None) None NoLock.

#[global] Instance Slot_inhabited : Inhabited Slot := populate created.

(** *** lib/queue.js *)

(** Modelled from the spec: [lib/queue.js] is not among the sources; these
    are the Slot Store operations of the spec (section 4.2) that
    [orchestrator.js] imports.  Reads return the record or [None]
    ("empty"); [writeTask] assigns a fresh, increasing id on every call;
    [writeStatus] replaces the status record; [clearResult] deletes the
    result.  The status record is the worker's: ARCHITECTURE.md lists
    [status.json] as updated by [worker.sh] only, and [task.json] as the
    one file [writeTask] creates.  The constructor of [Orchestrator] calls
    [createWorker i] for every worker id it later uses, so a lookup outside
    the store reads the slot [createWorker] would have established. *)
Definition readStatus (i : nat) : Js StatusRec := fun w =>
  Returned (status (store w !!! i), w).
Definition readResult (i : nat) : Js (option ResultRec) := fun w =>
  Returned (result (store w !!! i), w).
Definition clearResult (i : nat) : Js unit := fun w =>
  Returned (tt, with_store (alter (set_result None) i) w).
Definition writeStatus (i : nat) (s : State) : Js unit := fun w =>
  Returned (tt, with_store (alter (set_status (mkStatus s None)) i) w).
Definition writeTask (i : nat) (p : string) (c : Context) : Js Z := fun w =>
  let id := nextId w in
  let t := mkTask (Some id) (Some p) c in
  Returned (id, mkWorld (alter (set_task (Some t)) i (store w)) (clock w)
                  (tick w) (id + 1) (dispatched w ++ [(i, t)])).

(** The active-worker table of [executeTasks], a JS [Map]: keys in
    insertion order, [set] on a present key keeps its position. *)
Definition Active := list (nat * (Z * Task)).

Fixpoint map_set (k : nat) (v : Z * Task) (m : Active) : Active :=
  match m with
  | [] => [(k, v)]
  | (k', v') :: m' =>
      if bool_decide (k' = k) then (k, v) :: m' else (k', v') :: map_set k v m'
  end.
Definition map_get (k : nat) (m : Active) : option (Z * Task) :=
  snd <$> List.find (fun kv => bool_decide (kv.1 = k)) m.
Definition map_delete (k : nat) (m : Active) : Active :=
  List.filter (fun kv => negb (bool_decide (kv.1 = k))) m.
Definition map_keys (m : Active) : list nat := m.*1.

Section orchestrator.
(** [env]: the worker processes; [workers]: [this.workers]; [pollMs]: the
    polling interval of [waitForStatus]. *)
Context (env : Env) (workers : list nat) (pollMs : Z).

Definition suspend (s : Suspension) : Js unit := fun w =>
  Returned (tt, mkWorld (env (tick w) s (store w))
                  (clock w + match s with Microtask => 0 | Timer ms => ms end)
                  (S (tick w)) (nextId w) (dispatched w)).

(** [await m] for an [async] method [m] without a timer of its own. *)
Definition await {A} (m : Js A) : Js A :=
  a ← m; suspend Microtask ;; mret a.

(** [await new Promise(resolve => setTimeout(resolve, ms))]. *)
Definition setTimeout (ms : Z) : Js unit := suspend (Timer ms).

Definition available (w : World) (i : nat) : bool :=
  let st := st_state (status (store w !!! i)) in
  bool_decide (st = idle) || bool_decide (st = done).

Definition findIdleWorker : Js (option nat) := fun w =>
  Returned (List.find (available w) workers, w).

Fixpoint waitForAvailableWorker_loop (fuel : nat) (startTime timeoutMs : Z)
  : Js nat :=
  match fuel with
  | O => spent
  | S fuel' =>
      now ← Date_now;
      if bool_decide (now - startTime < timeoutMs) then
        workerId ← await findIdleWorker;
        match workerId with
        | Some i => mret i
        | None =>
            setTimeout 1000 ;;
            waitForAvailableWorker_loop fuel' startTime timeoutMs
        end
      else throw (Timeout "Timeout waiting for available worker")
  end.

Definition waitForAvailableWorker (fuel : nat) (timeoutMs : Z) : Js nat :=
  startTime ← Date_now;
  waitForAvailableWorker_loop fuel startTime timeoutMs.

(** [prompt.substring(0, 100)] in the first log line throws a
    [TypeError] when the task has no prompt, before anything is written. *)
Definition assignTask (workerId : nat) (p : option string) (c : Context)
  : Js Z :=
  match p with
  | None => throw TypeError
  | Some p => clearResult workerId ;; writeTask workerId p c
  end.

(** Modelled from the spec: [waitForStatus] of [lib/queue.js] is not among
    the sources.  It polls [readStatus] until the status is one of
    [states] and fails once [timeoutMs] has passed. *)
Fixpoint waitForStatus_loop (fuel : nat) (i : nat) (states : list State)
    (startTime timeoutMs : Z) : Js StatusRec :=
  match fuel with
  | O => spent
  | S fuel' =>
      st ← readStatus i;
      if bool_decide (st_state st ∈ states) then mret st
      else
        now ← Date_now;
        if bool_decide (now - startTime < timeoutMs) then
          setTimeout pollMs ;;
          waitForStatus_loop fuel' i states startTime timeoutMs
        else throw (Timeout "Timeout waiting for status")
  end.

Definition waitForStatus (fuel : nat) (i : nat) (states : list State)
    (timeoutMs : Z) : Js StatusRec :=
  startTime ← Date_now;
  waitForStatus_loop fuel i states startTime timeoutMs.

Definition waitForCompletion (fuel : nat) (workerId : nat) (timeoutMs : Z)
  : Js StatusRec :=
  st ← await (waitForStatus fuel workerId [done; error] timeoutMs);
  mret st.

Definition getResult (workerId : nat) : Js (option ResultRec) :=
  readResult workerId.

(** The inner [while (taskQueue.length > 0)] loop of [executeTasks]:
    returns what is left of the queue and the updated table. *)
Fixpoint assign_loop (taskQueue : list Task) (activeWorkers : Active)
  : Js (list Task * Active) :=
  match taskQueue with
  | [] => mret ([], activeWorkers)
  | task :: rest =>
      workerId ← await findIdleWorker;
      match workerId with
      | None => mret (taskQueue, activeWorkers)
      | Some i =>
          taskId ← await (assignTask i (prompt task) (context task));
          assign_loop rest (map_set i (taskId, task) activeWorkers)
      end
  end.

(** The [for (const workerId of activeWorkers.keys())] loop; the only
    change to the table during the iteration is the deletion of the key
    being visited. *)
Fixpoint collect_loop (keys : list nat) (activeWorkers : Active)
    (results : list Outcome) : Js (Active * list Outcome) :=
  match keys with
  | [] => mret (activeWorkers, results)
  | workerId :: keys' =>
      st ← readStatus workerId;
      if bool_decide (st_state st = done) || bool_decide (st_state st = error)
      then
        result ← getResult workerId;
        match map_get workerId activeWorkers with
        | None => throw TypeError
        | Some (taskId, originalTask) =>
            writeStatus workerId idle ;;
            collect_loop keys' (map_delete workerId activeWorkers)
              (results ++
                 [mkOutcome workerId taskId originalTask result (st_state st)])
        end
      else collect_loop keys' activeWorkers results
  end.

(** The outer [while (taskQueue.length > 0 || activeWorkers.size > 0)]. *)
Fixpoint executeTasks_loop (fuel : nat) (taskQueue : list Task)
    (activeWorkers : Active) (results : list Outcome) : Js (list Outcome) :=
  match fuel with
  | O => spent
  | S fuel' =>
      if bool_decide (0 < length taskQueue)%nat
         || bool_decide (0 < length activeWorkers)%nat
      then
        '(taskQueue, activeWorkers) ← assign_loop taskQueue activeWorkers;
        if bool_decide (0 < length activeWorkers)%nat then
          '(activeWorkers, results) ←
            collect_loop (map_keys activeWorkers) activeWorkers results;
          setTimeout 500 ;;
          executeTasks_loop fuel' taskQueue activeWorkers results
        else executeTasks_loop fuel' taskQueue activeWorkers results
      else mret results
  end.

Definition executeTasks (fuel : nat) (tasks : list Task) : Js (list Outcome) :=
  executeTasks_loop fuel tasks [] [].

(** One round of the [for] loop of [executeSequential], up to and
    including [writeStatus(workerId, 'idle')]. *)
Definition sequential_round (fuel : nat) (task : Task) : Js Outcome :=
  workerId ← await (waitForAvailableWorker fuel 300000);
  taskId ← await (assignTask workerId (prompt task) (context task));
  await (waitForCompletion fuel workerId 300000) ;;
  result ← getResult workerId;
  st ← readStatus workerId;
  writeStatus workerId idle ;;
  mret (mkOutcome workerId taskId task result (st_state st)).

(** [task.stopOnError && !result.success]: [result] is only looked at
    when [stopOnError] is truthy, and is [null] when there is no result
    record. *)
Definition should_stop (task : Task) (result : option ResultRec) : Js bool :=
  if stopOnError task then
    match result with
    | None => throw TypeError
    | Some r => mret (negb (r_success r))
    end
  else mret false.

Fixpoint executeSequential_loop (fuel : nat) (tasks : list Task)
    (results : list Outcome) : Js (list Outcome) :=
  match tasks with
  | [] => mret results
  | task :: rest =>
      o ← sequential_round fuel task;
      let results := results ++ [o] in
      stop ← should_stop task (o_result o);
      if stop : bool then mret results
      else executeSequential_loop fuel rest results
  end.

Definition executeSequential (fuel : nat) (tasks : list Task)
  : Js (list Outcome) :=
  executeSequential_loop fuel tasks [].

(** [getWorkersStatus]: [this.workers.map(workerId => ({ id: workerId,
    status: readStatus(workerId) }))]. *)
Fixpoint getWorkersStatus_map (ids : list nat) : Js (list (nat * StatusRec)) :=
  match ids with
  | [] => mret []
  | workerId :: ids' =>
      st ← readStatus workerId;
      rest ← getWorkersStatus_map ids';
      mret ((workerId, st) :: rest)
  end.

Definition getWorkersStatus : Js (list (nat * StatusRec)) :=
  getWorkersStatus_map workers.

(** [shutdown]: [for (const workerId of this.workers)
    writeStatus(workerId, 'idle')]. *)
Fixpoint shutdown_loop (ids : list nat) : Js unit :=
  match ids with
  | [] => mret tt
  | workerId :: ids' => writeStatus workerId idle ;; shutdown_loop ids'
  end.

Definition shutdown : Js unit := shutdown_loop workers.

End orchestrator.

(** [this.workers] as the constructor builds it:
    [for (let i = 0; i < numWorkers; i++) this.workers.push(i)]. *)
Definition pool (numWorkers : nat) : list nat := seq 0 numWorkers.

Section construction.
(** [initQueue] and [createWorker] of [lib/queue.js] are not among the
    sources, and the spec names them without saying what they do to a
    queue directory that exists; what they do is left open. *)
Context (initQueue : Js unit) (createWorker : nat -> Js unit).

(** The [for (let i = 0; i < numWorkers; i++)] loop of the constructor,
    with [todo] rounds to go. *)
Fixpoint constructor_loop (todo i : nat) (workers : list nat) : Js (list nat) :=
  match todo with
  | O => mret workers
  | S todo' =>
      createWorker i ;;
      constructor_loop todo' (S i) (workers ++ [i])
  end.

(** [new Orchestrator(numWorkers)]; the value is [this.workers]. *)
Definition new_Orchestrator (numWorkers : nat) : Js (list nat) :=
  initQueue ;; constructor_loop numWorkers 0 [].

End construction.

End Orchestrator.

(** ** lib/orchestrator-helper.js *)

Module Helper.
Import Orchestrator.

(** A step object given to [sequentialPipeline]; every field may be
    missing. *)
Record Step := mkStep {
  s_name : option string;
  s_prompt : option string;
  s_context : option Context;
  s_stopOnError : option bool
}.

(** The task objects the helpers build with [map]. *)
Definition review_task (file : string) : Task :=
  mkJob (Some ("Review the code in " +:+ file +:+
               " for bugs, security issues, and style problems. Provide a concise summary."))
    [("file", file)] false.

Definition test_task (suite : string) : Task :=
  mkJob (Some ("Run tests for " +:+ suite +:+
               " and report results. Include pass/fail counts and any errors."))
    [("suite", suite)] false.

(** [{ prompt: step.prompt, context: step.context || {},
       stopOnError: step.stopOnError !== false }]. *)
Definition pipeline_task (step : Step) : Task :=
  mkJob (s_prompt step) (default [] (s_context step))
    (match s_stopOnError step with Some false => false | _ => true end).

Definition subtasks : list string :=
  ["Analyze requirements and identify components";
   "Implement core functionality";
   "Add error handling and edge cases";
   "Write tests";
   "Update documentation"].

Definition subtask_task (mainGoal task : string) : Task :=
  mkJob (Some task) [("mainGoal", mainGoal)] false.

(** [result.result.output] in the report every helper prints: a
    [TypeError] when the outcome has no result record. *)
Definition output_of (result : Outcome) : Js string :=
  match o_result result with
  | None => throw TypeError
  | Some r => mret (r_output r)
  end.

(** The [for] loop that prints the report.  The console is not part of
    the world; what is left of a round are the property reads that can
    throw: those of the first lines, [heading i], and
    [result.result.output]. *)
Fixpoint report (heading : nat -> Js unit) (i : nat) (results : list Outcome)
  : Js unit :=
  match results with
  | [] => mret tt
  | result :: rest =>
      heading i ;; output_of result ;; report heading (S i) rest
  end.

(** [result.task.context.file], [result.task.context.suite] and
    [subtasks[i]] read objects that exist. *)
Definition plain_heading (i : nat) : Js unit := mret tt.

(** [steps[i].name || 'Unnamed']. *)
Definition step_heading (steps : list Step) (i : nat) : Js unit :=
  match steps !! i with
  | None => throw TypeError
  | Some _ => mret tt
  end.

Section helper.
Context (env : Env) (pollMs : Z).
Context (initQueue : Js unit) (createWorker : nat -> Js unit).

Definition parallelCodeReview (fuel : nat) (files : list string)
    (numWorkers : nat) : Js (list Outcome) :=
  workers ← new_Orchestrator initQueue createWorker numWorkers;
  let tasks := review_task <$> files in
  results ← await env (executeTasks env workers fuel tasks);
  report plain_heading 0 results ;;
  shutdown workers ;;
  mret results.

Definition parallelTests (fuel : nat) (testSuites : list string)
    (numWorkers : nat) : Js (list Outcome) :=
  workers ← new_Orchestrator initQueue createWorker numWorkers;
  let tasks := test_task <$> testSuites in
  results ← await env (executeTasks env workers fuel tasks);
  report plain_heading 0 results ;;
  shutdown workers ;;
  mret results.

Definition sequentialPipeline (fuel : nat) (steps : list Step)
    (numWorkers : nat) : Js (list Outcome) :=
  workers ← new_Orchestrator initQueue createWorker numWorkers;
  let tasks := pipeline_task <$> steps in
  results ← await env (executeSequential env workers pollMs fuel tasks);
  report (step_heading steps) 0 results ;;
  shutdown workers ;;
  mret results.

Definition decomposeAndExecute (fuel : nat) (mainGoal : string)
    (numWorkers : nat) : Js (list Outcome) :=
  workers ← new_Orchestrator initQueue createWorker numWorkers;
  let tasks := subtask_task mainGoal <$> subtasks in
  results ← await env (executeSequential env workers pollMs fuel tasks);
  report plain_heading 0 results ;;
  shutdown workers ;;
  mret results.

End helper.

End Helper.

(** ** Environments and slots used in the examples *)

Module Fixtures.
Import Worker.

(** No other process touches the lock; every recorded pid is alive. *)
Definition quiet (agent : string -> AgentRun) : Env :=
  mkEnv (fun _ m => m) (fun _ m => m) (fun _ _ => true) agent.

(** No other process touches the lock; no recorded pid is alive. *)
Definition all_dead (agent : string -> AgentRun) : Env :=
  mkEnv (fun _ m => m) (fun _ m => m) (fun _ _ => false) agent.

(** Before every attempt a marker of the dead process 99 is back. *)
Definition respawn (agent : string -> AgentRun) : Env :=
  mkEnv (fun _ _ => LockPid 99) (fun _ m => m) (fun _ _ => false) agent.

(** The live process 5 holds the lock during the first two attempts and
    has released it before the third. *)
Definition released_late (agent : string -> AgentRun) : Env :=
  mkEnv (fun n m => if bool_decide (n < 2)%nat then LockPid 5
                    else if bool_decide (n = 2)%nat then NoLock else m)
    (fun _ m => m) (fun _ _ => true) agent.

(** The exit trap of another daemon removes the lock directory right
    after every [mkdir] that succeeds. *)
Definition trap_fires (agent : string -> AgentRun) : Env :=
  mkEnv (fun _ m => m) (fun _ _ => NoLock) (fun _ _ => true) agent.

Definition agent_ok (prompt : string) : AgentRun :=
  mkRun true "ok" "".
Definition agent_fails (prompt : string) : AgentRun :=
  mkRun false "" "boom".

Definition fresh : Slot := mkSlot None (mkStatus idle None) None NoLock.

(** The worker daemons as the orchestrator meets them: while the
    orchestrator sleeps on a timer, every daemon runs one round of its
    main loop; within a microtask nothing happens. *)
Definition worker_pid (i : nat) : Z := 1000 + Z.of_nat i.

Definition daemon_round (agent : string -> AgentRun) (i : nat) (s : Slot)
  : Slot :=
  match main_round (quiet agent) (worker_pid i) 10 s with
  | Some (_, s', _) => s'
  | None => s
  end.

Definition daemons (agent : string -> AgentRun) : Orchestrator.Env :=
  fun _ susp st =>
    match susp with
    | Orchestrator.Microtask => st
    | Orchestrator.Timer _ => imap (daemon_round agent) st
    end.

(** Worker processes that never act. *)
Definition no_daemons : Orchestrator.Env := fun _ _ st => st.

(** A slot whose worker is in the middle of a task. *)
Definition busy : Slot := mkSlot None (mkStatus working (Some 0)) None (LockPid 1000).

Definition start (st : list Slot) : Orchestrator.World :=
  Orchestrator.mkWorld st 0 0 1 [].

Definition job (p : string) (stop : bool) : Orchestrator.Task :=
  Orchestrator.mkJob (Some p) [] stop.

(** A slot with a task waiting, its lock free or held by process 5. *)
Definition hi_task : TaskRec := mkTask (Some 3) (Some "hi") [].
Definition waiting : Slot := mkSlot (Some hi_task) (mkStatus idle None) None NoLock.
Definition contended : Slot :=
  mkSlot (Some hi_task) (mkStatus idle None) None (LockPid 5).

(** Queue directories that exist already: [initQueue] and [createWorker]
    find nothing to do. *)
Definition initQueue_done : Orchestrator.Js unit := mret tt.
Definition createWorker_done (i : nat) : Orchestrator.Js unit := mret tt.

(** A slot whose worker has finished a task that nobody has collected. *)
Definition finished : Slot :=
  mkSlot None (mkStatus done (Some 7))
    (Some (mkResult (Some 7) "old" true None)) NoLock.

(** The run of [acquire_lock] against a lock that stays held. *)
Definition full_backoff : list Event :=
  [Mkdir_lock false; Sleep 1; Mkdir_lock false; Sleep 2; Mkdir_lock false;
   Sleep 4; Mkdir_lock false; Sleep 8; Mkdir_lock false; Sleep 16].
End Fixtures.

(** ** Properties of slots, runs and computations *)

(** A slot is only changed in its lock directory. *)
Definition same_files (s s' : Slot) : Prop :=
  task s' = task s ∧ status s' = status s ∧ result s' = result s.

(** The marker an attempt of [acquire_lock] meets records a live,
    respectively a dead, process. *)
Definition live_holder (env : Worker.Env) (n : nat) (m : Marker) : Prop :=
  ∃ p, m = LockPid p ∧ Worker.alive env n p = true.
Definition stale (env : Worker.Env) (n : nat) (m : Marker) : Prop :=
  ∃ p, m = LockPid p ∧ Worker.alive env n p = false.

(** The result record and the terminal status [process_task] writes for
    task [tk] with prompt [p]. *)
Definition result_of (env : Worker.Env) (tk : TaskRec) (p : string) : ResultRec :=
  let run := Worker.claude_code env p in
  mkResult (t_id tk) (Worker.stdout run) (Worker.exit_ok run)
    (if bool_decide (Worker.stderr run ≠ EmptyString)
     then Some (Worker.stderr run) else None).
Definition terminal_of (env : Worker.Env) (tk : TaskRec) (p : string) : StatusRec :=
  mkStatus (if Worker.exit_ok (Worker.claude_code env p) then done else error)
    (t_id tk).

(** The invariant of the spec: an idle slot holds neither task nor result. *)
Definition idle_slot_empty (s : Slot) : Prop :=
  st_state (status s) = idle → task s = None ∧ result s = None.


(** A computation that, when it returns, has kept a property of the queue
    directories. *)
Definition keeps_store (P : list Slot → Prop) {A} (m : Orchestrator.Js A)
  : Prop :=
  ∀ w a w', P (Orchestrator.store w) → m w = Orchestrator.Returned (a, w') →
            P (Orchestrator.store w').

(** A computation that returns leaves the dispatch history alone. *)
Definition keeps_log {A} (m : Orchestrator.Js A) : Prop :=
  ∀ w a w', m w = Orchestrator.Returned (a, w') →
            Orchestrator.dispatched w' = Orchestrator.dispatched w.

(** A computation that never throws a timeout. *)
Definition no_timeout {A} (m : Orchestrator.Js A) : Prop :=
  ∀ w msg, m w ≠ Orchestrator.Thrown (Orchestrator.Timeout msg).


(** The delays of [k] rounds of back-off that start at [w] seconds:
    [wait=$((wait * 2))] after every [sleep "$wait"]. *)
Fixpoint backoff (k : nat) (w : Z) : list Z :=
  match k with
  | O => []
  | S k' => w :: backoff k' (w * 2)
  end.

(** The commands [acquire_lock] can perform. *)
Definition lock_event (e : Worker.Event) : Prop :=
  match e with
  | Worker.Mkdir_lock _ | Worker.Overwrite Worker.Lock_pid _
  | Worker.Rm_rf_lock | Worker.Sleep _ => True
  | _ => False
  end.

(** The prompts the agent was run with, in order. *)
Definition agent_runs (t : list Worker.Event) : list string :=
  omap (λ e, match e with Worker.Run_agent p => Some p | _ => None end) t.

(** An outcome of [executeTasks] that belongs to a submitted task. *)
Definition sound_outcome (workers : list nat) (tasks : list Orchestrator.Task)
    (o : Orchestrator.Outcome) : Prop :=
  Orchestrator.o_task o ∈ tasks ∧ Orchestrator.o_workerId o ∈ workers ∧
  (Orchestrator.o_status o = done ∨ Orchestrator.o_status o = error) ∧
  is_Some (Orchestrator.prompt (Orchestrator.o_task o)).

(** The same for the entries of the table of active workers. *)
Definition sound_active (workers : list nat) (tasks : list Orchestrator.Task)
    (a : Orchestrator.Active) : Prop :=
  Forall (λ kv, kv.1 ∈ workers ∧ kv.2.2 ∈ tasks ∧
                is_Some (Orchestrator.prompt kv.2.2)) a.

(** The task record [assignTask] wrote for an outcome, with its worker. *)
Definition record_of (o : Orchestrator.Outcome) : nat * TaskRec :=
  (Orchestrator.o_workerId o,
   mkTask (Some (Orchestrator.o_taskId o))
     (Orchestrator.prompt (Orchestrator.o_task o))
     (Orchestrator.context (Orchestrator.o_task o))).

(** [task.stopOnError && !result.success] holds of an outcome. *)
Definition stops (o : Orchestrator.Outcome) : Prop :=
  Orchestrator.stopOnError (Orchestrator.o_task o) = true ∧
  ∃ r, Orchestrator.o_result o = Some r ∧ r_success r = false.

(** What a run of the loop of [executeSequential] on [tasks], from world
    [w] to world [w'], adds to [results]. *)
Definition pipeline_shape (tasks : list Orchestrator.Task)
    (w w' : Orchestrator.World) (ext : list Orchestrator.Outcome) : Prop :=
  Orchestrator.o_task <$> ext = take (length ext) tasks ∧
  Orchestrator.dispatched w' = Orchestrator.dispatched w ++ (record_of <$> ext) ∧
  Forall (λ o, is_Some (Orchestrator.prompt (Orchestrator.o_task o))) ext ∧
  ((length ext < length tasks)%nat → ∃ o, last ext = Some o ∧ stops o) ∧
  (∀ i o, ext !! i = Some o → (S i < length ext)%nat → ¬ stops o).

(** The run of the agent on the prompt of a task, as the worker reads
    it from [task.json]. *)
Definition run_on (agent : string → Worker.AgentRun) (p : string)
  : Worker.AgentRun :=
  agent (Worker.command_substitution p).

(** An outcome that reports what the agent did with the prompt of its
    task: stdout as [output], the exit status as [success] and as
    [done]/[error], stderr (when not empty) as [error], and the task id. *)
Definition faithful_outcome (agent : string → Worker.AgentRun)
    (o : Orchestrator.Outcome) : Prop :=
  ∃ p, Orchestrator.prompt (Orchestrator.o_task o) = Some p ∧
       Orchestrator.o_result o =
         Some (mkResult (Some (Orchestrator.o_taskId o))
                 (Worker.stdout (run_on agent p))
                 (Worker.exit_ok (run_on agent p))
                 (if bool_decide (Worker.stderr (run_on agent p) ≠ EmptyString)
                  then Some (Worker.stderr (run_on agent p)) else None)) ∧
       Orchestrator.o_status o =
         (if Worker.exit_ok (run_on agent p) then done else error).

(** Queue directories in which the worker with id 0 is idle, without task
    and without lock, and no other worker has a task waiting. *)
Definition first_worker_free (st : list Slot) : Prop :=
  ∃ r rest, st = mkSlot None (mkStatus idle None) r NoLock :: rest ∧
            Forall (λ s, task s = None) rest.

(** A task with a prompt that the worker does not discard: what the
    command substitution keeps of it (the prompt without NUL bytes and
    trailing newlines) is not empty. *)
Definition has_prompt (t : Orchestrator.Task) : Prop :=
  ∃ p, Orchestrator.prompt t = Some p ∧
       Worker.command_substitution p ≠ EmptyString.

(** A heading of the report that reads without writing. *)
Definition reads_only (heading : nat → Orchestrator.Js unit) : Prop :=
  ∀ j w a w', heading j w = Orchestrator.Returned (a, w') → w' = w.

(** The frame the four helpers share: construct, run, report, shut
    down. *)
Definition framed (env : Orchestrator.Env) (initQueue : Orchestrator.Js unit)
    (createWorker : nat → Orchestrator.Js unit)
    (exec : list nat → Orchestrator.Js (list Orchestrator.Outcome))
    (heading : nat → Orchestrator.Js unit) (n : nat)
  : Orchestrator.Js (list Orchestrator.Outcome) :=
  workers ← Orchestrator.new_Orchestrator initQueue createWorker n;
  results ← Orchestrator.await env (exec workers);
  Helper.report heading 0 results ;;
  Orchestrator.shutdown workers ;;
  mret results.

(** ** The lock: [acquire_lock] *)

Section lock_facts.
Import Worker.
Context (env : Env) (me : Z).

Lemma attempt_free n r w s :
  interfere env n (lock s) = NoLock →
  attempt env me n r w s =
    Some (Return true, set_lock (pid_written me (intrude env n LockNoPid)) s,
          [Mkdir_lock true; Overwrite Lock_pid (C_pid me)]).
Proof.
  intros H. unfold attempt, others, intruders, mbind, Sh_bind, mkdir_lock.
  simpl. rewrite H. reflexivity.
Qed.

Lemma attempt_stale n r w s p :
  interfere env n (lock s) = LockPid p →
  alive env n p = false →
  attempt env me n r w s =
    Some (Continue r w, set_lock NoLock s, [Mkdir_lock false; Rm_rf_lock]).
Proof.
  intros H Hp. unfold attempt, others, mbind, Sh_bind, mkdir_lock. simpl.
  rewrite H. simpl. rewrite ?H, Hp. reflexivity.
Qed.

Lemma attempt_live n r w s p :
  interfere env n (lock s) = LockPid p →
  alive env n p = true →
  attempt env me n r w s =
    Some (Continue (r - 1) (w * 2), set_lock (LockPid p) s,
          [Mkdir_lock false; Sleep w]).
Proof.
  intros H Hp. unfold attempt, others, mbind, Sh_bind, mkdir_lock. simpl.
  rewrite H. simpl. rewrite ?H, Hp. reflexivity.
Qed.

Lemma attempt_nopid n r w s :
  interfere env n (lock s) = LockNoPid →
  attempt env me n r w s =
    Some (Continue (r - 1) (w * 2), set_lock LockNoPid s,
          [Mkdir_lock false; Sleep w]).
Proof.
  intros H. unfold attempt, others, mbind, Sh_bind, mkdir_lock. simpl.
  rewrite H. simpl. rewrite ?H. reflexivity.
Qed.

Lemma set_lock_same (s : Slot) : set_lock (lock s) s = s.
Proof. destruct s; reflexivity. Qed.

(** One unfolding of the [while] loop. *)
Lemma acquire_loop_S fuel n r w s :
  acquire_loop env me (S fuel) n r w s =
    if bool_decide (r > 0) then
      match attempt env me n r w s with
      | None => None
      | Some (Return ok, s1, t1) => Some (ok, s1, t1 ++ [])
      | Some (Continue r' w', s1, t1) =>
          match acquire_loop env me fuel (S n) r' w' s1 with
          | None => None
          | Some (b, s2, t2) => Some (b, s2, t1 ++ t2)
          end
      end
    else Some (false, s, []).
Proof.
  simpl. case_bool_decide; [|reflexivity].
  unfold mbind, Sh_bind.
  destruct (attempt env me n r w s) as [[[[ok|r' w'] s1] t1]|]; reflexivity.
Qed.

Lemma attempt_files n r w s x s1 t1 :
  attempt env me n r w s = Some (x, s1, t1) → same_files s s1.
Proof.
  unfold attempt, others, intruders, mbind, Sh_bind, mkdir_lock. simpl.
  destruct (interfere env n (lock s)) as [| |p]; simpl;
    [| |destruct (alive env n p); simpl];
    intros [= <- <- <-]; repeat split.
Qed.

Lemma acquire_loop_files fuel : ∀ n r w s b s1 t1,
  acquire_loop env me fuel n r w s = Some (b, s1, t1) → same_files s s1.
Proof.
  induction fuel as [|fuel IH]; intros n r w s b s1 t1; [discriminate|].
  rewrite acquire_loop_S. case_bool_decide.
  - destruct (attempt env me n r w s) as [[[[ok|r' w'] s2] t2]|] eqn:Ha;
      [| |discriminate].
    + intros [= <- <- <-]. eapply attempt_files, Ha.
    + destruct (acquire_loop env me fuel (S n) r' w' s2)
        as [[[b' s3] t3]|] eqn:Hl; [|discriminate].
      intros [= <- <- <-].
      apply attempt_files in Ha as (? & ? & ?).
      apply IH in Hl as (? & ? & ?). repeat split; congruence.
  - intros [= <- <- <-]. repeat split.
Qed.

(** A successful [acquire_lock] leaves the caller's pid in the marker,
    or no marker at all when the directory was removed before the pid
    could be written. *)
Lemma acquire_loop_holds fuel : ∀ n r w s s1 t1,
  acquire_loop env me fuel n r w s = Some (true, s1, t1) →
  ∃ k, lock s1 = pid_written me (intrude env k LockNoPid).
Proof.
  induction fuel as [|fuel IH]; intros n r w s s1 t1; [discriminate|].
  rewrite acquire_loop_S. case_bool_decide; [|discriminate].
  destruct (attempt env me n r w s) as [[[[ok|r' w'] s2] t2]|] eqn:Ha;
    [| |discriminate].
  - intros [= -> <- <-]. exists n. revert Ha.
    unfold attempt, others, intruders, mbind, Sh_bind, mkdir_lock. simpl.
    destruct (interfere env n (lock s)) as [| |p]; simpl;
      [| |destruct (alive env n p); simpl]; intros [= <-]; reflexivity.
  - destruct (acquire_loop env me fuel (S n) r' w' s2)
      as [[[b' s3] t3]|] eqn:Hl; [|discriminate].
    intros [= -> <- <-]. eapply IH, Hl.
Qed.

(** While a live process [p] keeps the marker, the loop runs its budget
    down, doubling the delay. *)
Lemma acquire_loop_live p (Hkeep : ∀ n, interfere env n (LockPid p) = LockPid p)
    (Hlive : ∀ n, alive env n p = true) fuel n r w s :
  lock s = LockPid p → r > 0 →
  acquire_loop env me (S fuel) n r w s =
    match acquire_loop env me fuel (S n) (r - 1) (w * 2) s with
    | None => None
    | Some (b, s2, t2) => Some (b, s2, [Mkdir_lock false; Sleep w] ++ t2)
    end.
Proof.
  intros Hs Hr. rewrite acquire_loop_S, bool_decide_eq_true_2 by done.
  rewrite (attempt_live n r w s p) by (rewrite ?Hs; auto).
  rewrite <- Hs, set_lock_same.
  reflexivity.
Qed.

End lock_facts.

Section lock_budget.
Import Worker.
Context (env : Env) (me : Z).

Lemma delays_app (t1 t2 : list Event) : delays (t1 ++ t2) = delays t1 ++ delays t2.
Proof. apply omap_app. Qed.

(** An attempt that lowers [retries] slept [wait] seconds on a marker
    that is present and not stale. *)
Lemma attempt_consumes n r w s r' w' s' t :
  attempt env me n r w s = Some (Continue r' w', s', t) → r' ≠ r →
  r' = r - 1 ∧ w' = w * 2 ∧ delays t = [w] ∧
  (live_holder env n (interfere env n (lock s)) ∨
   interfere env n (lock s) = LockNoPid).
Proof.
  destruct (interfere env n (lock s)) as [| |p] eqn:Hm.
  - rewrite attempt_free by done. discriminate.
  - rewrite attempt_nopid by done. intros [= <- <- <- <-] _. auto.
  - destruct (alive env n p) eqn:Hp.
    + rewrite (attempt_live _ _ n r w s p) by done.
      intros [= <- <- <- <-] _. repeat split. left. by exists p.
    + rewrite (attempt_stale _ _ n r w s p) by done.
      intros [= <- <- <- <-] Hne. by destruct Hne.
Qed.

(** Without stale markers every round that does not acquire the lock
    lowers [retries], so [retries] rounds are enough. *)
Lemma acquire_loop_terminates
    (Hlive : ∀ n m p, interfere env n m = LockPid p → alive env n p = true) :
  ∀ (k n : nat) (w : Z) (s : Slot),
    ∃ ok s' t, acquire_loop env me (S k) n (Z.of_nat k) w s = Some (ok, s', t) ∧
               (length (delays t) ≤ k)%nat.
Proof.
  induction k as [|k IH]; intros n w s.
  - exists false, s, []. split; [reflexivity | simpl; lia].
  - rewrite acquire_loop_S, bool_decide_eq_true_2 by lia.
    replace (Z.of_nat (S k) - 1) with (Z.of_nat k) in * by lia.
    destruct (interfere env n (lock s)) as [| |p] eqn:Hm.
    + rewrite attempt_free by done. eexists _, _, _. split; [reflexivity|].
      simpl. lia.
    + rewrite attempt_nopid by done.
      replace (Z.of_nat (S k) - 1) with (Z.of_nat k) by lia.
      destruct (IH (S n) (w * 2) (set_lock LockNoPid s)) as (ok & s' & t & -> & Hlen).
      eexists _, _, _. split; [reflexivity|]. simpl. lia.
    + rewrite (attempt_live _ _ n _ w s p) by eauto.
      replace (Z.of_nat (S k) - 1) with (Z.of_nat k) by lia.
      destruct (IH (S n) (w * 2) (set_lock (LockPid p) s)) as (ok & s' & t & -> & Hlen).
      eexists _, _, _. split; [reflexivity|]. simpl. lia.
Qed.

End lock_budget.

(** A stale marker that is back before every attempt keeps the loop
    running: no amount of fuel lets it return. *)
Lemma acquire_loop_respawn agent me fuel : ∀ n s,
  Worker.acquire_loop (Fixtures.respawn agent) me fuel n 5 1 s = None.
Proof.
  induction fuel as [|fuel IH]; intros n s; [reflexivity|].
  rewrite acquire_loop_S, bool_decide_eq_true_2 by lia.
  rewrite (attempt_stale _ _ n 5 1 s 99) by reflexivity.
  by rewrite IH.
Qed.

(** C5. When every attempt of [acquire_lock] finds the lock held by the
    same live process, it makes five attempts, sleeping 1, 2, 4, 8 and 16
    seconds after them (doubling, so bounded by 16 within the budget), and
    then returns failure, leaving the slot as it was. *)
Theorem acquire_lock_live_holder_backs_off
    (env : Worker.Env) (me p : Z) (fuel : nat) (s : Slot) :
  lock s = LockPid p →
  (∀ n, Worker.interfere env n (LockPid p) = LockPid p) →
  (∀ n, Worker.alive env n p = true) →
  (6 ≤ fuel)%nat →
  ∃ t, Worker.acquire_lock env me fuel s = Some (false, s, t) ∧
       Worker.delays t = [1; 2; 4; 8; 16] ∧
       length (filter (λ e, e = Worker.Mkdir_lock false) t) = 5%nat ∧
       Forall (λ d, 0 < d ≤ 16) (Worker.delays t).
Proof.
  intros Hs Hkeep Hlive Hfuel.
  do 6 (destruct fuel as [|fuel]; [lia|]).
  unfold Worker.acquire_lock.
  do 5 (rewrite (acquire_loop_live env me p Hkeep Hlive) by (done || lia)).
  rewrite acquire_loop_S, bool_decide_eq_false_2 by lia.
  eexists. split; [reflexivity|]. split; [reflexivity|]. split; [reflexivity|].
  repeat constructor; lia.
Qed.

Lemma acquire_lock_live_holder_backs_off_witness :
  ∃ t, Worker.acquire_lock (Fixtures.quiet Fixtures.agent_ok) 7 6
         (set_lock (LockPid 5) Fixtures.fresh)
       = Some (false, set_lock (LockPid 5) Fixtures.fresh, t) ∧
       Worker.delays t = [1; 2; 4; 8; 16] ∧
       length (filter (λ e, e = Worker.Mkdir_lock false) t) = 5%nat ∧
       Forall (λ d, 0 < d ≤ 16) (Worker.delays t).
Proof.
  apply (acquire_lock_live_holder_backs_off
           (Fixtures.quiet Fixtures.agent_ok) 7 5 6
           (set_lock (LockPid 5) Fixtures.fresh)).
  - reflexivity.
  - intros n. reflexivity.
  - intros n. reflexivity.
  - lia.
Defined.

(** C6. When the marker records the pid of a process that is no longer
    alive and nobody else creates the marker meanwhile, [acquire_lock]
    removes the marker at its first attempt and succeeds at its second,
    without sleeping: the slot ends up locked by the caller (by nobody,
    should the new directory be removed before the pid is written). *)
Theorem acquire_lock_reclaims_stale
    (env : Worker.Env) (me p : Z) (fuel : nat) (s : Slot) :
  lock s = LockPid p →
  Worker.alive env 0 p = false →
  Worker.interfere env 0 (LockPid p) = LockPid p →
  Worker.interfere env 1 NoLock = NoLock →
  (2 ≤ fuel)%nat →
  Worker.acquire_lock env me fuel s =
    Some (true,
          set_lock (Worker.pid_written me (Worker.intrude env 1 LockNoPid)) s,
          [Worker.Mkdir_lock false; Worker.Rm_rf_lock; Worker.Mkdir_lock true;
           Worker.Overwrite Worker.Lock_pid (Worker.C_pid me)]).
Proof.
  intros Hs Hdead H0 H1 Hfuel.
  do 2 (destruct fuel as [|fuel]; [lia|]).
  unfold Worker.acquire_lock.
  rewrite acquire_loop_S, bool_decide_eq_true_2 by lia.
  rewrite (attempt_stale env me 0 5 1 s p) by (rewrite ?Hs; done).
  rewrite acquire_loop_S, bool_decide_eq_true_2 by lia.
  rewrite attempt_free by done.
  reflexivity.
Qed.

Lemma acquire_lock_reclaims_stale_witness :
  Worker.acquire_lock (Fixtures.all_dead Fixtures.agent_ok) 7 2
    (set_lock (LockPid 5) Fixtures.fresh) =
    Some (true, set_lock (LockPid 7) (set_lock (LockPid 5) Fixtures.fresh),
          [Worker.Mkdir_lock false; Worker.Rm_rf_lock; Worker.Mkdir_lock true;
           Worker.Overwrite Worker.Lock_pid (Worker.C_pid 7)]).
Proof.
  apply (acquire_lock_reclaims_stale
           (Fixtures.all_dead Fixtures.agent_ok) 7 5 2
           (set_lock (LockPid 5) Fixtures.fresh));
    [reflexivity | reflexivity | reflexivity | reflexivity | lia].
Defined.

(** C10, as the claim states it: an attempt that lowers [retries] met a
    live holder.  A marker without its pid file refutes it: the attempt
    sleeps and lowers [retries] from 5 to 4 although no holder was seen. *)
Lemma budget_spent_without_live_holder :
  ¬ (∀ env me n r w s r' w' s' t,
       Worker.attempt env me n r w s = Some (Worker.Continue r' w', s', t) →
       r' ≠ r →
       live_holder env n (Worker.interfere env n (lock s))).
Proof.
  intros H.
  destruct (H (Fixtures.quiet Fixtures.agent_ok) 7 0%nat 5 1
              (set_lock LockNoPid Fixtures.fresh) 4 2
              (set_lock LockNoPid Fixtures.fresh)
              [Worker.Mkdir_lock false; Worker.Sleep 1])
    as (p & Hp & _); [reflexivity | lia | discriminate].
Qed.

(** C10, amended. In the loop of [acquire_lock], (1) an attempt that finds
    a stale marker removes it and goes on without sleeping and with
    [retries] and [wait] unchanged; (2) an attempt lowers [retries] only
    after sleeping on a marker that is present and not stale (a live
    holder, or a marker without pid file); (3) when no attempt can find a
    stale marker, five rounds are enough for [acquire_lock] to return; and
    (4) when a stale marker is back before every attempt, [acquire_lock]
    never returns. *)
Theorem acquire_lock_budget (env : Worker.Env) (me : Z) :
  (∀ n r w s, stale env n (Worker.interfere env n (lock s)) →
     Worker.attempt env me n r w s =
       Some (Worker.Continue r w, set_lock NoLock s,
             [Worker.Mkdir_lock false; Worker.Rm_rf_lock])) ∧
  (∀ n r w s r' w' s' t,
     Worker.attempt env me n r w s = Some (Worker.Continue r' w', s', t) →
     r' ≠ r →
     r' = r - 1 ∧ Worker.delays t = [w] ∧
     (live_holder env n (Worker.interfere env n (lock s)) ∨
      Worker.interfere env n (lock s) = LockNoPid)) ∧
  ((∀ n m, ¬ stale env n (Worker.interfere env n m)) →
   ∀ s, ∃ ok s' t, Worker.acquire_lock env me 6 s = Some (ok, s', t) ∧
                   (length (Worker.delays t) ≤ 5)%nat) ∧
  (∀ agent fuel s,
     Worker.acquire_lock (Fixtures.respawn agent) me fuel s = None).
Proof.
  repeat split.
  - intros n r w s (p & Hm & Hp). by apply (attempt_stale env me n r w s p).
  - eapply attempt_consumes; eauto.
  - eapply attempt_consumes; eauto.
  - eapply attempt_consumes; eauto.
  - intros Hns s. apply (acquire_loop_terminates env me) with (k := 5%nat).
    intros n m p Hm. destruct (Worker.alive env n p) eqn:Hp; [done|].
    destruct (Hns n m). by exists p.
  - intros agent fuel s. apply acquire_loop_respawn.
Qed.

Lemma acquire_lock_budget_witness :
  ∃ ok s' t,
    Worker.acquire_lock (Fixtures.quiet Fixtures.agent_ok) 7 6
      (set_lock LockNoPid Fixtures.fresh) = Some (ok, s', t) ∧
    (length (Worker.delays t) ≤ 5)%nat.
Proof.
  apply (acquire_lock_budget (Fixtures.quiet Fixtures.agent_ok) 7).
  intros n m (p & _ & Hp). discriminate Hp.
Defined.

(** ** The worker: [process_task] *)

Section task_facts.
Import Worker.
Context (env : Env) (me : Z).

Lemma history_app f (t1 t2 : list Event) :
  history f (t1 ++ t2) = history f t1 ++ history f t2.
Proof. apply flat_map_app. Qed.

(** [acquire_lock] writes none of the three records. *)
Lemma attempt_history f n r w s x s1 t1 :
  f ≠ Lock_pid →
  attempt env me n r w s = Some (x, s1, t1) → history f t1 = [].
Proof.
  intros Hf. unfold attempt, others, intruders, mbind, Sh_bind, mkdir_lock.
  simpl.
  destruct (interfere env n (lock s)) as [| |p]; simpl;
    [| |destruct (alive env n p); simpl];
    intros [= <- <- <-]; simpl;
    rewrite ?bool_decide_eq_false_2 by congruence; reflexivity.
Qed.

Lemma acquire_loop_history f fuel : f ≠ Lock_pid → ∀ n r w s b s1 t1,
  acquire_loop env me fuel n r w s = Some (b, s1, t1) → history f t1 = [].
Proof.
  intros Hf.
  induction fuel as [|fuel IH]; intros n r w s b s1 t1; [discriminate|].
  rewrite acquire_loop_S. case_bool_decide.
  - destruct (attempt env me n r w s) as [[[[ok|r' w'] s2] t2]|] eqn:Ha;
      [| |discriminate].
    + intros [= <- <- <-]. rewrite app_nil_r. eapply attempt_history; eauto.
    + destruct (acquire_loop env me fuel (S n) r' w' s2)
        as [[[b' s3] t3]|] eqn:Hl; [|discriminate].
      intros [= <- <- <-]. rewrite history_app.
      erewrite attempt_history, IH; eauto.
  - intros [= <- <- <-]. reflexivity.
Qed.

(** The newline that [jq -r] adds goes with the trailing newlines of the
    prompt. *)
Lemma strip_newlines_snoc (out : string) :
  strip_newlines (out +:+ String newline EmptyString) = strip_newlines out.
Proof.
  induction out as [|c out IH]; [reflexivity|].
  change (String c out +:+ String newline EmptyString)
    with (String c (out +:+ String newline EmptyString)).
  cbn [strip_newlines]. by rewrite IH.
Qed.

Lemma drop_nul_snoc (out : string) :
  drop_nul (out +:+ String newline EmptyString)
  = drop_nul out +:+ String newline EmptyString.
Proof.
  induction out as [|c out IH]; [reflexivity|].
  change (String c out +:+ String newline EmptyString)
    with (String c (out +:+ String newline EmptyString)).
  cbn [drop_nul]. rewrite IH. by case_bool_decide.
Qed.

Lemma prompt_of_Some tk p :
  t_prompt tk = Some p → prompt_of tk = command_substitution p.
Proof.
  intros Hp. unfold prompt_of, command_substitution, jq_r. rewrite Hp.
  by rewrite drop_nul_snoc, strip_newlines_snoc.
Qed.

Lemma prompt_of_empty tk :
  default EmptyString (t_prompt tk) = EmptyString →
  prompt_of tk = EmptyString.
Proof.
  destruct (t_prompt tk) as [p|] eqn:Hp; simpl.
  - intros ->. by rewrite (prompt_of_Some tk EmptyString).
  - intros _. unfold prompt_of. by rewrite Hp.
Qed.

(** A prompt that begins with an ordinary character is not empty. *)
Lemma command_substitution_head c out :
  c ≠ nul → c ≠ newline →
  command_substitution (String c out) = String c (command_substitution out).
Proof.
  intros Hnul Hnl. unfold command_substitution. cbn [drop_nul].
  rewrite bool_decide_eq_false_2 by done. cbn [strip_newlines].
  by rewrite (bool_decide_eq_false_2 (c = newline)) by done.
Qed.

(** The whole run of [process_task] on a task with a prompt. *)
Lemma process_task_run fuel s s1 t1 tk p :
  acquire_lock env me fuel s = Some (true, s1, t1) →
  task s = Some tk → prompt_of tk = p → p ≠ EmptyString →
  process_task env me fuel s =
    Some (Ret0,
          mkSlot None (terminal_of env tk p) (Some (result_of env tk p)) NoLock,
          t1 ++
          [Overwrite Status_file (C_status (mkStatus working (t_id tk)));
           Mktemp Output_tmp; Mktemp Error_tmp; Cd_worktree; Run_agent p;
           Overwrite Result_file (C_result (result_of env tk p));
           Overwrite Status_file (C_status (terminal_of env tk p));
           Rm_f [Output_tmp; Error_tmp; Task_file];
           Rm_rf_lock]).
Proof.
  intros Hacq Htask Hp Hne.
  pose proof (acquire_loop_files _ _ _ _ _ _ _ _ _ _ Hacq) as (Ht & _ & _).
  unfold process_task, mbind, Sh_bind. rewrite Hacq. simpl.
  rewrite Ht, Htask. cbv beta iota zeta. rewrite Hp.
  rewrite bool_decide_eq_false_2 by done.
  unfold result_of, terminal_of. simpl.
  destruct (exit_ok (claude_code env p)); reflexivity.
Qed.

(** The whole run of [process_task] on a task without a prompt. *)
Lemma process_task_skip fuel s s1 t1 tk :
  acquire_lock env me fuel s = Some (true, s1, t1) →
  task s = Some tk → prompt_of tk = EmptyString →
  process_task env me fuel s =
    Some (Ret0, mkSlot None (status s) (result s) NoLock,
          t1 ++ [Rm_f [Task_file]; Rm_rf_lock]).
Proof.
  intros Hacq Htask Hp.
  pose proof (acquire_loop_files _ _ _ _ _ _ _ _ _ _ Hacq) as (Ht & Hst & Hr).
  unfold process_task, mbind, Sh_bind. rewrite Hacq. simpl.
  rewrite Ht, Htask. cbv beta iota zeta. rewrite Hp. simpl.
  unfold set_lock, set_task. simpl. rewrite Hst, Hr. reflexivity.
Qed.

End task_facts.

(** C7. Whenever [process_task] holds the lock and runs a task with a
    prompt, whether the agent succeeds or fails, what it does after taking
    the lock is exactly this, in this order: it writes the status
    [working], creates the two temporary files, changes directory and runs
    the agent; then it writes the result record, writes the terminal status
    ([done] after a success, [error] after a failure), removes the task
    record (with the two temporary files), and releases the lock, after
    which nothing more is done.  Taking the lock touches none of the three
    records. *)
Theorem process_task_terminal_order
    (env : Worker.Env) (me : Z) (fuel : nat) (s s1 : Slot)
    (t1 : list Worker.Event) (tk : TaskRec) (p : string) :
  Worker.acquire_lock env me fuel s = Some (true, s1, t1) →
  task s = Some tk → Worker.prompt_of tk = p → p ≠ EmptyString →
  Worker.process_task env me fuel s =
    Some (Worker.Ret0,
          mkSlot None (terminal_of env tk p) (Some (result_of env tk p)) NoLock,
          t1 ++
          [Worker.Overwrite Worker.Status_file
             (Worker.C_status (mkStatus working (t_id tk)));
           Worker.Mktemp Worker.Output_tmp; Worker.Mktemp Worker.Error_tmp;
           Worker.Cd_worktree; Worker.Run_agent p;
           Worker.Overwrite Worker.Result_file
             (Worker.C_result (result_of env tk p));
           Worker.Overwrite Worker.Status_file
             (Worker.C_status (terminal_of env tk p));
           Worker.Rm_f [Worker.Output_tmp; Worker.Error_tmp; Worker.Task_file];
           Worker.Rm_rf_lock]) ∧
  Worker.history Worker.Task_file t1 = [] ∧
  Worker.history Worker.Status_file t1 = [] ∧
  Worker.history Worker.Result_file t1 = [] ∧
  st_state (terminal_of env tk p) =
    (if r_success (result_of env tk p) then done else error).
Proof.
  intros Hacq Htask Hp Hne.
  split; [by eapply process_task_run|].
  split; [|split; [|split]].
  - exact (acquire_loop_history env me Worker.Task_file fuel ltac:(done)
             _ _ _ _ _ _ _ Hacq).
  - exact (acquire_loop_history env me Worker.Status_file fuel ltac:(done)
             _ _ _ _ _ _ _ Hacq).
  - exact (acquire_loop_history env me Worker.Result_file fuel ltac:(done)
             _ _ _ _ _ _ _ Hacq).
  - reflexivity.
Qed.

Lemma process_task_terminal_order_witness :
  let lock_taken :=
    [Worker.Mkdir_lock false; Worker.Rm_rf_lock; Worker.Mkdir_lock true;
     Worker.Overwrite Worker.Lock_pid (Worker.C_pid 7)] in
  Worker.process_task (Fixtures.all_dead Fixtures.agent_fails) 7 10
    Fixtures.contended =
    Some (Worker.Ret0,
          mkSlot None (mkStatus error (Some 3))
            (Some (mkResult (Some 3) "" false (Some "boom"))) NoLock,
          lock_taken ++
          [Worker.Overwrite Worker.Status_file
             (Worker.C_status (mkStatus working (Some 3)));
           Worker.Mktemp Worker.Output_tmp; Worker.Mktemp Worker.Error_tmp;
           Worker.Cd_worktree; Worker.Run_agent "hi";
           Worker.Overwrite Worker.Result_file
             (Worker.C_result (mkResult (Some 3) "" false (Some "boom")));
           Worker.Overwrite Worker.Status_file
             (Worker.C_status (mkStatus error (Some 3)));
           Worker.Rm_f [Worker.Output_tmp; Worker.Error_tmp; Worker.Task_file];
           Worker.Rm_rf_lock]) ∧
  Worker.history Worker.Task_file lock_taken = [] ∧
  Worker.history Worker.Status_file lock_taken = [] ∧
  Worker.history Worker.Result_file lock_taken = [] ∧
  error = error.
Proof.
  intros lock_taken.
  apply (process_task_terminal_order (Fixtures.all_dead Fixtures.agent_fails)
           7 10 Fixtures.contended
           (set_lock (LockPid 7) Fixtures.contended) lock_taken
           Fixtures.hi_task "hi");
    [reflexivity | reflexivity | reflexivity | discriminate].
Defined.

(** C9, as the claim states it: a task without prompt ends in a recorded
    failure (a result with [success] false, or the status [error]).  It
    does not: the run below leaves no result and the status [idle]. *)
Lemma malformed_task_leaves_no_record :
  ¬ (∀ env me fuel s tk rc s' t,
       task s = Some tk → t_prompt tk = None →
       Worker.process_task env me fuel s = Some (rc, s', t) →
       (∃ r, result s' = Some r ∧ r_success r = false) ∨
       st_state (status s') = error).
Proof.
  intros H.
  destruct (H (Fixtures.quiet Fixtures.agent_ok) 7 10%nat
              (set_task (Some (mkTask (Some 3) None [])) Fixtures.fresh)
              (mkTask (Some 3) None []) Worker.Ret0
              (mkSlot None (mkStatus idle None) None NoLock)
              [Worker.Mkdir_lock true; Worker.Overwrite Worker.Lock_pid (Worker.C_pid 7);
               Worker.Rm_f [Worker.Task_file]; Worker.Rm_rf_lock])
    as [(r & Hr & _)|Hst]; try reflexivity; discriminate.
Qed.

(** C9, amended. For a task record whose prompt is missing or empty, once
    the lock is held [process_task] removes the task record and releases
    the lock without running the agent; it writes neither result nor
    status, which stay as they were; it returns status 0, so that the main
    loop of the daemon goes on. *)
Theorem process_task_discards_malformed
    (env : Worker.Env) (me : Z) (fuel : nat) (s s1 : Slot)
    (t1 : list Worker.Event) (tk : TaskRec) :
  Worker.acquire_lock env me fuel s = Some (true, s1, t1) →
  task s = Some tk → default EmptyString (t_prompt tk) = EmptyString →
  let s' := mkSlot None (status s) (result s) NoLock in
  let t := t1 ++ [Worker.Rm_f [Worker.Task_file]; Worker.Rm_rf_lock] in
  Worker.process_task env me fuel s = Some (Worker.Ret0, s', t) ∧
  Worker.main_round env me fuel s = Some (Worker.Running, s', t) ∧
  Worker.history Worker.Status_file t = [] ∧
  Worker.history Worker.Result_file t = [].
Proof.
  intros Hacq Htask Hp s' t.
  assert (Worker.process_task env me fuel s = Some (Worker.Ret0, s', t)) as Hrun
    by (eapply process_task_skip; eauto using prompt_of_empty).
  split; [done|]. split.
  - unfold Worker.main_round, mbind, Worker.Sh_bind. simpl.
    rewrite Htask. simpl. rewrite Hrun. simpl. by rewrite app_nil_r.
  - unfold t. rewrite !history_app.
    rewrite (acquire_loop_history env me Worker.Status_file fuel ltac:(done)
               _ _ _ _ _ _ _ Hacq).
    by rewrite (acquire_loop_history env me Worker.Result_file fuel ltac:(done)
                  _ _ _ _ _ _ _ Hacq).
Qed.

Lemma process_task_discards_malformed_witness :
  Worker.main_round (Fixtures.quiet Fixtures.agent_ok) 7 10
    (set_task (Some (mkTask (Some 3) None [])) Fixtures.fresh) =
    Some (Worker.Running, mkSlot None (mkStatus idle None) None NoLock,
          [Worker.Mkdir_lock true; Worker.Overwrite Worker.Lock_pid (Worker.C_pid 7);
           Worker.Rm_f [Worker.Task_file]; Worker.Rm_rf_lock]).
Proof.
  apply (process_task_discards_malformed (Fixtures.quiet Fixtures.agent_ok) 7 10
           (set_task (Some (mkTask (Some 3) None [])) Fixtures.fresh)
           (set_lock (LockPid 7)
              (set_task (Some (mkTask (Some 3) None [])) Fixtures.fresh))
           [Worker.Mkdir_lock true; Worker.Overwrite Worker.Lock_pid (Worker.C_pid 7)]
           (mkTask (Some 3) None []));
    reflexivity.
Defined.

(** C4, as the claim states it: no reader ever finds a status or result
    record half-written.  The run of [process_task] on a task with prompt
    ["hi"] refutes it: [status.json] is found truncated. *)
Lemma record_found_truncated :
  ¬ (∀ env me fuel s rc s' t,
       Worker.process_task env me fuel s = Some (rc, s', t) →
       (Worker.Truncated ∉ Worker.history Worker.Status_file t) ∧
       (Worker.Truncated ∉ Worker.history Worker.Result_file t)).
Proof.
  intros H.
  destruct (H (Fixtures.quiet Fixtures.agent_ok) 7 10%nat
              (set_task (Some (mkTask (Some 3) (Some "hi") [])) Fixtures.fresh)
              _ _ _ eq_refl) as [Hst _].
  apply Hst. vm_compute. apply list_elem_of_here.
Qed.

(** C4, amended. Every write of a status or result record by the worker is
    a redirection onto the canonical path itself: the file is truncated
    and then written, with no temporary file and no rename, so that a
    concurrent reader can find it truncated.  During a run of
    [process_task] on a task with a prompt, [status.json] is truncated and
    written twice and [result.json] once; the status written at start-up
    goes the same way. *)
Theorem record_writes_in_place
    (env : Worker.Env) (me : Z) (fuel : nat) (s s1 : Slot)
    (t1 : list Worker.Event) (tk : TaskRec) (p : string) :
  Worker.acquire_lock env me fuel s = Some (true, s1, t1) →
  task s = Some tk → Worker.prompt_of tk = p → p ≠ EmptyString →
  (∃ s' t,
     Worker.process_task env me fuel s = Some (Worker.Ret0, s', t) ∧
     Worker.history Worker.Status_file t =
       [Worker.Truncated;
        Worker.Whole (Worker.C_status (mkStatus working (t_id tk)));
        Worker.Truncated;
        Worker.Whole (Worker.C_status (terminal_of env tk p))] ∧
     Worker.history Worker.Result_file t =
       [Worker.Truncated;
        Worker.Whole (Worker.C_result (result_of env tk p))]) ∧
  (∃ s' t,
     Worker.init_status s = Some (tt, s', t) ∧
     Worker.history Worker.Status_file t =
       [Worker.Truncated;
        Worker.Whole (Worker.C_status (mkStatus idle None))]).
Proof.
  intros Hacq Htask Hp Hne. split.
  - eexists _, _. split; [by eapply process_task_run|].
    rewrite !history_app.
    rewrite (acquire_loop_history env me Worker.Status_file fuel ltac:(done)
               _ _ _ _ _ _ _ Hacq).
    rewrite (acquire_loop_history env me Worker.Result_file fuel ltac:(done)
               _ _ _ _ _ _ _ Hacq).
    split; reflexivity.
  - eexists _, _. split; reflexivity.
Qed.

Lemma record_writes_in_place_witness :
  ∃ s' t,
    Worker.process_task (Fixtures.quiet Fixtures.agent_ok) 7 10
      (set_task (Some (mkTask (Some 3) (Some "hi") [])) Fixtures.fresh)
    = Some (Worker.Ret0, s', t) ∧
    Worker.history Worker.Status_file t =
      [Worker.Truncated;
       Worker.Whole (Worker.C_status (mkStatus working (Some 3)));
       Worker.Truncated;
       Worker.Whole (Worker.C_status (mkStatus done (Some 3)))] ∧
    Worker.history Worker.Result_file t =
      [Worker.Truncated;
       Worker.Whole (Worker.C_result (mkResult (Some 3) "ok" true None))].
Proof.
  apply (record_writes_in_place (Fixtures.quiet Fixtures.agent_ok) 7 10
           (set_task (Some (mkTask (Some 3) (Some "hi") [])) Fixtures.fresh)
           (set_lock (LockPid 7)
              (set_task (Some (mkTask (Some 3) (Some "hi") [])) Fixtures.fresh))
           [Worker.Mkdir_lock true;
            Worker.Overwrite Worker.Lock_pid (Worker.C_pid 7)]
           (mkTask (Some 3) (Some "hi") []) "hi");
    [reflexivity | reflexivity | reflexivity | discriminate].
Defined.

(** ** The orchestrator *)

Section js_facts.
Import Orchestrator.
Context (env : Env) (workers : list nat) (pollMs : Z).

Lemma bind_Returned {A B} (m : Js A) (k : A → Js B) w b w2 :
  (m ≫= k) w = Returned (b, w2) →
  ∃ a w1, m w = Returned (a, w1) ∧ k a w1 = Returned (b, w2).
Proof.
  unfold mbind, Js_bind. destruct (m w) as [[a w1]| |]; [eauto|done|done].
Qed.

Lemma keeps_log_ret {A} (a : A) : keeps_log (mret a).
Proof. by intros w a' w' [= _ <-]. Qed.

Lemma keeps_log_bind {A B} (m : Js A) (k : A → Js B) :
  keeps_log m → (∀ a, keeps_log (k a)) → keeps_log (m ≫= k).
Proof.
  intros Hm Hk w b w2 (a & w1 & H1 & H2)%bind_Returned.
  rewrite (Hk _ _ _ _ H2). eauto.
Qed.

Lemma keeps_log_throw {A} e : keeps_log (@throw A e).
Proof. by intros w a w'. Qed.

Lemma keeps_log_spent {A} : keeps_log (@spent A).
Proof. by intros w a w'. Qed.

Lemma keeps_log_suspend s : keeps_log (suspend env s).
Proof. by intros w a w' [= _ <-]. Qed.

Lemma keeps_log_Date_now : keeps_log Date_now.
Proof. by intros w a w' [= _ <-]. Qed.

Lemma keeps_log_readStatus i : keeps_log (readStatus i).
Proof. by intros w a w' [= _ <-]. Qed.

Lemma keeps_log_readResult i : keeps_log (readResult i).
Proof. by intros w a w' [= _ <-]. Qed.

Lemma keeps_log_clearResult i : keeps_log (clearResult i).
Proof. by intros w a w' [= _ <-]. Qed.

Lemma keeps_log_writeStatus i s : keeps_log (writeStatus i s).
Proof. by intros w a w' [= _ <-]. Qed.

Lemma keeps_log_findIdleWorker : keeps_log (findIdleWorker workers).
Proof. by intros w a w' [= _ <-]. Qed.

Lemma keeps_log_await {A} (m : Js A) : keeps_log m → keeps_log (await env m).
Proof.
  intros Hm. apply keeps_log_bind; [done|]. intros a.
  apply keeps_log_bind; [apply keeps_log_suspend|]. intros _.
  apply keeps_log_ret.
Qed.

Lemma keeps_log_waitForAvailableWorker fuel timeoutMs :
  keeps_log (waitForAvailableWorker env workers fuel timeoutMs).
Proof.
  apply keeps_log_bind; [apply keeps_log_Date_now|]. intros startTime.
  induction fuel as [|fuel IH]; simpl; [apply keeps_log_spent|].
  apply keeps_log_bind; [apply keeps_log_Date_now|]. intros now.
  case_bool_decide; [|apply keeps_log_throw].
  apply keeps_log_bind;
    [apply keeps_log_await, keeps_log_findIdleWorker|].
  intros [i|]; [apply keeps_log_ret|].
  apply keeps_log_bind; [apply keeps_log_suspend|]. by intros _.
Qed.

Lemma keeps_log_waitForCompletion fuel i timeoutMs :
  keeps_log (waitForCompletion env pollMs fuel i timeoutMs).
Proof.
  apply keeps_log_bind; [|intros st; apply keeps_log_ret].
  apply keeps_log_await.
  apply keeps_log_bind; [apply keeps_log_Date_now|]. intros startTime.
  induction fuel as [|fuel IH]; simpl; [apply keeps_log_spent|].
  apply keeps_log_bind; [apply keeps_log_readStatus|]. intros st.
  case_bool_decide; [apply keeps_log_ret|].
  apply keeps_log_bind; [apply keeps_log_Date_now|]. intros now.
  case_bool_decide; [|apply keeps_log_throw].
  apply keeps_log_bind; [apply keeps_log_suspend|]. by intros _.
Qed.

(** [assignTask] adds the record it writes, and nothing else. *)
Lemma assignTask_log i p c w id w' :
  assignTask i p c w = Returned (id, w') →
  ∃ q, p = Some q ∧
       dispatched w' = dispatched w ++ [(i, mkTask (Some id) (Some q) c)].
Proof.
  destruct p as [q|]; [|done]. simpl.
  intros (a & w1 & [= _ <-] & [= <- <-])%bind_Returned. by exists q.
Qed.


End js_facts.

Section sequential_facts.
Import Orchestrator.
Context (env : Env) (workers : list nat) (pollMs : Z).

Lemma should_stop_world task r w b w' :
  should_stop task r w = Returned (b, w') → w' = w.
Proof.
  unfold should_stop. destruct (stopOnError task); [destruct r|];
    by intros [= _ <-].
Qed.

(** One unfolding of the [for] loop. *)
Lemma executeSequential_loop_cons fuel task rest results w :
  executeSequential_loop env workers pollMs fuel (task :: rest) results w =
    match sequential_round env workers pollMs fuel task w with
    | Returned (o, w1) =>
        match should_stop task (o_result o) w1 with
        | Returned (true, _) => Returned (results ++ [o], w1)
        | Returned (false, _) =>
            executeSequential_loop env workers pollMs fuel rest (results ++ [o]) w1
        | Thrown e => Thrown e
        | OutOfFuel => OutOfFuel
        end
    | Thrown e => Thrown e
    | OutOfFuel => OutOfFuel
    end.
Proof.
  simpl. unfold mbind, Js_bind.
  destruct (sequential_round env workers pollMs fuel task w)
    as [[o w1]| |]; [|done|done].
  destruct (should_stop task (o_result o) w1) as [[b w2]| |] eqn:Hs;
    [|done|done].
  apply should_stop_world in Hs as ->. by destruct b.
Qed.



End sequential_facts.



Section parallel_facts.
Import Orchestrator.
Context (env : Env) (workers : list nat).

Lemma no_timeout_total {A} (f : World → A * World) :
  no_timeout (λ w, Returned (f w)).
Proof. by intros w msg. Qed.

Lemma no_timeout_bind {A B} (m : Js A) (k : A → Js B) :
  no_timeout m → (∀ a, no_timeout (k a)) → no_timeout (m ≫= k).
Proof.
  intros Hm Hk w msg. unfold mbind, Js_bind.
  destruct (m w) as [[a w1]|e|] eqn:Hw; [apply Hk| |done].
  intros [= ->]. by apply (Hm w msg).
Qed.

Lemma no_timeout_await {A} (m : Js A) : no_timeout m → no_timeout (await env m).
Proof.
  intros Hm. apply no_timeout_bind; [done|]. intros a.
  apply no_timeout_bind; [apply no_timeout_total|]. intros _.
  apply no_timeout_total.
Qed.

Lemma no_timeout_assignTask i p c : no_timeout (assignTask i p c).
Proof.
  destruct p as [p|]; [|by intros w msg].
  apply no_timeout_bind; [apply no_timeout_total|]. intros _.
  apply no_timeout_total.
Qed.

Lemma no_timeout_assign_loop taskQueue : ∀ activeWorkers,
  no_timeout (assign_loop env workers taskQueue activeWorkers).
Proof.
  induction taskQueue as [|task rest IH]; intros activeWorkers; simpl;
    [apply no_timeout_total|].
  apply no_timeout_bind; [apply no_timeout_await, no_timeout_total|].
  intros [i|]; [|apply no_timeout_total].
  apply no_timeout_bind; [apply no_timeout_await, no_timeout_assignTask|].
  intros taskId. apply IH.
Qed.

Lemma no_timeout_collect_loop keys : ∀ activeWorkers results,
  no_timeout (collect_loop keys activeWorkers results).
Proof.
  induction keys as [|k keys IH]; intros activeWorkers results; simpl;
    [apply no_timeout_total|].
  apply no_timeout_bind; [apply no_timeout_total|]. intros st.
  destruct (_ || _); [|apply IH].
  apply no_timeout_bind; [apply no_timeout_total|]. intros r.
  destruct (map_get k activeWorkers) as [[taskId originalTask]|];
    [|by intros w msg].
  apply no_timeout_bind; [apply no_timeout_total|]. intros _. apply IH.
Qed.

Lemma no_timeout_executeTasks_loop fuel : ∀ taskQueue activeWorkers results,
  no_timeout (executeTasks_loop env workers fuel taskQueue activeWorkers results).
Proof.
  induction fuel as [|fuel IH]; intros taskQueue activeWorkers results; simpl;
    [by intros w msg|].
  destruct (_ || _); [|apply no_timeout_total].
  apply no_timeout_bind; [apply no_timeout_assign_loop|].
  intros [taskQueue' activeWorkers'].
  case_bool_decide; [|apply IH].
  apply no_timeout_bind; [apply no_timeout_collect_loop|].
  intros [activeWorkers'' results'].
  apply no_timeout_bind; [apply no_timeout_total|]. intros _. apply IH.
Qed.

(** **** Each task yields at most one outcome *)

Lemma map_set_length k v (m : Active) :
  (length (map_set k v m) ≤ S (length m))%nat.
Proof.
  induction m as [|[k' v'] m IH]; simpl; [lia|].
  case_bool_decide; simpl; lia.
Qed.

Lemma map_delete_length k (m : Active) v :
  map_get k m = Some v → (S (length (map_delete k m)) ≤ length m)%nat.
Proof.
  unfold map_get, map_delete.
  induction m as [|[k' v'] m IH]; simpl; [done|].
  case_bool_decide; simpl.
  - intros _. pose proof (filter_length_le
      (λ kv : nat * (Z * Task), negb (bool_decide (kv.1 = k))) m). lia.
  - intros H'%IH. lia.
Qed.

Lemma assign_loop_length taskQueue : ∀ activeWorkers w q a w',
  assign_loop env workers taskQueue activeWorkers w = Returned ((q, a), w') →
  (length q + length a ≤ length taskQueue + length activeWorkers)%nat.
Proof.
  induction taskQueue as [|task rest IH]; intros activeWorkers w q a w'; simpl.
  - intros [= <- <- _]. simpl. lia.
  - intros (i & w1 & _ & H)%bind_Returned. destruct i as [i|].
    + apply bind_Returned in H as (taskId & w2 & _ & H'%IH).
      pose proof (map_set_length i (taskId, task) activeWorkers). lia.
    + injection H as <- <- _. simpl. lia.
Qed.

Lemma collect_loop_length keys : ∀ activeWorkers results w a r w',
  collect_loop keys activeWorkers results w = Returned ((a, r), w') →
  (length a + length r ≤ length activeWorkers + length results)%nat.
Proof.
  induction keys as [|k keys IH]; intros activeWorkers results w a r w'; simpl.
  - intros [= <- <- _]. lia.
  - intros (st & w1 & _ & H)%bind_Returned.
    destruct (_ || _); [|by apply IH in H].
    apply bind_Returned in H as (res & w2 & _ & H).
    destruct (map_get k activeWorkers) as [[taskId originalTask]|] eqn:Hk;
      [|done].
    apply bind_Returned in H as ([] & w3 & _ & H'%IH).
    apply map_delete_length in Hk. rewrite length_app in H'. simpl in H'. lia.
Qed.

Lemma executeTasks_loop_length fuel : ∀ taskQueue activeWorkers results w out w',
  executeTasks_loop env workers fuel taskQueue activeWorkers results w
    = Returned (out, w') →
  (length out ≤ length taskQueue + length activeWorkers + length results)%nat.
Proof.
  induction fuel as [|fuel IH];
    intros taskQueue activeWorkers results w out w'; simpl; [done|].
  destruct (_ || _); [|intros [= <- _]; lia].
  intros ([q a] & w1 & Ha%assign_loop_length & H)%bind_Returned.
  case_bool_decide; [|apply IH in H; lia].
  apply bind_Returned in H as ([a' r'] & w2 & Hc%collect_loop_length & H2).
  apply bind_Returned in H2 as ([] & w3 & _ & H'%IH). lia.
Qed.

(** When [executeTasks] returns, it returns at most one outcome per task. *)
Lemma executeTasks_length_le fuel tasks w out w' :
  executeTasks env workers fuel tasks w = Returned (out, w') →
  (length out ≤ length tasks)%nat.
Proof. intros H%executeTasks_loop_length. simpl in H. lia. Qed.

End parallel_facts.

(** [waitForAvailableWorker], which [executeSequential] calls, does have
    the timeout: when the worker processes never act and no worker is
    [idle] or [done], it throws once [timeoutMs] has passed. *)
Lemma waitForAvailableWorker_loop_times_out workers st
    (Hnone : ∀ w, Orchestrator.store w = st →
                  List.find (Orchestrator.available w) workers = None) :
  ∀ (fuel : nat) (startTime timeoutMs c : Z) (k : nat) (id : Z) log,
    (0 < fuel)%nat →
    timeoutMs - (c - startTime) ≤ 1000 * (Z.of_nat fuel - 1) →
    Orchestrator.waitForAvailableWorker_loop Fixtures.no_daemons workers fuel
      startTime timeoutMs (Orchestrator.mkWorld st c k id log)
    = Orchestrator.Thrown
        (Orchestrator.Timeout "Timeout waiting for available worker").
Proof.
  induction fuel as [|fuel IH]; intros startTime timeoutMs c k id log Hpos Hfuel;
    [lia|].
  simpl. unfold mbind, Orchestrator.Js_bind. simpl.
  case_bool_decide; [|done].
  rewrite Hnone by reflexivity. apply IH; simpl; lia.
Qed.

(** On the input at which [executeTasks] goes round for ever, the
    sequential pipeline gives up after 300 seconds. *)
Lemma executeSequential_times_out pollMs fuel :
  (301 ≤ fuel)%nat →
  Orchestrator.executeSequential Fixtures.no_daemons [0%nat] pollMs fuel
    [Fixtures.job "A" false] (Fixtures.start [Fixtures.busy])
  = Orchestrator.Thrown
      (Orchestrator.Timeout "Timeout waiting for available worker").
Proof.
  intros Hfuel.
  assert (∀ A B (m : Orchestrator.Js A) (k : A → Orchestrator.Js B) w e,
            m w = Orchestrator.Thrown e → (m ≫= k) w = Orchestrator.Thrown e)
    as bind_Thrown.
  { intros A B m k w e Hm. unfold mbind, Orchestrator.Js_bind. by rewrite Hm. }
  unfold Orchestrator.executeSequential. simpl.
  do 3 apply bind_Thrown.
  unfold mbind, Orchestrator.Js_bind. simpl.
  apply (waitForAvailableWorker_loop_times_out [0%nat] [Fixtures.busy]);
    [|lia|simpl; lia].
  intros w Hw. unfold Orchestrator.available. simpl. by rewrite Hw.
Qed.

(** C1, at the input where the code departs from it: two workers, both
    idle, and the tasks A and B.  Worker 0 is still [idle] when the inner
    loop looks for an idle worker the second time, so B goes to worker 0
    as well and replaces A in its slot and in the table of active workers.
    [executeTasks] returns one outcome, that of B, for two tasks. *)
Theorem executeTasks_drops_overwritten_task :
  ∃ o w',
    Orchestrator.executeTasks (Fixtures.daemons Fixtures.agent_ok) [0; 1]%nat 10
      [Fixtures.job "A" false; Fixtures.job "B" false]
      (Fixtures.start [Fixtures.fresh; Fixtures.fresh])
    = Orchestrator.Returned ([o], w') ∧
    Orchestrator.o_task o = Fixtures.job "B" false ∧
    Orchestrator.dispatched w' =
      [(0%nat, mkTask (Some 1) (Some "A") []);
       (0%nat, mkTask (Some 2) (Some "B") [])].
Proof.
  exists (Orchestrator.mkOutcome 0 2 (Fixtures.job "B" false)
            (Some (mkResult (Some 2) "ok" true None)) done).
  exists (Orchestrator.mkWorld
            [mkSlot None (mkStatus idle None)
               (Some (mkResult (Some 2) "ok" true None)) NoLock;
             Fixtures.fresh]
            1000 6 3
            [(0%nat, mkTask (Some 1) (Some "A") []);
             (0%nat, mkTask (Some 2) (Some "B") [])]).
  split; [vm_compute; reflexivity|]. split; reflexivity.
Qed.

(** C2, at the input where the code departs from it.  No path of
    [executeTasks] throws a timeout, whatever the workers do; with one
    worker whose status stays [working] and one task, the outer loop goes
    round for ever, neither returning nor throwing. *)
Theorem executeTasks_never_times_out :
  (∀ env workers fuel tasks w msg,
     Orchestrator.executeTasks env workers fuel tasks w
     ≠ Orchestrator.Thrown (Orchestrator.Timeout msg)) ∧
  (∀ fuel,
     Orchestrator.executeTasks Fixtures.no_daemons [0%nat] fuel
       [Fixtures.job "A" false] (Fixtures.start [Fixtures.busy])
     = Orchestrator.OutOfFuel).
Proof.
  split.
  - intros env workers fuel tasks w msg.
    apply (no_timeout_executeTasks_loop env workers fuel tasks [] [] w msg).
  - intros fuel. unfold Orchestrator.executeTasks, Fixtures.start.
    assert (∀ k : nat,
              Orchestrator.executeTasks_loop Fixtures.no_daemons [0%nat] fuel
                [Fixtures.job "A" false] [] []
                (Orchestrator.mkWorld [Fixtures.busy] 0 k 1 [])
              = Orchestrator.OutOfFuel) as Hloop; [|apply Hloop].
    induction fuel as [|fuel IH]; intros k; [reflexivity|].
    simpl. unfold mbind, Orchestrator.Js_bind. simpl. apply IH.
Qed.

(** ** More on the worker *)

Section worker_more.
Import Worker.
Context (env : Env) (me : Z).

Lemma agent_runs_app (t1 t2 : list Event) :
  agent_runs (t1 ++ t2) = agent_runs t1 ++ agent_runs t2.
Proof. apply omap_app. Qed.

(** The three ways an attempt can end. *)
Lemma attempt_cases n r w s x s1 t1 :
  attempt env me n r w s = Some (x, s1, t1) →
  Forall lock_event t1 ∧
  ((x = Return true ∧ delays t1 = []) ∨
   (x = Continue r w ∧ delays t1 = []) ∨
   (x = Continue (r - 1) (w * 2) ∧ delays t1 = [w])).
Proof.
  destruct (interfere env n (lock s)) as [| |p] eqn:Hm.
  - rewrite attempt_free by done. intros [= <- <- <-].
    split; [repeat constructor|auto].
  - rewrite attempt_nopid by done. intros [= <- <- <-].
    split; [repeat constructor|auto].
  - destruct (alive env n p) eqn:Hp.
    + rewrite (attempt_live _ _ n r w s p) by done. intros [= <- <- <-].
      split; [repeat constructor|auto].
    + rewrite (attempt_stale _ _ n r w s p) by done. intros [= <- <- <-].
      split; [repeat constructor|auto].
Qed.

(** Whatever the other processes do, a run of the loop that returns has
    slept an initial part of the back-off sequence, and the whole of it
    when it returns failure. *)
Lemma acquire_loop_envelope fuel : ∀ (k n : nat) (w : Z) s ok s' t,
  acquire_loop env me fuel n (Z.of_nat k) w s = Some (ok, s', t) →
  Forall lock_event t ∧
  delays t `prefix_of` backoff k w ∧
  (ok = false → delays t = backoff k w).
Proof.
  induction fuel as [|fuel IH]; intros k n w s ok s' t; [discriminate|].
  rewrite acquire_loop_S. case_bool_decide as Hr.
  - destruct (attempt env me n (Z.of_nat k) w s)
      as [[[[b|r' w'] s1] t1]|] eqn:Ha; [| |discriminate].
    + intros [= <- <- <-].
      apply attempt_cases in Ha as [Hev [[Hb Hd]|[[? ?]|[? ?]]]]; try done.
      injection Hb as ->.
      rewrite app_nil_r, Hd. split; [done|]. split; [apply prefix_nil|done].
    + destruct (acquire_loop env me fuel (S n) r' w' s1)
        as [[[b s2] t2]|] eqn:Hl; [|discriminate].
      intros [= <- <- <-]. rewrite delays_app.
      apply attempt_cases in Ha as [Hev [[? ?]|[[Hc Hd]|[Hc Hd]]]];
        try done; injection Hc as -> ->.
      * apply IH in Hl as (Hev2 & Hpre & Hfail).
        rewrite Hd. split; [by apply Forall_app|]. done.
      * destruct k as [|k]; [lia|].
        replace (Z.of_nat (S k) - 1) with (Z.of_nat k) in Hl by lia.
        apply IH in Hl as (Hev2 & Hpre & Hfail).
        rewrite Hd. split; [by apply Forall_app|]. simpl.
        split; [by apply prefix_cons|]. intros Hok. by rewrite Hfail.
  - intros [= <- <- <-]. destruct k as [|k]; [|lia].
    split; [constructor|]. split; [apply prefix_nil|done].
Qed.

Lemma lock_events_no_agent (t : list Event) :
  Forall lock_event t → agent_runs t = [].
Proof.
  induction 1 as [|e t He _ IH]; [done|].
  destruct e as [| [] | | | | | |]; simpl in *; done.
Qed.

(** The ways [process_task] can end. *)
Lemma process_task_cases fuel s rc s' t :
  process_task env me fuel s = Some (rc, s', t) →
  (rc = Ret1 ∧ same_files s s' ∧ delays t = [1; 2; 4; 8; 16] ∧
   agent_runs t = [] ∧
   history Status_file t = [] ∧ history Result_file t = []) ∨
  (rc = Ret0 ∧ agent_runs t = [] ∧
   s' = mkSlot None (status s) (result s) NoLock ∧
   history Status_file t = [] ∧ history Result_file t = [] ∧
   (task s = None ∨
    ∃ tk, task s = Some tk ∧ prompt_of tk = EmptyString)) ∨
  (rc = Ret0 ∧
   ∃ tk p, task s = Some tk ∧ prompt_of tk = p ∧ p ≠ EmptyString ∧
           agent_runs t = [p] ∧
           s' = mkSlot None (terminal_of env tk p) (Some (result_of env tk p))
                  NoLock).
Proof.
  intros H.
  assert (∃ ok s1 t1, acquire_lock env me fuel s = Some (ok, s1, t1))
    as (ok & s1 & t1 & Hacq).
  { revert H. unfold process_task, mbind, Sh_bind.
    destruct (acquire_lock env me fuel s) as [[[ok s1] t1]|]; [eauto|done]. }
  pose proof (acquire_loop_files _ _ _ _ _ _ _ _ _ _ Hacq) as (Ht & Hst & Hr).
  pose proof (acquire_loop_envelope fuel 5 0 1 s ok s1 t1 Hacq)
    as (Hev & Hpre & Hfail).
  pose proof (lock_events_no_agent _ Hev) as Hno.
  destruct ok.
  - destruct (task s) as [tk|] eqn:Htask.
    + destruct (decide (prompt_of tk = EmptyString)) as [Hp|Hp].
      * right; left.
        rewrite (process_task_skip env me fuel s s1 t1 tk Hacq Htask Hp) in H.
        injection H as <- <- <-.
        rewrite agent_runs_app, !history_app, Hno.
        rewrite (acquire_loop_history env me Status_file fuel ltac:(done)
                   _ _ _ _ _ _ _ Hacq).
        rewrite (acquire_loop_history env me Result_file fuel ltac:(done)
                   _ _ _ _ _ _ _ Hacq).
        repeat split; try done. right. by exists tk.
      * right; right.
        rewrite (process_task_run env me fuel s s1 t1 tk (prompt_of tk)
                   Hacq Htask eq_refl Hp) in H.
        injection H as <- <- <-. split; [done|].
        exists tk, (prompt_of tk). repeat split; try done.
        by rewrite agent_runs_app, Hno.
    + right; left. revert H.
      unfold process_task, mbind, Sh_bind. rewrite Hacq. simpl.
      rewrite Ht. simpl.
      intros [= <- <- <-].
      rewrite agent_runs_app, !history_app, Hno.
      rewrite (acquire_loop_history env me Status_file fuel ltac:(done)
                 _ _ _ _ _ _ _ Hacq).
      rewrite (acquire_loop_history env me Result_file fuel ltac:(done)
                 _ _ _ _ _ _ _ Hacq).
      unfold set_lock. simpl. rewrite ?Ht, ?Hst, ?Hr.
      repeat split; try done. by left.
  - left. revert H. unfold process_task, mbind, Sh_bind. rewrite Hacq. simpl.
    intros [= <- <- <-]. rewrite app_nil_r.
    rewrite (acquire_loop_history env me Status_file fuel ltac:(done)
               _ _ _ _ _ _ _ Hacq).
    rewrite (acquire_loop_history env me Result_file fuel ltac:(done)
               _ _ _ _ _ _ _ Hacq).
    repeat split; try done. by apply Hfail.
Qed.

End worker_more.

(** X1. Whatever other processes do to the lock directory, a call of
    [acquire_lock] that returns has slept an initial part of 1, 2, 4, 8,
    16 seconds, and the whole of it when it returns failure.  When it
    returns success, the marker holds the caller's pid, or there is no
    marker at all: the latter only when the directory was removed between
    the [mkdir] and the write of the pid file.  In every case it has run
    only [mkdir], the write of the pid file, [rm -rf] of the lock and
    [sleep], and [task.json], [status.json] and [result.json] are as they
    were. *)
Theorem acquire_lock_envelope
    (env : Worker.Env) (me : Z) (fuel : nat) (s s' : Slot) (ok : bool)
    (t : list Worker.Event) :
  Worker.acquire_lock env me fuel s = Some (ok, s', t) →
  Worker.delays t `prefix_of` [1; 2; 4; 8; 16] ∧
  (ok = false → Worker.delays t = [1; 2; 4; 8; 16]) ∧
  (ok = true → lock s' = LockPid me ∨ lock s' = NoLock) ∧
  (ok = true → (∀ n, Worker.intrude env n LockNoPid ≠ NoLock) →
   lock s' = LockPid me) ∧
  same_files s s' ∧ Forall lock_event t.
Proof.
  intros Hacq.
  pose proof (acquire_loop_envelope env me fuel 5 0 1 s ok s' t Hacq)
    as (Hev & Hpre & Hfail).
  split; [exact Hpre|]. split; [exact Hfail|]. split; [|split].
  - intros ->. apply acquire_loop_holds in Hacq as [k ->].
    destruct (Worker.intrude env k LockNoPid); simpl; auto.
  - intros -> Hstay. apply acquire_loop_holds in Hacq as [k ->].
    specialize (Hstay k). by destruct (Worker.intrude env k LockNoPid).
  - split; [eapply acquire_loop_files, Hacq | exact Hev].
Qed.

Lemma acquire_lock_envelope_witness :
  let s' := set_lock (LockPid 7) Fixtures.waiting in
  let t := [Worker.Mkdir_lock false; Worker.Sleep 1; Worker.Mkdir_lock false;
            Worker.Sleep 2; Worker.Mkdir_lock true;
            Worker.Overwrite Worker.Lock_pid (Worker.C_pid 7)] in
  Worker.delays t `prefix_of` [1; 2; 4; 8; 16] ∧
  (true = false → Worker.delays t = [1; 2; 4; 8; 16]) ∧
  (true = true → lock s' = LockPid 7 ∨ lock s' = NoLock) ∧
  (true = true →
   (∀ n, Worker.intrude (Fixtures.released_late Fixtures.agent_ok) n LockNoPid
         ≠ NoLock) →
   lock s' = LockPid 7) ∧
  same_files Fixtures.waiting s' ∧ Forall lock_event t.
Proof.
  intros s' t.
  apply (acquire_lock_envelope (Fixtures.released_late Fixtures.agent_ok) 7 9
           Fixtures.waiting s' true t).
  reflexivity.
Defined.

(** X2. When the lock directory is absent at the first attempt,
    [acquire_lock] succeeds at once, without sleeping, and [release_lock]
    after it leaves the slot without lock and otherwise as it was; a
    second [release_lock] changes nothing. *)
Theorem acquire_release_round_trip
    (env : Worker.Env) (me : Z) (fuel : nat) (s : Slot) :
  Worker.interfere env 0 (lock s) = NoLock → (1 ≤ fuel)%nat →
  (Worker.acquire_lock env me fuel ;; Worker.release_lock) s =
    Some (tt, set_lock NoLock s,
          [Worker.Mkdir_lock true;
           Worker.Overwrite Worker.Lock_pid (Worker.C_pid me);
           Worker.Rm_rf_lock]) ∧
  Worker.release_lock (set_lock NoLock s) =
    Some (tt, set_lock NoLock s, [Worker.Rm_rf_lock]) ∧
  (lock s = NoLock → set_lock NoLock s = s).
Proof.
  intros Hfree Hfuel. destruct fuel as [|fuel]; [lia|].
  split; [|split].
  - unfold mbind, Worker.Sh_bind, Worker.acquire_lock.
    rewrite acquire_loop_S, bool_decide_eq_true_2 by lia.
    by rewrite attempt_free.
  - reflexivity.
  - intros <-. apply set_lock_same.
Qed.

Lemma acquire_release_round_trip_witness :
  (Worker.acquire_lock (Fixtures.quiet Fixtures.agent_ok) 7 1 ;;
   Worker.release_lock) Fixtures.fresh =
    Some (tt, Fixtures.fresh,
          [Worker.Mkdir_lock true;
           Worker.Overwrite Worker.Lock_pid (Worker.C_pid 7);
           Worker.Rm_rf_lock]).
Proof.
  apply (acquire_release_round_trip (Fixtures.quiet Fixtures.agent_ok) 7 1
           Fixtures.fresh); [reflexivity | lia].
Defined.

(** X27. When the lock directory is absent at the first attempt and
    another process removes the new directory before the pid is written
    (the exit trap of another daemon does so), [acquire_lock] returns
    success all the same, without a second attempt: the caller goes on
    although no marker exists. *)
Theorem acquire_lock_succeeds_without_marker
    (env : Worker.Env) (me : Z) (fuel : nat) (s : Slot) :
  Worker.interfere env 0 (lock s) = NoLock →
  Worker.intrude env 0 LockNoPid = NoLock → (1 ≤ fuel)%nat →
  Worker.acquire_lock env me fuel s =
    Some (true, set_lock NoLock s,
          [Worker.Mkdir_lock true;
           Worker.Overwrite Worker.Lock_pid (Worker.C_pid me)]).
Proof.
  intros Hfree Hgone Hfuel. destruct fuel as [|fuel]; [lia|].
  unfold Worker.acquire_lock.
  rewrite acquire_loop_S, bool_decide_eq_true_2 by lia.
  rewrite attempt_free by done. by rewrite Hgone.
Qed.

Lemma acquire_lock_succeeds_without_marker_witness :
  Worker.acquire_lock (Fixtures.trap_fires Fixtures.agent_ok) 7 1
    Fixtures.waiting =
    Some (true, Fixtures.waiting,
          [Worker.Mkdir_lock true;
           Worker.Overwrite Worker.Lock_pid (Worker.C_pid 7)]).
Proof.
  apply (acquire_lock_succeeds_without_marker
           (Fixtures.trap_fires Fixtures.agent_ok) 7 1 Fixtures.waiting);
    [reflexivity | reflexivity | lia].
Defined.

(** X3. [process_task] returns 1 only when the lock could not be taken
    after the whole back-off of 1, 2, 4, 8 and 16 seconds; it has then
    neither run the agent nor written a status or a result, and the task,
    status and result files are as they were. *)
Theorem process_task_fails_only_on_lock
    (env : Worker.Env) (me : Z) (fuel : nat) (s s' : Slot)
    (t : list Worker.Event) :
  Worker.process_task env me fuel s = Some (Worker.Ret1, s', t) →
  Worker.delays t = [1; 2; 4; 8; 16] ∧ agent_runs t = [] ∧
  same_files s s' ∧
  Worker.history Worker.Status_file t = [] ∧
  Worker.history Worker.Result_file t = [].
Proof.
  intros [H|[H|H]]%process_task_cases.
  - by destruct H as (_ & ? & ? & ? & ? & ?).
  - by destruct H as ([=] & _).
  - by destruct H as ([=] & _).
Qed.

Lemma process_task_fails_only_on_lock_witness :
  Worker.process_task (Fixtures.quiet Fixtures.agent_ok) 7 9 Fixtures.contended
    = Some (Worker.Ret1, Fixtures.contended, Fixtures.full_backoff) ∧
  Worker.delays Fixtures.full_backoff = [1; 2; 4; 8; 16] ∧
  agent_runs Fixtures.full_backoff = [] ∧
  same_files Fixtures.contended Fixtures.contended ∧
  Worker.history Worker.Status_file Fixtures.full_backoff = [] ∧
  Worker.history Worker.Result_file Fixtures.full_backoff = [].
Proof.
  split; [reflexivity|].
  apply (process_task_fails_only_on_lock (Fixtures.quiet Fixtures.agent_ok)
           7 9 Fixtures.contended Fixtures.contended Fixtures.full_backoff).
  reflexivity.
Defined.

(** X4. Whenever [process_task] returns 0, the lock directory and
    [task.json] are gone, whichever branch it took. *)
Theorem process_task_success_cleans_up
    (env : Worker.Env) (me : Z) (fuel : nat) (s s' : Slot)
    (t : list Worker.Event) :
  Worker.process_task env me fuel s = Some (Worker.Ret0, s', t) →
  lock s' = NoLock ∧ task s' = None.
Proof.
  intros [H|[H|H]]%process_task_cases.
  - by destruct H as ([=] & _).
  - by destruct H as (_ & _ & -> & _).
  - by destruct H as (_ & tk & p & _ & _ & _ & _ & ->).
Qed.

Lemma process_task_success_cleans_up_witness :
  Worker.process_task (Fixtures.all_dead Fixtures.agent_ok) 7 9
    Fixtures.contended
    = Some (Worker.Ret0,
            mkSlot None (mkStatus done (Some 3))
              (Some (mkResult (Some 3) "ok" true None)) NoLock,
            [Worker.Mkdir_lock false; Worker.Rm_rf_lock; Worker.Mkdir_lock true;
             Worker.Overwrite Worker.Lock_pid (Worker.C_pid 7);
             Worker.Overwrite Worker.Status_file
               (Worker.C_status (mkStatus working (Some 3)));
             Worker.Mktemp Worker.Output_tmp; Worker.Mktemp Worker.Error_tmp;
             Worker.Cd_worktree; Worker.Run_agent "hi";
             Worker.Overwrite Worker.Result_file
               (Worker.C_result (mkResult (Some 3) "ok" true None));
             Worker.Overwrite Worker.Status_file
               (Worker.C_status (mkStatus done (Some 3)));
             Worker.Rm_f [Worker.Output_tmp; Worker.Error_tmp; Worker.Task_file];
             Worker.Rm_rf_lock]) ∧
  lock (mkSlot None (mkStatus done (Some 3))
          (Some (mkResult (Some 3) "ok" true None)) NoLock) = NoLock ∧
  task (mkSlot None (mkStatus done (Some 3))
          (Some (mkResult (Some 3) "ok" true None)) NoLock) = None.
Proof.
  split; [reflexivity|].
  eapply (process_task_success_cleans_up (Fixtures.all_dead Fixtures.agent_ok)
            7 9 Fixtures.contended).
  reflexivity.
Defined.

(** X5. A call of [process_task] runs the agent at most once, and only on
    the prompt of the task in [task.json] as the command substitution
    yields it (without trailing newlines), which is then not empty; when
    it has run the agent it returns 0 and leaves the slot with the result
    and the terminal status of that run, without task and without lock. *)
Theorem process_task_runs_agent_once
    (env : Worker.Env) (me : Z) (fuel : nat) (s s' : Slot)
    (rc : Worker.RetCode) (t : list Worker.Event) :
  Worker.process_task env me fuel s = Some (rc, s', t) →
  agent_runs t = [] ∨
  ∃ tk p, task s = Some tk ∧ Worker.prompt_of tk = p ∧ p ≠ EmptyString ∧
          agent_runs t = [p] ∧ rc = Worker.Ret0 ∧
          s' = mkSlot None (terminal_of env tk p) (Some (result_of env tk p))
                 NoLock.
Proof.
  intros [H|[H|H]]%process_task_cases.
  - left. by destruct H as (_ & _ & _ & ? & _).
  - left. by destruct H as (_ & ? & _).
  - right. destruct H as (-> & tk & p & ? & ? & ? & ? & ->).
    by exists tk, p.
Qed.

Lemma process_task_runs_agent_once_witness :
  let t := [Worker.Mkdir_lock true;
            Worker.Overwrite Worker.Lock_pid (Worker.C_pid 7);
            Worker.Overwrite Worker.Status_file
              (Worker.C_status (mkStatus working (Some 3)));
            Worker.Mktemp Worker.Output_tmp; Worker.Mktemp Worker.Error_tmp;
            Worker.Cd_worktree; Worker.Run_agent "hi";
            Worker.Overwrite Worker.Result_file
              (Worker.C_result (mkResult (Some 3) "ok" true None));
            Worker.Overwrite Worker.Status_file
              (Worker.C_status (mkStatus done (Some 3)));
            Worker.Rm_f [Worker.Output_tmp; Worker.Error_tmp; Worker.Task_file];
            Worker.Rm_rf_lock] in
  let s' := mkSlot None (mkStatus done (Some 3))
              (Some (mkResult (Some 3) "ok" true None)) NoLock in
  agent_runs t = [] ∨
  ∃ tk p,
    task Fixtures.waiting = Some tk ∧ Worker.prompt_of tk = p ∧
    p ≠ EmptyString ∧ agent_runs t = [p] ∧ Worker.Ret0 = Worker.Ret0 ∧
    s' = mkSlot None (terminal_of (Fixtures.quiet Fixtures.agent_ok) tk p)
           (Some (result_of (Fixtures.quiet Fixtures.agent_ok) tk p)) NoLock.
Proof.
  intros t s'.
  apply (process_task_runs_agent_once (Fixtures.quiet Fixtures.agent_ok) 7 9
           Fixtures.waiting s' Worker.Ret0 t).
  reflexivity.
Defined.

(** X6. When [process_task] has run the agent on prompt [p], the result
    record holds the captured stdout as [output] and the exit status as
    [success]; [error] is null exactly when stderr was empty, whatever the
    exit status; the status is [done] after a zero exit status and [error]
    otherwise; and result and status carry the id of the task. *)
Theorem process_task_records_agree
    (env : Worker.Env) (me : Z) (fuel : nat) (s s' : Slot)
    (rc : Worker.RetCode) (t : list Worker.Event) (p : string) :
  Worker.process_task env me fuel s = Some (rc, s', t) →
  agent_runs t = [p] →
  let run := Worker.claude_code env p in
  ∃ r, result s' = Some r ∧
       r_output r = Worker.stdout run ∧
       r_success r = Worker.exit_ok run ∧
       (r_error r = None ↔ Worker.stderr run = EmptyString) ∧
       (∀ e, r_error r = Some e → e = Worker.stderr run) ∧
       st_state (status s') = (if Worker.exit_ok run then done else error) ∧
       st_taskId (status s') = r_taskId r ∧
       (t_id <$> task s) = Some (r_taskId r).
Proof.
  intros [H|[H|H]]%process_task_cases Hruns run.
  - destruct H as (_ & _ & _ & Hno & _). by rewrite Hno in Hruns.
  - destruct H as (_ & Hno & _). by rewrite Hno in Hruns.
  - destruct H as (_ & tk & q & Htask & _ & _ & Hq & ->).
    rewrite Hq in Hruns. injection Hruns as ->.
    exists (result_of env tk p). rewrite Htask.
    unfold result_of, terminal_of. fold run. simpl.
    repeat split; try done; case_bool_decide; try done; congruence.
Qed.

Lemma process_task_records_agree_witness :
  ∃ r, Some (mkResult (Some 3) "" false (Some "boom")) = Some r ∧
       r_output r = "" ∧ r_success r = false ∧
       (r_error r = None ↔ "boom" = EmptyString) ∧
       (∀ e, r_error r = Some e → e = "boom") ∧
       error = error ∧ Some 3 = r_taskId r ∧ Some (Some 3) = Some (r_taskId r).
Proof.
  eapply (process_task_records_agree (Fixtures.quiet Fixtures.agent_fails) 7 9
           (set_task (Some (mkTask (Some 3) (Some "hi") [])) Fixtures.fresh)
           (mkSlot None (mkStatus error (Some 3))
              (Some (mkResult (Some 3) "" false (Some "boom"))) NoLock)
           Worker.Ret0 _ "hi"); reflexivity.
Defined.

(** X7. When [process_task] returns 0 without having run the agent, there
    was no task file, or the value of [$prompt] was empty: the prompt was
    missing, empty, or made of newlines only, which the command
    substitution strips.  Neither the status nor the result has been
    written: both are as they were. *)
Theorem process_task_skip_records_nothing
    (env : Worker.Env) (me : Z) (fuel : nat) (s s' : Slot)
    (t : list Worker.Event) :
  Worker.process_task env me fuel s = Some (Worker.Ret0, s', t) →
  agent_runs t = [] →
  status s' = status s ∧ result s' = result s ∧
  Worker.history Worker.Status_file t = [] ∧
  Worker.history Worker.Result_file t = [] ∧
  (task s = None ∨
   ∃ tk, task s = Some tk ∧ Worker.prompt_of tk = EmptyString).
Proof.
  intros [H|[H|H]]%process_task_cases Hruns.
  - by destruct H as ([=] & _).
  - by destruct H as (_ & _ & -> & ? & ? & ?).
  - destruct H as (_ & tk & p & _ & _ & _ & Hp & _). by rewrite Hp in Hruns.
Qed.

Lemma process_task_skip_records_nothing_witness :
  let s := mkSlot
             (Some (mkTask (Some 4)
                      (Some (String Worker.newline EmptyString)) []))
             (mkStatus done (Some 2))
             (Some (mkResult (Some 2) "ok" true None)) NoLock in
  let s' := mkSlot None (mkStatus done (Some 2))
              (Some (mkResult (Some 2) "ok" true None)) NoLock in
  let t := [Worker.Mkdir_lock true;
            Worker.Overwrite Worker.Lock_pid (Worker.C_pid 7);
            Worker.Rm_f [Worker.Task_file]; Worker.Rm_rf_lock] in
  Worker.process_task (Fixtures.quiet Fixtures.agent_ok) 7 9 s
    = Some (Worker.Ret0, s', t) ∧
  agent_runs t = [] ∧
  status s' = status s ∧ result s' = result s ∧
  Worker.history Worker.Status_file t = [] ∧
  Worker.history Worker.Result_file t = [] ∧
  (task s = None ∨
   ∃ tk, task s = Some tk ∧ Worker.prompt_of tk = EmptyString).
Proof.
  intros s s' t. split; [reflexivity|]. split; [reflexivity|].
  apply (process_task_skip_records_nothing
           (Fixtures.quiet Fixtures.agent_ok) 7 9 s s' t); reflexivity.
Defined.

(** X8. When a task is waiting and another live process keeps the lock, a
    round of the daemon's main loop sleeps the whole back-off, and the
    daemon exits ([set -e] after the status 1 of [process_task]); its exit
    trap then removes the lock directory of the other process.  Task,
    status and result are as they were. *)
Theorem daemon_exit_removes_foreign_lock
    (env : Worker.Env) (me p : Z) (fuel : nat) (s : Slot) (tk : TaskRec) :
  lock s = LockPid p →
  (∀ n, Worker.interfere env n (LockPid p) = LockPid p) →
  (∀ n, Worker.alive env n p = true) →
  task s = Some tk → (6 ≤ fuel)%nat →
  ∃ t, Worker.main_round env me fuel s
       = Some (Worker.Exited, set_lock NoLock s, t) ∧
       Worker.delays t = [1; 2; 4; 8; 16] ∧
       last t = Some Worker.Rm_rf_lock ∧ agent_runs t = [].
Proof.
  intros Hs Hkeep Hlive Htask Hfuel.
  assert (∃ t1, Worker.acquire_lock env me fuel s = Some (false, s, t1) ∧
                Worker.delays t1 = [1; 2; 4; 8; 16] ∧ agent_runs t1 = [])
    as (t1 & Hacq & Hd & Hno).
  { do 6 (destruct fuel as [|fuel]; [lia|]).
    unfold Worker.acquire_lock.
    do 5 (rewrite (acquire_loop_live env me p Hkeep Hlive) by (done || lia)).
    rewrite acquire_loop_S, bool_decide_eq_false_2 by lia.
    eexists. split; [reflexivity|]. split; reflexivity. }
  exists (t1 ++ [Worker.Rm_rf_lock]). split; [|split; [|split]].
  - unfold Worker.main_round, Worker.process_task, mbind, Worker.Sh_bind.
    simpl. rewrite Htask, Hacq. simpl. by rewrite !app_nil_r.
  - by rewrite delays_app, Hd.
  - apply last_snoc.
  - by rewrite agent_runs_app, Hno.
Qed.

Lemma daemon_exit_removes_foreign_lock_witness :
  ∃ t, Worker.main_round (Fixtures.quiet Fixtures.agent_ok) 7 6
         (mkSlot (Some (mkTask (Some 3) (Some "hi") [])) (mkStatus idle None)
            None (LockPid 5))
       = Some (Worker.Exited,
               mkSlot (Some (mkTask (Some 3) (Some "hi") []))
                 (mkStatus idle None) None NoLock, t) ∧
       Worker.delays t = [1; 2; 4; 8; 16] ∧
       last t = Some Worker.Rm_rf_lock ∧ agent_runs t = [].
Proof.
  apply (daemon_exit_removes_foreign_lock (Fixtures.quiet Fixtures.agent_ok)
           7 5 6
           (mkSlot (Some (mkTask (Some 3) (Some "hi") [])) (mkStatus idle None)
              None (LockPid 5))
           (mkTask (Some 3) (Some "hi") []));
    [reflexivity | intros; reflexivity | intros; reflexivity | reflexivity | lia].
Defined.

(** ** More on the orchestrator *)

Section scheduler_more.
Import Orchestrator.
Context (env : Env) (workers : list nat).

(** [find] on [seq] returns the least number that passes the test. *)
Lemma find_seq_least (f : nat → bool) (n : nat) : ∀ start : nat,
  match List.find f (seq start n) with
  | Some i => (start ≤ i < start + n)%nat ∧ f i = true ∧
              ∀ j, (start ≤ j < i)%nat → f j = false
  | None => ∀ j, (start ≤ j < start + n)%nat → f j = false
  end.
Proof.
  induction n as [|n IH]; intros start; simpl; [intros j; lia|].
  destruct (f start) eqn:Hf.
  - split; [lia|]. split; [done|]. intros j; lia.
  - specialize (IH (S start)).
    destruct (List.find f (seq (S start) n)) as [i|].
    + destruct IH as (Hi & Hfi & Hlt). split; [lia|]. split; [done|].
      intros j Hj. destruct (decide (j = start)) as [->|]; [done|].
      apply Hlt. lia.
    + intros j Hj. destruct (decide (j = start)) as [->|]; [done|].
      apply IH. lia.
Qed.

(** A worker is found at once, without a timer. *)
Lemma waitForAvailableWorker_at_once fuel timeoutMs w i :
  List.find (available w) workers = Some i →
  0 < timeoutMs →
  waitForAvailableWorker env workers (S fuel) timeoutMs w =
    Returned (i, mkWorld (env (tick w) Microtask (store w)) (clock w + 0)
                   (S (tick w)) (nextId w) (dispatched w)).
Proof.
  intros Hfind Hpos.
  unfold waitForAvailableWorker, mbind, Js_bind. simpl.
  unfold mbind, Js_bind. simpl.
  rewrite bool_decide_eq_true_2 by lia.
  unfold findIdleWorker. by rewrite Hfind.
Qed.

(** While the workers keep a property of the queue directories under
    which no worker is available, the wait ends in the timeout. *)
Lemma waitForAvailableWorker_loop_gives_up (P : list Slot → Prop)
    (Henv : ∀ n s st, P st → P (env n s st))
    (Hnone : ∀ w, P (store w) → List.find (available w) workers = None) :
  ∀ (fuel : nat) (startTime timeoutMs : Z) (w : World),
    P (store w) → (0 < fuel)%nat →
    timeoutMs - (clock w - startTime) ≤ 1000 * (Z.of_nat fuel - 1) →
    waitForAvailableWorker_loop env workers fuel startTime timeoutMs w
    = Thrown (Timeout "Timeout waiting for available worker").
Proof.
  induction fuel as [|fuel IH]; intros startTime timeoutMs w HP Hpos Hfuel;
    [lia|].
  simpl. unfold mbind, Js_bind. simpl.
  case_bool_decide; [|done].
  unfold findIdleWorker. rewrite Hnone by done.
  apply IH; simpl; [by do 2 apply Henv | lia | lia].
Qed.

Lemma shutdown_loop_world ids : ∀ w,
  ∃ st, shutdown_loop ids w =
          Returned (tt, mkWorld st (clock w) (tick w) (nextId w) (dispatched w)) ∧
        length st = length (store w) ∧
        ∀ j, st !! j =
             (if bool_decide (j ∈ ids)
              then set_status (mkStatus idle None) <$> store w !! j
              else store w !! j).
Proof.
  induction ids as [|i ids IH]; intros w.
  - exists (store w). destruct w. split; [done|]. split; [done|].
    intros j. by rewrite bool_decide_eq_false_2 by apply not_elem_of_nil.
  - simpl. unfold mbind, Js_bind. simpl.
    destruct (IH (with_store (alter (set_status (mkStatus idle None)) i) w))
      as (st & -> & Hlen & Hst).
    exists st. split; [done|]. simpl in *.
    split; [by rewrite Hlen, length_alter|].
    intros j. rewrite Hst.
    destruct (decide (j = i)) as [->|Hne].
    + rewrite (bool_decide_eq_true_2 (i ∈ i :: ids)) by apply list_elem_of_here.
      rewrite list_lookup_alter_eq.
      case_bool_decide; [|done]. by destruct (store w !! i).
    + rewrite list_lookup_alter_ne by done.
      case_bool_decide as Hin.
      * by rewrite bool_decide_eq_true_2 by by apply list_elem_of_further.
      * rewrite bool_decide_eq_false_2; [done|].
        intros [?|?]%elem_of_cons; done.
Qed.

Lemma getWorkersStatus_map_read ids : ∀ w,
  getWorkersStatus_map ids w =
    Returned ((λ i, (i, status (store w !!! i))) <$> ids, w).
Proof.
  induction ids as [|i ids IH]; intros w; [done|].
  simpl. unfold mbind, Js_bind. simpl. by rewrite IH.
Qed.

End scheduler_more.

(** X9. With the worker ids the constructor builds, 0 to [n]-1,
    [findIdleWorker] returns the lowest id whose status is [idle] or
    [done], and [null] only when no worker has such a status; it changes
    nothing. *)
Theorem findIdleWorker_lowest_id (n : nat) (w : Orchestrator.World) :
  ∃ r, Orchestrator.findIdleWorker (Orchestrator.pool n) w
       = Orchestrator.Returned (r, w) ∧
       match r with
       | Some i => (i < n)%nat ∧ Orchestrator.available w i = true ∧
                   ∀ j, (j < i)%nat → Orchestrator.available w j = false
       | None => ∀ j, (j < n)%nat → Orchestrator.available w j = false
       end.
Proof.
  eexists. split; [reflexivity|].
  pose proof (find_seq_least (Orchestrator.available w) n 0) as H.
  unfold Orchestrator.pool.
  destruct (List.find (Orchestrator.available w) (seq 0 n)) as [i|].
  - destruct H as (Hi & Hf & Hlt). split; [lia|]. split; [done|].
    intros j Hj. apply Hlt. lia.
  - intros j Hj. apply H. lia.
Qed.

(** X10. When some worker is [idle] or [done] at the call and the timeout
    is positive, [waitForAvailableWorker] returns the first such worker of
    [this.workers] at once: it sets no timer, the clock has not moved, and
    nothing has been written. *)
Theorem waitForAvailableWorker_returns_at_once
    (env : Orchestrator.Env) (workers : list nat) (fuel : nat) (timeoutMs : Z)
    (w : Orchestrator.World) (i : nat) :
  List.find (Orchestrator.available w) workers = Some i →
  0 < timeoutMs → (1 ≤ fuel)%nat →
  ∃ w', Orchestrator.waitForAvailableWorker env workers fuel timeoutMs w
        = Orchestrator.Returned (i, w') ∧
        Orchestrator.clock w' = Orchestrator.clock w ∧
        Orchestrator.tick w' = S (Orchestrator.tick w) ∧
        Orchestrator.store w'
          = env (Orchestrator.tick w) Orchestrator.Microtask (Orchestrator.store w) ∧
        Orchestrator.dispatched w' = Orchestrator.dispatched w.
Proof.
  intros Hfind Hpos Hfuel. destruct fuel as [|fuel]; [lia|].
  eexists. split; [by apply waitForAvailableWorker_at_once|].
  simpl. repeat split. lia.
Qed.

Lemma waitForAvailableWorker_returns_at_once_witness :
  ∃ w', Orchestrator.waitForAvailableWorker Fixtures.no_daemons [0; 1]%nat 1
          300000 (Fixtures.start [Fixtures.busy; Fixtures.fresh])
        = Orchestrator.Returned (1%nat, w') ∧
        Orchestrator.clock w' = 0 ∧
        Orchestrator.tick w' = 1%nat ∧
        Orchestrator.store w' = [Fixtures.busy; Fixtures.fresh] ∧
        Orchestrator.dispatched w' = [].
Proof.
  apply (waitForAvailableWorker_returns_at_once Fixtures.no_daemons [0; 1]%nat
           1 300000 (Fixtures.start [Fixtures.busy; Fixtures.fresh]) 1);
    [reflexivity | lia | lia].
Defined.

(** X11. While the worker processes keep the queue directories in a state
    in which no worker of [this.workers] is [idle] or [done],
    [waitForAvailableWorker] polls once a second and throws "Timeout
    waiting for available worker" once [timeoutMs] has passed. *)
Theorem waitForAvailableWorker_gives_up
    (env : Orchestrator.Env) (workers : list nat) (P : list Slot → Prop)
    (fuel : nat) (timeoutMs : Z) (w : Orchestrator.World) :
  (∀ n s st, P st → P (env n s st)) →
  (∀ w, P (Orchestrator.store w) →
        List.find (Orchestrator.available w) workers = None) →
  P (Orchestrator.store w) →
  (0 < fuel)%nat → timeoutMs ≤ 1000 * (Z.of_nat fuel - 1) →
  Orchestrator.waitForAvailableWorker env workers fuel timeoutMs w
  = Orchestrator.Thrown
      (Orchestrator.Timeout "Timeout waiting for available worker").
Proof.
  intros Henv Hnone HP Hpos Hfuel.
  unfold Orchestrator.waitForAvailableWorker, mbind, Orchestrator.Js_bind.
  simpl.
  apply (waitForAvailableWorker_loop_gives_up env workers P Henv Hnone);
    [done | done | lia].
Qed.

Lemma waitForAvailableWorker_gives_up_witness :
  Orchestrator.waitForAvailableWorker Fixtures.no_daemons [0%nat] 301 300000
    (Fixtures.start [Fixtures.busy])
  = Orchestrator.Thrown
      (Orchestrator.Timeout "Timeout waiting for available worker").
Proof.
  apply (waitForAvailableWorker_gives_up Fixtures.no_daemons [0%nat]
           (λ st, st = [Fixtures.busy]) 301 300000
           (Fixtures.start [Fixtures.busy])).
  - intros n s st Hst. exact Hst.
  - intros w Hw. unfold Orchestrator.available. rewrite Hw. reflexivity.
  - reflexivity.
  - lia.
  - lia.
Defined.

(** X12. With a timeout that is not positive, [waitForAvailableWorker]
    throws without looking at the workers, also when one of them is idle. *)
Theorem waitForAvailableWorker_zero_timeout
    (env : Orchestrator.Env) (workers : list nat) (fuel : nat) (timeoutMs : Z)
    (w : Orchestrator.World) :
  timeoutMs ≤ 0 → (1 ≤ fuel)%nat →
  Orchestrator.waitForAvailableWorker env workers fuel timeoutMs w
  = Orchestrator.Thrown
      (Orchestrator.Timeout "Timeout waiting for available worker").
Proof.
  intros Hle Hfuel. destruct fuel as [|fuel]; [lia|].
  unfold Orchestrator.waitForAvailableWorker, mbind, Orchestrator.Js_bind.
  simpl. unfold mbind, Orchestrator.Js_bind. simpl.
  by rewrite bool_decide_eq_false_2 by lia.
Qed.

Lemma waitForAvailableWorker_zero_timeout_witness :
  Orchestrator.waitForAvailableWorker Fixtures.no_daemons [0%nat] 1 0
    (Fixtures.start [Fixtures.fresh])
  = Orchestrator.Thrown
      (Orchestrator.Timeout "Timeout waiting for available worker").
Proof.
  apply (waitForAvailableWorker_zero_timeout Fixtures.no_daemons [0%nat] 1 0
           (Fixtures.start [Fixtures.fresh])); lia.
Defined.

(** X13. [shutdown] sets the status of every worker of [this.workers] to
    [idle] without task id, also of a worker that is [working]; it leaves
    the task, the result and the lock of every slot, the slots of all other
    workers, the clock and the task-id counter as they were. *)
Theorem shutdown_resets_status
    (workers : list nat) (w : Orchestrator.World) :
  ∃ w', Orchestrator.shutdown workers w = Orchestrator.Returned (tt, w') ∧
        length (Orchestrator.store w') = length (Orchestrator.store w) ∧
        (∀ j s, Orchestrator.store w !! j = Some s →
                Orchestrator.store w' !! j =
                  Some (if bool_decide (j ∈ workers)
                        then mkSlot (task s) (mkStatus idle None) (result s) (lock s)
                        else s)) ∧
        Orchestrator.clock w' = Orchestrator.clock w ∧
        Orchestrator.nextId w' = Orchestrator.nextId w ∧
        Orchestrator.dispatched w' = Orchestrator.dispatched w.
Proof.
  destruct (shutdown_loop_world workers w) as (st & Hrun & Hlen & Hst).
  eexists. split; [exact Hrun|]. simpl. split; [done|].
  split; [|done].
  intros j s Hj. rewrite Hst, Hj. by case_bool_decide.
Qed.

(** X14. After [shutdown], [getWorkersStatus] reports [idle] for every
    worker of [this.workers] that has a queue directory, in the order of
    [this.workers], and reading changes nothing. *)
Theorem getWorkersStatus_after_shutdown
    (workers : list nat) (w w' : Orchestrator.World) :
  Forall (λ i, (i < length (Orchestrator.store w))%nat) workers →
  Orchestrator.shutdown workers w = Orchestrator.Returned (tt, w') →
  Orchestrator.getWorkersStatus workers w'
  = Orchestrator.Returned ((λ i, (i, mkStatus idle None)) <$> workers, w').
Proof.
  intros Hin Hrun.
  destruct (shutdown_loop_world workers w) as (st & Hrun' & Hlen & Hst).
  unfold Orchestrator.shutdown in Hrun. rewrite Hrun' in Hrun.
  injection Hrun as <-.
  unfold Orchestrator.getWorkersStatus. rewrite getWorkersStatus_map_read.
  f_equal. f_equal. simpl.
  apply list_fmap_ext. intros k i Hk.
  assert (i ∈ workers) as Hi by (apply list_elem_of_lookup; eauto).
  rewrite Forall_forall in Hin. specialize (Hin i Hi).
  f_equal.
  destruct (lookup_lt_is_Some_2 (Orchestrator.store w) i Hin) as [s Hs].
  rewrite (list_lookup_total_correct st i (set_status (mkStatus idle None) s));
    [done|].
  by rewrite Hst, Hs, bool_decide_eq_true_2.
Qed.

Lemma getWorkersStatus_after_shutdown_witness :
  Orchestrator.getWorkersStatus [0; 1]%nat
    (Orchestrator.mkWorld
       [mkSlot None (mkStatus idle None) None (LockPid 1000); Fixtures.fresh]
       0 0 1 [])
  = Orchestrator.Returned
      ([(0%nat, mkStatus idle None); (1%nat, mkStatus idle None)],
       Orchestrator.mkWorld
         [mkSlot None (mkStatus idle None) None (LockPid 1000); Fixtures.fresh]
         0 0 1 []).
Proof.
  apply (getWorkersStatus_after_shutdown [0; 1]%nat
           (Fixtures.start [Fixtures.busy; Fixtures.fresh])).
  - repeat constructor.
  - reflexivity.
Defined.

Section dispatch_more.
Import Orchestrator.
Context (env : Env) (workers : list nat) (pollMs : Z).

Lemma map_set_sound tasks k v (a : Active) :
  sound_active workers tasks a →
  k ∈ workers → v.2 ∈ tasks → is_Some (prompt v.2) →
  sound_active workers tasks (map_set k v a).
Proof.
  intros Ha Hk Hv Hp. induction Ha as [|[k' v'] a Hkv Ha IH]; simpl.
  - by repeat constructor.
  - case_bool_decide; constructor; done.
Qed.

Lemma map_delete_sound tasks k (a : Active) :
  sound_active workers tasks a → sound_active workers tasks (map_delete k a).
Proof.
  intros Ha. induction Ha as [|[k' v'] a Hkv Ha IH]; simpl; [constructor|].
  destruct (negb _); [by constructor|done].
Qed.

Lemma map_get_sound tasks k (a : Active) taskId t :
  sound_active workers tasks a → map_get k a = Some (taskId, t) →
  k ∈ workers ∧ t ∈ tasks ∧ is_Some (prompt t).
Proof.
  unfold map_get. intros Ha.
  induction Ha as [|[k' v'] a Hkv Ha IH]; simpl; [done|].
  case_bool_decide as Hk; simpl in *; [|done].
  intros [= ->]. by subst k'.
Qed.

Lemma await_findIdleWorker_member w i w' :
  await env (findIdleWorker workers) w = Returned (Some i, w') → i ∈ workers.
Proof.
  intros (r & w1 & Hr & H)%bind_Returned.
  apply bind_Returned in H as ([] & w2 & _ & Hret).
  injection Hr as Hr _. injection Hret as -> _.
  apply list_elem_of_In. by apply find_some in Hr as [? _].
Qed.

Lemma await_assignTask_prompt i p c w taskId w' :
  await env (assignTask i p c) w = Returned (taskId, w') → is_Some p.
Proof.
  intros (r & w1 & (q & -> & _)%assignTask_log & _)%bind_Returned. eauto.
Qed.

Lemma assign_loop_sound tasks taskQueue : ∀ activeWorkers w q a w',
  taskQueue ⊆ tasks → sound_active workers tasks activeWorkers →
  assign_loop env workers taskQueue activeWorkers w = Returned ((q, a), w') →
  q ⊆ tasks ∧ sound_active workers tasks a.
Proof.
  induction taskQueue as [|task rest IH]; intros activeWorkers w q a w' Hq Ha;
    simpl.
  - by intros [= <- <- _].
  - intros ([i|] & w1 & Hfind & H)%bind_Returned.
    + apply bind_Returned in H as (taskId & w2 & Hp%await_assignTask_prompt & H').
      apply IH in H'; [done| |].
      * intros x Hx. apply Hq. by apply list_elem_of_further.
      * apply map_set_sound; [done| |apply Hq, list_elem_of_here|done].
        by eapply await_findIdleWorker_member.
    + by injection H as <- <- _.
Qed.

Lemma collect_loop_sound tasks keys : ∀ activeWorkers results w a r w',
  sound_active workers tasks activeWorkers →
  Forall (sound_outcome workers tasks) results →
  collect_loop keys activeWorkers results w = Returned ((a, r), w') →
  sound_active workers tasks a ∧ Forall (sound_outcome workers tasks) r.
Proof.
  induction keys as [|k keys IH]; intros activeWorkers results w a r w' Ha Hr;
    simpl.
  - by intros [= <- <- _].
  - intros (st & w1 & _ & H)%bind_Returned.
    destruct (_ || _) eqn:Hst; [|by eapply IH].
    apply bind_Returned in H as (res & w2 & _ & H).
    destruct (map_get k activeWorkers) as [[taskId originalTask]|] eqn:Hk;
      [|done].
    apply bind_Returned in H as ([] & w3 & _ & H').
    apply IH in H'; [done|by apply map_delete_sound|].
    apply Forall_app. split; [done|]. constructor; [|constructor].
    destruct (map_get_sound tasks k activeWorkers taskId originalTask Ha Hk)
      as (? & ? & ?).
    repeat split; try done. simpl.
    apply orb_true_iff in Hst as [Hd|He].
    + left. by apply bool_decide_eq_true_1 in Hd.
    + right. by apply bool_decide_eq_true_1 in He.
Qed.

Lemma executeTasks_loop_sound tasks fuel :
  ∀ taskQueue activeWorkers results w out w',
    taskQueue ⊆ tasks → sound_active workers tasks activeWorkers →
    Forall (sound_outcome workers tasks) results →
    executeTasks_loop env workers fuel taskQueue activeWorkers results w
      = Returned (out, w') →
    Forall (sound_outcome workers tasks) out.
Proof.
  induction fuel as [|fuel IH];
    intros taskQueue activeWorkers results w out w' Hq Ha Hr; simpl; [done|].
  destruct (_ || _); [|by intros [= <- _]].
  intros ([q a] & w1 & [Hq' Ha']%(assign_loop_sound tasks) & H)%bind_Returned;
    [|done|done].
  case_bool_decide; [|by eapply IH].
  apply bind_Returned in H
    as ([a' r'] & w2 & [Ha'' Hr']%(collect_loop_sound tasks) & H2);
    [|done|done].
  apply bind_Returned in H2 as ([] & w3 & _ & H'). by eapply IH.
Qed.

(** One round of [executeSequential] writes one task record, that of its
    outcome. *)
Lemma sequential_round_record fuel task w o w' :
  sequential_round env workers pollMs fuel task w = Returned (o, w') →
  o_task o = task ∧ is_Some (prompt task) ∧
  dispatched w' = dispatched w ++ [record_of o].
Proof.
  unfold sequential_round.
  intros (i & w1 & H1 & H)%bind_Returned.
  apply bind_Returned in H as (id & w2 & H2 & H).
  apply bind_Returned in H as (st0 & w3 & H3 & H).
  apply bind_Returned in H as (r & w4 & H4 & H).
  apply bind_Returned in H as (st & w5 & H5 & H).
  apply bind_Returned in H as ([] & w6 & H6 & [= <- <-]).
  unfold record_of. simpl. split; [done|].
  apply keeps_log_await in H1; [|apply keeps_log_waitForAvailableWorker].
  apply bind_Returned in H2 as (id' & w2' & H2 & H2').
  apply assignTask_log in H2 as (q & Hq & H2).
  apply bind_Returned in H2' as ([] & w2'' & H2' & [= <- <-]).
  apply keeps_log_suspend in H2'.
  apply keeps_log_await in H3; [|apply keeps_log_waitForCompletion].
  apply keeps_log_readResult in H4. apply keeps_log_readStatus in H5.
  apply keeps_log_writeStatus in H6.
  split; [by rewrite Hq|]. rewrite Hq. congruence.
Qed.

Lemma pipeline_shape_stop task rest w w1 o :
  o_task o = task → is_Some (prompt task) →
  dispatched w1 = dispatched w ++ [record_of o] → stops o →
  pipeline_shape (task :: rest) w w1 [o].
Proof.
  intros Ho Hp Hlog Hs. unfold pipeline_shape. csimpl.
  rewrite Ho, take_0.
  split; [done|]. split; [done|].
  split; [constructor; [by rewrite Ho|constructor]|].
  split; [intros _; by exists o|].
  intros [|i] o' Hi Hlen; simpl in *; lia.
Qed.

Lemma pipeline_shape_cons task rest w w1 w' o ext :
  o_task o = task → is_Some (prompt task) →
  dispatched w1 = dispatched w ++ [record_of o] → ¬ stops o →
  pipeline_shape rest w1 w' ext →
  (rest = [] → ext = []) →
  pipeline_shape (task :: rest) w w' (o :: ext).
Proof.
  intros Ho Hp Hlog Hns (Htasks & Hlog' & Hps & Hlast & Hmid) Hnil.
  unfold pipeline_shape. csimpl.
  rewrite Htasks, Ho, Hlog', Hlog, <- app_assoc.
  split; [done|]. split; [done|].
  split; [constructor; [by rewrite Ho|done]|].
  split.
  - intros Hlen. destruct Hlast as (o' & Hl & Hs); [lia|].
    exists o'. split; [|done]. destruct ext; [done|done].
  - intros [|i] o' Hi Hlen.
    + by injection Hi as <-.
    + apply (Hmid i o' Hi). lia.
Qed.

(** The shape of what the loop of [executeSequential] adds to [results]. *)
Lemma executeSequential_loop_shape fuel tasks : ∀ results w out w',
  executeSequential_loop env workers pollMs fuel tasks results w
    = Returned (out, w') →
  ∃ ext, out = results ++ ext ∧ pipeline_shape tasks w w' ext ∧
         (tasks = [] → ext = []).
Proof.
  induction tasks as [|task rest IH]; intros results w out w'.
  - intros [= <- <-]. exists []. rewrite app_nil_r.
    split; [done|]. split; [|done].
    unfold pipeline_shape. rewrite app_nil_r.
    split; [done|]. split; [done|]. split; [constructor|].
    split; [simpl; lia|]. intros i o Hi. done.
  - rewrite executeSequential_loop_cons.
    destruct (sequential_round env workers pollMs fuel task w)
      as [[o w1]| |] eqn:Hr; [|done|done].
    apply sequential_round_record in Hr as (Ho & Hp & Hlog).
    unfold should_stop.
    destruct (stopOnError task) eqn:Hstop.
    + destruct (o_result o) as [r|] eqn:Hres; [|done]. simpl.
      destruct (r_success r) eqn:Hsucc; simpl.
      * intros (ext & -> & Hshape & Hnil)%IH.
        exists (o :: ext). rewrite <- app_assoc.
        split; [done|]. split; [|done].
        apply (pipeline_shape_cons task rest w w1 w' o ext); try done.
        intros (_ & r' & Hr' & Hf). congruence.
      * intros [= <- <-]. exists [o].
        split; [done|]. split; [|done].
        apply pipeline_shape_stop; try done.
        split; [by rewrite Ho|eauto].
    + simpl. intros (ext & -> & Hshape & Hnil)%IH.
      exists (o :: ext). rewrite <- app_assoc.
      split; [done|]. split; [|done].
      apply (pipeline_shape_cons task rest w w1 w' o ext); try done.
      intros (Hs & _). congruence.
Qed.

End dispatch_more.

(** X15. When [executeTasks] returns, every outcome belongs to one of the
    submitted tasks, which has a prompt, comes from a worker of
    [this.workers] and has the status [done] or [error]; and there are at
    most as many outcomes as tasks. *)
Theorem executeTasks_outcomes_sound
    (env : Orchestrator.Env) (workers : list nat) (fuel : nat)
    (tasks : list Orchestrator.Task) (w w' : Orchestrator.World)
    (out : list Orchestrator.Outcome) :
  Orchestrator.executeTasks env workers fuel tasks w
    = Orchestrator.Returned (out, w') →
  Forall (sound_outcome workers tasks) out ∧ (length out ≤ length tasks)%nat.
Proof.
  intros H. split.
  - eapply (executeTasks_loop_sound env workers tasks fuel tasks [] []);
      [by intros x Hx | constructor | constructor | exact H].
  - by eapply executeTasks_length_le.
Qed.

Lemma executeTasks_outcomes_sound_witness :
  let tasks := [Fixtures.job "A" false; Fixtures.job "B" false] in
  let out := [Orchestrator.mkOutcome 0 2 (Fixtures.job "B" false)
                (Some (mkResult (Some 2) "ok" true None)) done] in
  Forall (sound_outcome [0; 1]%nat tasks) out ∧
  (length out ≤ length tasks)%nat.
Proof.
  intros tasks out.
  eapply (executeTasks_outcomes_sound (Fixtures.daemons Fixtures.agent_ok)
            [0; 1]%nat 10 tasks
            (Fixtures.start [Fixtures.fresh; Fixtures.fresh])).
  vm_compute. reflexivity.
Defined.

(** X16. When [executeSequential] returns, its outcomes are those of an
    initial part of the task array, in the order of the array; every one
    of these tasks has a prompt; and the task records written during the
    call are exactly those of the outcomes, one for each, in the same
    order, each to the worker and with the task id of its outcome. *)
Theorem executeSequential_in_order
    (env : Orchestrator.Env) (workers : list nat) (pollMs : Z) (fuel : nat)
    (tasks : list Orchestrator.Task) (w w' : Orchestrator.World)
    (out : list Orchestrator.Outcome) :
  Orchestrator.executeSequential env workers pollMs fuel tasks w
    = Orchestrator.Returned (out, w') →
  Orchestrator.o_task <$> out = take (length out) tasks ∧
  Forall (λ o, is_Some (Orchestrator.prompt (Orchestrator.o_task o))) out ∧
  Orchestrator.dispatched w' = Orchestrator.dispatched w ++ (record_of <$> out).
Proof.
  intros H. unfold Orchestrator.executeSequential in H.
  apply executeSequential_loop_shape in H as (ext & Hout & Hshape & _).
  rewrite app_nil_l in Hout. subst ext.
  destruct Hshape as (H1 & H2 & H3 & _).
  split; [exact H1|]. split; [exact H3|exact H2].
Qed.

Lemma executeSequential_in_order_witness :
  let o := Orchestrator.mkOutcome 0 1 (Fixtures.job "A" true)
             (Some (mkResult (Some 1) "" false (Some "boom"))) error in
  Orchestrator.o_task <$> [o] =
    take 1 [Fixtures.job "A" true; Fixtures.job "B" false] ∧
  Forall (λ o, is_Some (Orchestrator.prompt (Orchestrator.o_task o))) [o] ∧
  [(0%nat, mkTask (Some 1) (Some "A") [])] = [] ++ (record_of <$> [o]).
Proof.
  intros o.
  eapply (executeSequential_in_order (Fixtures.daemons Fixtures.agent_fails)
            [0; 1]%nat 1000 10
            [Fixtures.job "A" true; Fixtures.job "B" false]
            (Fixtures.start [Fixtures.fresh; Fixtures.fresh])
            (Orchestrator.mkWorld
               [mkSlot None (mkStatus idle None)
                  (Some (mkResult (Some 1) "" false (Some "boom"))) NoLock;
                Fixtures.fresh]
               1000 6 2 [(0%nat, mkTask (Some 1) (Some "A") [])]) [o]).
  vm_compute. reflexivity.
Defined.

(** X17. [executeSequential] returns fewer outcomes than tasks only when
    the task of its last outcome carries [stopOnError] and the result of
    that outcome has [success] false; and no outcome before the last one
    is of that kind. *)
Theorem executeSequential_stops_only_on_error
    (env : Orchestrator.Env) (workers : list nat) (pollMs : Z) (fuel : nat)
    (tasks : list Orchestrator.Task) (w w' : Orchestrator.World)
    (out : list Orchestrator.Outcome) :
  Orchestrator.executeSequential env workers pollMs fuel tasks w
    = Orchestrator.Returned (out, w') →
  ((length out < length tasks)%nat → ∃ o, last out = Some o ∧ stops o) ∧
  (∀ i o, out !! i = Some o → (S i < length out)%nat → ¬ stops o).
Proof.
  intros H. unfold Orchestrator.executeSequential in H.
  apply executeSequential_loop_shape in H as (ext & Hout & Hshape & _).
  rewrite app_nil_l in Hout. subst ext.
  destruct Hshape as (_ & _ & _ & H4 & H5).
  split; [exact H4|exact H5].
Qed.

Lemma executeSequential_stops_only_on_error_witness :
  let o := Orchestrator.mkOutcome 0 1 (Fixtures.job "A" true)
             (Some (mkResult (Some 1) "" false (Some "boom"))) error in
  ((length [o] < 2)%nat → ∃ o', last [o] = Some o' ∧ stops o') ∧
  (∀ i o', [o] !! i = Some o' → (S i < length [o])%nat → ¬ stops o').
Proof.
  intros o.
  eapply (executeSequential_stops_only_on_error
            (Fixtures.daemons Fixtures.agent_fails) [0; 1]%nat 1000 10
            [Fixtures.job "A" true; Fixtures.job "B" false]
            (Fixtures.start [Fixtures.fresh; Fixtures.fresh])
            (Orchestrator.mkWorld
               [mkSlot None (mkStatus idle None)
                  (Some (mkResult (Some 1) "" false (Some "boom"))) NoLock;
                Fixtures.fresh]
               1000 6 2 [(0%nat, mkTask (Some 1) (Some "A") [])]) [o]).
  vm_compute. reflexivity.
Defined.

(** ** The orchestrator and the worker daemons together *)

Section with_daemons.
Import Orchestrator.
Context (agent : string → Worker.AgentRun).

Lemma Js_bind_step {A B} (m : Js A) (k : A → Js B) w a w1 :
  m w = Returned (a, w1) → (m ≫= k) w = k a w1.
Proof. intros H. unfold mbind, Js_bind. by rewrite H. Qed.

(** A daemon that finds a task with a prompt runs it to the end. *)
Lemma daemon_round_runs i tk st r p :
  Worker.prompt_of tk = p → p ≠ EmptyString →
  Fixtures.daemon_round agent i (mkSlot (Some tk) st r NoLock) =
    mkSlot None (terminal_of (Fixtures.quiet agent) tk p)
      (Some (result_of (Fixtures.quiet agent) tk p)) NoLock.
Proof.
  intros Hp Hne.
  unfold Fixtures.daemon_round, Worker.main_round, mbind, Worker.Sh_bind,
    Worker.read.
  cbv beta iota delta [task].
  erewrite process_task_run; [reflexivity|reflexivity|reflexivity|done|done].
Qed.

(** A daemon that finds no task does nothing. *)
Lemma daemon_round_rests i s :
  task s = None → Fixtures.daemon_round agent i s = s.
Proof.
  intros Ht. unfold Fixtures.daemon_round, Worker.main_round.
  unfold mbind, Worker.Sh_bind. simpl. by rewrite Ht.
Qed.

Lemma imap_rests (f : nat → Slot → Slot) (rest : list Slot) :
  (∀ i s, task s = None → f i s = s) →
  Forall (λ s, task s = None) rest → imap f rest = rest.
Proof.
  intros Hf Hrest. revert f Hf.
  induction Hrest as [|s rest Hs _ IH]; intros f Hf; [done|].
  simpl. rewrite Hf by done. f_equal. apply IH. intros i s'. apply Hf.
Qed.

(** What the daemons do during a timer: worker 0 runs its task, if it
    has one with a prompt; the others have nothing to do. *)
Lemma daemons_timer_runs n ms tk st r p rest :
  Worker.prompt_of tk = p → p ≠ EmptyString →
  Forall (λ s, task s = None) rest →
  Fixtures.daemons agent n (Timer ms) (mkSlot (Some tk) st r NoLock :: rest) =
    mkSlot None (terminal_of (Fixtures.quiet agent) tk p)
      (Some (result_of (Fixtures.quiet agent) tk p)) NoLock :: rest.
Proof.
  intros Hp Hne Hrest. unfold Fixtures.daemons. simpl imap.
  rewrite (daemon_round_runs 0 tk st r p Hp Hne). f_equal.
  apply imap_rests; [|done]. intros i s. apply daemon_round_rests.
Qed.

Lemma daemons_timer_rests n ms st :
  Forall (λ s, task s = None) st →
  Fixtures.daemons agent n (Timer ms) st = st.
Proof.
  intros Hst. unfold Fixtures.daemons.
  apply imap_rests; [|done]. intros i s. apply daemon_round_rests.
Qed.

End with_daemons.

Section healthy_pool.
Import Orchestrator.
Context (agent : string → Worker.AgentRun) (pollMs : Z).

Lemma await_step env {A} (m : Js A) w a w1 :
  m w = Returned (a, w1) →
  await env m w =
    Returned (a, mkWorld (env (tick w1) Microtask (store w1)) (clock w1 + 0)
                   (S (tick w1)) (nextId w1) (dispatched w1)).
Proof. intros H. unfold await. by rewrite (Js_bind_step _ _ _ _ _ H). Qed.

Lemma waitForStatus_one_poll env fuel i states timeoutMs w :
  st_state (status (store w !!! i)) ∉ states → 0 < timeoutMs →
  let w1 := mkWorld (env (tick w) (Timer pollMs) (store w)) (clock w + pollMs)
              (S (tick w)) (nextId w) (dispatched w) in
  st_state (status (store w1 !!! i)) ∈ states →
  waitForStatus env pollMs (S (S fuel)) i states timeoutMs w =
    Returned (status (store w1 !!! i), w1).
Proof.
  intros Hout Hpos w1 Hin.
  unfold waitForStatus, mbind, Js_bind. simpl.
  unfold mbind, Js_bind. simpl.
  rewrite bool_decide_eq_false_2 by done.
  rewrite bool_decide_eq_true_2 by lia.
  fold w1. by rewrite bool_decide_eq_true_2 by exact Hin.
Qed.

Lemma terminal_state tk p :
  st_state (terminal_of (Fixtures.quiet agent) tk p) ∈ [done; error].
Proof.
  unfold terminal_of. simpl. destruct (Worker.exit_ok (agent p)).
  - apply list_elem_of_here.
  - apply list_elem_of_further, list_elem_of_here.
Qed.

Lemma healthy_wait ws fuel s0 rest c k id log :
  st_state (status s0) = idle →
  await (Fixtures.daemons agent)
    (waitForAvailableWorker (Fixtures.daemons agent) (0%nat :: ws) (S fuel) 300000)
    (mkWorld (s0 :: rest) c k id log)
  = Returned (0%nat, mkWorld (s0 :: rest) (c + 0 + 0) (S (S k)) id log).
Proof.
  intros Hs.
  erewrite await_step;
    [|apply waitForAvailableWorker_at_once; [|lia]].
  - reflexivity.
  - simpl. unfold available. simpl. by rewrite Hs.
Qed.

Lemma healthy_assign p ctx t st r l rest c k id log :
  await (Fixtures.daemons agent) (assignTask 0%nat (Some p) ctx)
    (mkWorld (mkSlot t st r l :: rest) c k id log)
  = Returned
      (id, mkWorld (mkSlot (Some (mkTask (Some id) (Some p) ctx)) st None l :: rest)
             (c + 0) (S k) (id + 1)
             (log ++ [(0%nat, mkTask (Some id) (Some p) ctx)])).
Proof. reflexivity. Qed.

Lemma healthy_completion fuel tk p r rest c k id log :
  Worker.prompt_of tk = p → p ≠ EmptyString →
  Forall (λ s, task s = None) rest →
  await (Fixtures.daemons agent)
    (waitForCompletion (Fixtures.daemons agent) pollMs (S (S fuel)) 0%nat 300000)
    (mkWorld (mkSlot (Some tk) (mkStatus idle None) r NoLock :: rest) c k id log)
  = Returned
      (terminal_of (Fixtures.quiet agent) tk p,
       mkWorld (mkSlot None (terminal_of (Fixtures.quiet agent) tk p)
                  (Some (result_of (Fixtures.quiet agent) tk p)) NoLock :: rest)
         (c + pollMs + 0 + 0) (S (S (S k))) id log).
Proof.
  intros Hp Hne Hrest.
  pose proof (λ n, daemons_timer_runs agent n pollMs tk (mkStatus idle None) r p
                     rest Hp Hne Hrest) as Hd.
  erewrite await_step.
  2:{ unfold waitForCompletion. erewrite Js_bind_step; [reflexivity|].
      apply await_step. apply waitForStatus_one_poll.
      - simpl. intros H. apply list_elem_of_In in H. simpl in H.
        intuition discriminate.
      - lia.
      - cbn [store tick]. rewrite Hd. apply terminal_state. }
  cbn [store tick clock nextId dispatched].
  rewrite Hd. reflexivity.
Qed.


Lemma sequential_round_healthy ws fuel task w :
  first_worker_free (store w) → has_prompt task →
  ∃ o w', sequential_round (Fixtures.daemons agent) (0%nat :: ws) pollMs
            (S (S fuel)) task w = Returned (o, w') ∧
          faithful_outcome agent o ∧ o_workerId o = 0%nat ∧
          first_worker_free (store w').
Proof.
  intros (r0 & rest & Hst & Hrest) (p & Hp & Hne).
  destruct w as [st c k id log]. simpl in Hst. subst st.
  destruct task as [pr ctx stop]. simpl in Hp. subst pr.
  eexists _, _. split.
  - unfold sequential_round. cbn [prompt context].
    erewrite Js_bind_step; [|by apply healthy_wait].
    erewrite Js_bind_step; [|apply healthy_assign].
    erewrite Js_bind_step;
      [|by apply (healthy_completion _ _ (Worker.command_substitution p));
          [apply prompt_of_Some| |]].
    reflexivity.
  - simpl. split; [|split; [done|]].
    + by exists p.
    + by eexists _, rest.
Qed.

Lemma executeSequential_loop_healthy ws fuel tasks : ∀ results w,
  Forall has_prompt tasks → first_worker_free (store w) →
  ∃ ext w', executeSequential_loop (Fixtures.daemons agent) (0%nat :: ws) pollMs
              (S (S fuel)) tasks results w = Returned (results ++ ext, w') ∧
            Forall (faithful_outcome agent) ext ∧
            Forall (λ o, o_workerId o = 0%nat) ext.
Proof.
  induction tasks as [|task rest IH]; intros results w Htasks Hw.
  - exists [], w. rewrite app_nil_r. by repeat split.
  - apply Forall_cons in Htasks as [Htask Htasks].
    destruct (sequential_round_healthy ws fuel task w Hw Htask)
      as (o & w1 & Hround & Hgood & Hwk & Hw1).
    rewrite executeSequential_loop_cons, Hround.
    pose proof Hgood as (p & _ & Hres & _).
    unfold should_stop. rewrite Hres. simpl.
    destruct (stopOnError task);
      [destruct (Worker.exit_ok (run_on agent p))|]; simpl.
    + destruct (IH (results ++ [o]) w1 Htasks Hw1) as (ext & w' & -> & ? & ?).
      exists (o :: ext), w'. rewrite <- app_assoc.
      split; [done|]. split; by constructor.
    + exists [o], w1. split; [done|]. split; by repeat constructor.
    + destruct (IH (results ++ [o]) w1 Htasks Hw1) as (ext & w' & -> & ? & ?).
      exists (o :: ext), w'. rewrite <- app_assoc.
      split; [done|]. split; by constructor.
Qed.

Lemma executeTasks_loop_S env workers fuel q a r w :
  executeTasks_loop env workers (S fuel) q a r w =
    if bool_decide (0 < length q)%nat || bool_decide (0 < length a)%nat then
      match assign_loop env workers q a w with
      | Returned ((q', a'), w1) =>
          if bool_decide (0 < length a')%nat then
            match collect_loop (map_keys a') a' r w1 with
            | Returned ((a'', r'), w2) =>
                executeTasks_loop env workers fuel q' a'' r'
                  (mkWorld (env (tick w2) (Timer 500) (store w2)) (clock w2 + 500)
                     (S (tick w2)) (nextId w2) (dispatched w2))
            | Thrown e => Thrown e
            | OutOfFuel => OutOfFuel
            end
          else executeTasks_loop env workers fuel q' a' r w1
      | Thrown e => Thrown e
      | OutOfFuel => OutOfFuel
      end
    else Returned (r, w).
Proof.
  simpl. destruct (_ || _); [|done]. unfold mbind, Js_bind.
  destruct (assign_loop env workers q a w) as [[[q' a'] w1]| |]; [|done|done].
  case_bool_decide; [|done].
  by destruct (collect_loop (map_keys a') a' r w1) as [[[a'' r'] w2]| |].
Qed.

(** With worker 0 idle, the inner loop hands it the next task of the
    queue, whatever its slot holds. *)
Lemma assign_loop_step ws p ctx stop ts (a : Active) t0 r0 l0 rest c k id log :
  assign_loop (Fixtures.daemons agent) (0%nat :: ws)
    (mkJob (Some p) ctx stop :: ts) a
    (mkWorld (mkSlot t0 (mkStatus idle None) r0 l0 :: rest) c k id log)
  = assign_loop (Fixtures.daemons agent) (0%nat :: ws) ts
      (map_set 0%nat (id, mkJob (Some p) ctx stop) a)
      (mkWorld (mkSlot (Some (mkTask (Some id) (Some p) ctx)) (mkStatus idle None)
                  None l0 :: rest)
         (c + 0 + 0) (S (S k)) (id + 1)
         (log ++ [(0%nat, mkTask (Some id) (Some p) ctx)])).
Proof. reflexivity. Qed.

Lemma assign_loop_piles_up ws ts : ∀ (a : Active) t0 r0 l0 rest c k id log,
  Forall (λ t, is_Some (prompt t)) ts → ts ≠ [] →
  (a = [] ∨ ∃ v, a = [(0%nat, v)]) →
  ∃ tl pl lastId w' new,
    last ts = Some tl ∧ prompt tl = Some pl ∧
    assign_loop (Fixtures.daemons agent) (0%nat :: ws) ts a
      (mkWorld (mkSlot t0 (mkStatus idle None) r0 l0 :: rest) c k id log)
    = Returned (([], [(0%nat, (lastId, tl))]), w') ∧
    store w' = mkSlot (Some (mkTask (Some lastId) (Some pl) (context tl)))
                 (mkStatus idle None) None l0 :: rest ∧
    dispatched w' = log ++ new ∧
    new.*1 = replicate (length ts) 0%nat ∧
    (λ d, t_prompt d.2) <$> new = prompt <$> ts.
Proof.
  induction ts as [|t ts IH]; intros a t0 r0 l0 rest c k id log Hts Hne Ha;
    [done|].
  apply Forall_cons in Hts as [[p Hp] Hts].
  destruct t as [pr ctx stop]. simpl in Hp. subst pr.
  assert (map_set 0%nat (id, mkJob (Some p) ctx stop) a
          = [(0%nat, (id, mkJob (Some p) ctx stop))]) as Hset.
  { destruct Ha as [->|[v ->]]; [done|]. simpl. by destruct v. }
  rewrite assign_loop_step, Hset.
  destruct ts as [|t' ts'].
  - eexists _, p, id, _, [_]. split; [done|]. split; [done|].
    split; [reflexivity|]. by repeat split.
  - destruct (IH [(0%nat, (id, mkJob (Some p) ctx stop))]
                (Some (mkTask (Some id) (Some p) ctx)) None l0 rest (c + 0 + 0)
                (S (S k)) (id + 1)
                (log ++ [(0%nat, mkTask (Some id) (Some p) ctx)]) Hts
                ltac:(discriminate) ltac:(right; eexists; reflexivity))
      as (tl & pl & lastId & w' & new & Hl & Hpl & Hrun & Hst & Hlog & Hw & Hpr).
    exists tl, pl, lastId, w', ((0%nat, mkTask (Some id) (Some p) ctx) :: new).
    split; [done|]. split; [done|]. split; [done|]. split; [done|].
    split; [by rewrite Hlog, <- app_assoc|].
    split; [csimpl in *; by rewrite Hw | csimpl in *; by rewrite Hpr].
Qed.

Lemma executeTasks_piles_up_run ws fuel ts tl w :
  first_worker_free (store w) →
  Forall (λ t, is_Some (prompt t)) ts → last ts = Some tl → has_prompt tl →
  ∃ o w' new,
    executeTasks (Fixtures.daemons agent) (0%nat :: ws) (S (S (S fuel))) ts w
    = Returned ([o], w') ∧
    o_task o = tl ∧ o_workerId o = 0%nat ∧ faithful_outcome agent o ∧
    dispatched w' = dispatched w ++ new ∧
    new.*1 = replicate (length ts) 0%nat ∧
    (λ d, t_prompt d.2) <$> new = prompt <$> ts.
Proof.
  intros (r0 & rest & Hst & Hrest) Hts Hlast (pl & Hpl & Hne).
  destruct w as [st c k id log]. simpl in Hst. subst st.
  assert (ts ≠ []) as Hnil by (by intros ->).
  destruct (assign_loop_piles_up ws ts [] None r0 NoLock rest c k id log Hts
              Hnil ltac:(left; reflexivity))
    as (tl' & pl' & lastId & w1 & new & Hl & Hpl' & Hrun & Hst1 & Hlog & Hw & Hpr).
  rewrite Hlast in Hl. injection Hl as <-.
  rewrite Hpl in Hpl'. injection Hpl' as <-.
  destruct w1 as [st1 c1 k1 id1 log1]. simpl in Hst1, Hlog. subst st1 log1.
  pose proof (λ n ms st r, daemons_timer_runs agent n ms
                (mkTask (Some lastId) (Some pl) (context tl)) st r
                (Worker.command_substitution pl) rest
                (prompt_of_Some (mkTask (Some lastId) (Some pl) (context tl))
                   pl eq_refl) Hne Hrest) as Hd.
  exists (mkOutcome 0 lastId tl
            (Some (result_of (Fixtures.quiet agent)
                     (mkTask (Some lastId) (Some pl) (context tl))
                     (Worker.command_substitution pl)))
            (st_state (terminal_of (Fixtures.quiet agent)
                     (mkTask (Some lastId) (Some pl) (context tl))
                     (Worker.command_substitution pl)))).
  eexists _, new.
  split; [|split; [reflexivity|split; [reflexivity|split;
    [|split; [|split; [exact Hw|exact Hpr]]]]]].
  - unfold executeTasks.
    rewrite executeTasks_loop_S.
    rewrite (bool_decide_eq_true_2 (0 < length ts)%nat)
      by (destruct ts; [done|simpl; lia]).
    rewrite Hrun. cbn [orb].
    rewrite (bool_decide_eq_true_2 (0 < length [(0%nat, (lastId, tl))])%nat)
      by (simpl; lia).
    set (a := [(0%nat, (lastId, tl))]).
    set (tk := mkTask (Some lastId) (Some pl) (context tl)) in *.
    assert (∀ W, st_state (status (store W !!! 0%nat)) = idle →
                 collect_loop (map_keys a) a [] W = Returned ((a, []), W)) as Hc1.
    { intros W HW. unfold a. simpl. unfold mbind, Js_bind. simpl.
      by rewrite HW. }
    rewrite Hc1 by reflexivity.
    cbn [store tick clock nextId dispatched]. rewrite Hd.
    rewrite executeTasks_loop_S.
    rewrite (bool_decide_eq_true_2 (0 < length a)%nat) by (simpl; lia).
    rewrite orb_true_r.
    change (assign_loop (Fixtures.daemons agent) (0%nat :: ws) [] a ?W)
      with (@Returned (list Task * Active * World) ([], a, W)).
    cbv beta iota.
    rewrite (bool_decide_eq_true_2 (0 < length a)%nat) by (simpl; lia).
    set (res := result_of (Fixtures.quiet agent) tk
                  (Worker.command_substitution pl)).
    set (term := terminal_of (Fixtures.quiet agent) tk
                   (Worker.command_substitution pl)).
    assert (∀ r c k id log,
              collect_loop (map_keys a) a []
                (mkWorld (mkSlot None term r NoLock :: rest) c k id log)
              = Returned (([], [mkOutcome 0 lastId tl r (st_state term)]),
                          mkWorld (mkSlot None (mkStatus idle None) r NoLock :: rest)
                            c k id log)) as Hc2.
    { intros r c' k' id' log'. unfold a, term, terminal_of. simpl.
      unfold mbind, Js_bind. simpl.
      destruct (Worker.exit_ok (agent (Worker.command_substitution pl)));
        reflexivity. }
    rewrite Hc2.
    cbn [store tick clock nextId dispatched].
    rewrite daemons_timer_rests by (by constructor).
    rewrite executeTasks_loop_S. reflexivity.
  - exists pl. split; [exact Hpl|]. split; reflexivity.
  - reflexivity.
Qed.

(** A daemon that finds a task without prompt removes it and goes on. *)
Lemma daemon_round_skips i tk st r :
  Worker.prompt_of tk = EmptyString →
  Fixtures.daemon_round agent i (mkSlot (Some tk) st r NoLock) =
    mkSlot None st r NoLock.
Proof.
  intros Hp.
  unfold Fixtures.daemon_round, Worker.main_round, mbind, Worker.Sh_bind,
    Worker.read.
  cbv beta iota delta [task].
  erewrite process_task_skip; [reflexivity|reflexivity|reflexivity|done].
Qed.

(** Once the only active worker is idle again with nothing collected, the
    outer loop of [executeTasks] polls for ever. *)
Lemma executeTasks_loop_polls_for_ever ws v r rest :
  Forall (λ s, task s = None) rest →
  ∀ fuel c k id log,
    executeTasks_loop (Fixtures.daemons agent) (0%nat :: ws) fuel []
      [(0%nat, v)] []
      (mkWorld (mkSlot None (mkStatus idle None) r NoLock :: rest) c k id log)
    = OutOfFuel.
Proof.
  intros Hrest. induction fuel as [|fuel IH]; intros c k id log; [done|].
  rewrite executeTasks_loop_S. simpl.
  unfold mbind, Js_bind. simpl. destruct v as [taskId t].
  change (imap (Fixtures.daemon_round agent ∘ S) rest)
    with (imap (λ i, Fixtures.daemon_round agent (S i)) rest).
  rewrite (imap_rests (λ i, Fixtures.daemon_round agent (S i)) rest)
    by (done || (intros i s; apply daemon_round_rests)).
  rewrite daemon_round_rests by done. apply IH.
Qed.

End healthy_pool.

(** X18. Let worker 0 be idle, without task and lock, let no other worker
    have a task waiting, and let the worker daemons of [worker.sh] run
    while the orchestrator sleeps on a timer, and only then.  Then for
    every array of tasks whose prompts are not empty once the NUL bytes
    and the trailing newlines are taken away, as the worker reads them,
    [executeSequential] returns; every outcome comes from worker 0 and
    reports what the agent did with the prompt so read (stdout, exit
    status, stderr, task id); the outcomes follow the order of the array;
    and there is one for every task unless a task with [stopOnError]
    fails. *)
Theorem executeSequential_with_healthy_worker
    (agent : string → Worker.AgentRun) (ws : list nat) (pollMs : Z)
    (fuel : nat) (tasks : list Orchestrator.Task) (w : Orchestrator.World) :
  first_worker_free (Orchestrator.store w) →
  Forall has_prompt tasks → (2 ≤ fuel)%nat →
  ∃ out w',
    Orchestrator.executeSequential (Fixtures.daemons agent) (0%nat :: ws)
      pollMs fuel tasks w = Orchestrator.Returned (out, w') ∧
    Forall (faithful_outcome agent) out ∧
    Forall (λ o, Orchestrator.o_workerId o = 0%nat) out ∧
    Orchestrator.o_task <$> out = take (length out) tasks ∧
    ((∀ t p, t ∈ tasks → Orchestrator.stopOnError t = true →
             Orchestrator.prompt t = Some p →
             Worker.exit_ok (run_on agent p) = true) →
     length out = length tasks).
Proof.
  intros Hw Htasks Hfuel.
  do 2 (destruct fuel as [|fuel]; [lia|]).
  destruct (executeSequential_loop_healthy agent pollMs ws fuel tasks [] w
              Htasks Hw) as (out & w' & Hrun & Hgood & Hwk).
  rewrite app_nil_l in Hrun.
  exists out, w'. split; [exact Hrun|]. split; [exact Hgood|].
  split; [exact Hwk|].
  pose proof Hrun as (ext & Hext & Hshape & _)%executeSequential_loop_shape.
  rewrite app_nil_l in Hext. subst ext.
  destruct Hshape as (Horder & _ & _ & Hlast & _).
  split; [exact Horder|]. intros Hok.
  assert (length out ≤ length tasks)%nat as Hle.
  { apply (f_equal length) in Horder.
    rewrite length_fmap, length_take in Horder. lia. }
  destruct (decide (length out < length tasks)%nat) as [Hlt|]; [|lia].
  exfalso. destruct (Hlast Hlt) as (o & Ho & Hstop & r & Hr & Hfail).
  apply last_Some_elem_of in Ho.
  rewrite Forall_forall in Hgood. destruct (Hgood o Ho) as (p & Hp & Hres & _).
  assert (Orchestrator.o_task o ∈ tasks) as Hin.
  { assert (Orchestrator.o_task o ∈ Orchestrator.o_task <$> out) as Hin
      by by apply list_elem_of_fmap_2.
    rewrite Horder in Hin. apply elem_of_take in Hin as (i & Hi & _).
    by eapply list_elem_of_lookup_2. }
  specialize (Hok _ p Hin Hstop Hp).
  rewrite Hres in Hr. injection Hr as <-. simpl in Hfail. congruence.
Qed.

Lemma executeSequential_with_healthy_worker_witness :
  let tasks := [Fixtures.job "A" true;
                Fixtures.job ("B" +:+ String Worker.newline EmptyString)
                  false] in
  ∃ out w',
    Orchestrator.executeSequential (Fixtures.daemons Fixtures.agent_ok)
      [0; 1]%nat 1000 2 tasks
      (Fixtures.start [Fixtures.fresh; Fixtures.fresh])
    = Orchestrator.Returned (out, w') ∧
    Forall (faithful_outcome Fixtures.agent_ok) out ∧
    Forall (λ o, Orchestrator.o_workerId o = 0%nat) out ∧
    Orchestrator.o_task <$> out = take (length out) tasks ∧
    ((∀ t p, t ∈ tasks →
             Orchestrator.stopOnError t = true →
             Orchestrator.prompt t = Some p →
             Worker.exit_ok (run_on Fixtures.agent_ok p) = true) →
     length out = 2%nat).
Proof.
  intros tasks.
  apply (executeSequential_with_healthy_worker Fixtures.agent_ok [1%nat] 1000 2
           tasks (Fixtures.start [Fixtures.fresh; Fixtures.fresh])).
  - exists None, [Fixtures.fresh]. split; [reflexivity|].
    repeat constructor.
  - repeat constructor; eexists;
      (split; [reflexivity|vm_compute; discriminate]).
  - lia.
Defined.

(** X19. Let worker 0 be idle, without task and lock, let no other worker
    have a task waiting, and let the worker daemons run only while the
    orchestrator sleeps on its timer.  Let every task have a prompt, and
    let the prompt of the last task not be empty once the NUL bytes and
    the trailing newlines are taken away, as the worker reads it.  Then
    however many tasks [executeTasks] is given, and however many workers
    there are, it writes every task to worker 0, each over the one before,
    and returns a single outcome: that of the last task. *)
Theorem executeTasks_piles_up
    (agent : string → Worker.AgentRun) (ws : list nat) (fuel : nat)
    (tasks : list Orchestrator.Task) (tl : Orchestrator.Task)
    (w : Orchestrator.World) :
  first_worker_free (Orchestrator.store w) →
  Forall (λ t, is_Some (Orchestrator.prompt t)) tasks →
  last tasks = Some tl → has_prompt tl → (3 ≤ fuel)%nat →
  ∃ o w' new,
    Orchestrator.executeTasks (Fixtures.daemons agent) (0%nat :: ws) fuel tasks w
    = Orchestrator.Returned ([o], w') ∧
    Orchestrator.o_task o = tl ∧ Orchestrator.o_workerId o = 0%nat ∧
    faithful_outcome agent o ∧
    Orchestrator.dispatched w' = Orchestrator.dispatched w ++ new ∧
    new.*1 = replicate (length tasks) 0%nat ∧
    (λ d, t_prompt d.2) <$> new = Orchestrator.prompt <$> tasks.
Proof.
  intros Hw Htasks Hlast Htl Hfuel.
  do 3 (destruct fuel as [|fuel]; [lia|]).
  by apply executeTasks_piles_up_run.
Qed.

Lemma executeTasks_piles_up_witness :
  ∃ o w' new,
    Orchestrator.executeTasks (Fixtures.daemons Fixtures.agent_ok)
      [0; 1; 2]%nat 3
      [Fixtures.job "A" false; Fixtures.job "B" false; Fixtures.job "C" false]
      (Fixtures.start [Fixtures.fresh; Fixtures.fresh; Fixtures.fresh])
    = Orchestrator.Returned ([o], w') ∧
    Orchestrator.o_task o = Fixtures.job "C" false ∧
    Orchestrator.o_workerId o = 0%nat ∧
    faithful_outcome Fixtures.agent_ok o ∧
    Orchestrator.dispatched w' = [] ++ new ∧
    new.*1 = replicate 3 0%nat ∧
    (λ d, t_prompt d.2) <$> new = [Some "A"; Some "B"; Some "C"].
Proof.
  apply (executeTasks_piles_up Fixtures.agent_ok [1; 2]%nat 3
           [Fixtures.job "A" false; Fixtures.job "B" false; Fixtures.job "C" false]
           (Fixtures.job "C" false)
           (Fixtures.start [Fixtures.fresh; Fixtures.fresh; Fixtures.fresh])).
  - exists None, [Fixtures.fresh; Fixtures.fresh]. split; [reflexivity|].
    repeat constructor.
  - repeat constructor; eexists; reflexivity.
  - reflexivity.
  - eexists. split; [reflexivity|vm_compute; discriminate].
  - lia.
Defined.

(** X20. In the same setting, when the prompt of the last task is the
    empty string, the daemon of worker 0 discards the task without writing
    a status, and [executeTasks] polls for ever: it neither returns nor
    throws. *)
Theorem executeTasks_never_returns_on_empty_prompt
    (agent : string → Worker.AgentRun) (ws : list nat)
    (tasks : list Orchestrator.Task) (tl : Orchestrator.Task)
    (w : Orchestrator.World) :
  first_worker_free (Orchestrator.store w) →
  Forall (λ t, is_Some (Orchestrator.prompt t)) tasks →
  last tasks = Some tl → Orchestrator.prompt tl = Some EmptyString →
  ∀ fuel,
    Orchestrator.executeTasks (Fixtures.daemons agent) (0%nat :: ws) fuel tasks w
    = Orchestrator.OutOfFuel.
Proof.
  intros (r0 & rest & Hst & Hrest) Hts Hlast Hpl fuel.
  destruct w as [st c k id log]. simpl in Hst. subst st.
  destruct fuel as [|fuel]; [done|].
  assert (tasks ≠ []) as Hnil by (by intros ->).
  destruct (assign_loop_piles_up agent ws tasks [] None r0 NoLock rest c k id log
              Hts Hnil ltac:(left; reflexivity))
    as (tl' & pl' & lastId & w1 & new & Hl & Hpl' & Hrun & Hst1 & _).
  rewrite Hlast in Hl. injection Hl as <-.
  rewrite Hpl in Hpl'. injection Hpl' as <-.
  destruct w1 as [st1 c1 k1 id1 log1]. simpl in Hst1. subst st1.
  unfold Orchestrator.executeTasks.
  rewrite executeTasks_loop_S.
  rewrite (bool_decide_eq_true_2 (0 < length tasks)%nat)
    by (destruct tasks; [done|simpl; lia]).
  rewrite Hrun. cbn [orb].
  rewrite (bool_decide_eq_true_2 (0 < length [(0%nat, (lastId, tl))])%nat)
    by (simpl; lia).
  simpl Orchestrator.collect_loop. unfold mbind, Orchestrator.Js_bind.
  simpl.
  change (imap (Fixtures.daemon_round agent ∘ S) rest)
    with (imap (λ i, Fixtures.daemon_round agent (S i)) rest).
  rewrite (imap_rests (λ i, Fixtures.daemon_round agent (S i)) rest)
    by (done || (intros i s; apply daemon_round_rests)).
  rewrite daemon_round_skips by reflexivity.
  by apply executeTasks_loop_polls_for_ever.
Qed.

Lemma executeTasks_never_returns_on_empty_prompt_witness :
  Orchestrator.executeTasks (Fixtures.daemons Fixtures.agent_ok) [0%nat] 50
    [Fixtures.job "" false] (Fixtures.start [Fixtures.fresh])
  = Orchestrator.OutOfFuel.
Proof.
  apply (executeTasks_never_returns_on_empty_prompt Fixtures.agent_ok []
           [Fixtures.job "" false] (Fixtures.job "" false)
           (Fixtures.start [Fixtures.fresh])).
  - exists None, []. split; [reflexivity|constructor].
  - repeat constructor. eexists; reflexivity.
  - reflexivity.
  - reflexivity.
Defined.

(** ** A status left over from an earlier task *)

Section stale_status.
Import Orchestrator.
Context (env : Env) (ws : list nat) (i : nat).
Hypothesis Hquiet : ∀ n st, env n Microtask st = st.

Lemma done_has_directory (st : list Slot) :
  st_state (status (st !!! i)) = done → (i < length st)%nat.
Proof.
  intros Hd. destruct (decide (i < length st)%nat) as [|Hge]; [done|].
  rewrite list_lookup_total_alt, lookup_ge_None_2 in Hd by lia. done.
Qed.

Lemma assign_loop_stale ts : ∀ (a : Active) w,
  Forall (λ t, is_Some (prompt t)) ts → ts ≠ [] →
  (a = [] ∨ ∃ v, a = [(i, v)]) →
  st_state (status (store w !!! i)) = done →
  ∃ tl lastId w',
    last ts = Some tl ∧
    assign_loop env (i :: ws) ts a w = Returned (([], [(i, (lastId, tl))]), w') ∧
    st_state (status (store w' !!! i)) = done ∧
    result (store w' !!! i) = None ∧
    task (store w' !!! i)
      = Some (mkTask (Some lastId) (prompt tl) (context tl)) ∧
    clock w' = clock w.
Proof.
  induction ts as [|t ts IH]; intros a w Hts Hne Ha Hd; [done|].
  apply Forall_cons in Hts as [[p Hp] Hts].
  destruct t as [pr ctx stop]. simpl in Hp. subst pr.
  pose proof (done_has_directory _ Hd) as Hlt.
  assert (map_set i (nextId w, mkJob (Some p) ctx stop) a
          = [(i, (nextId w, mkJob (Some p) ctx stop))]) as Hset.
  { destruct Ha as [->|[v ->]]; [done|]. simpl.
    by rewrite bool_decide_eq_true_2. }
  set (w1 := mkWorld
               (alter (set_task (Some (mkTask (Some (nextId w)) (Some p) ctx))) i
                  (alter (set_result None) i (store w)))
               (clock w + 0 + 0) (S (S (tick w))) (nextId w + 1)
               (dispatched w ++ [(i, mkTask (Some (nextId w)) (Some p) ctx)])).
  assert (assign_loop env (i :: ws) (mkJob (Some p) ctx stop :: ts) a w
          = assign_loop env (i :: ws) ts
              [(i, (nextId w, mkJob (Some p) ctx stop))] w1) as Hstep.
  { cbn [assign_loop]. unfold await, findIdleWorker, mbind, Js_bind, mret, Js_ret.
    cbn [List.find]. unfold available at 1. rewrite Hd.
    rewrite (bool_decide_eq_true_2 (done = done)) by done. rewrite orb_true_r.
    unfold clearResult, writeTask, suspend, with_store, mbind, Js_bind, mret, Js_ret.
    cbn [store clock tick nextId dispatched prompt context].
    rewrite !Hquiet. unfold assignTask, clearResult, writeTask, with_store, mbind, Js_bind.
    cbn [store clock tick nextId dispatched].
    rewrite !Hquiet, Hset. reflexivity. }
  rewrite Hstep.
  assert (st_state (status (store w1 !!! i)) = done ∧
          result (store w1 !!! i) = None ∧
          task (store w1 !!! i) = Some (mkTask (Some (nextId w)) (Some p) ctx) ∧
          clock w1 = clock w)
    as (Hd1 & Hr1 & Ht1 & Hc1).
  { unfold w1. cbn [store clock].
    rewrite !list_lookup_total_alter_eq by (rewrite ?length_alter; lia).
    split; [by destruct (store w !!! i)|]. by repeat split; try lia. }
  destruct ts as [|t' ts'].
  - exists (mkJob (Some p) ctx stop), (nextId w), w1. by repeat split.
  - destruct (IH [(i, (nextId w, mkJob (Some p) ctx stop))] w1 Hts
                ltac:(discriminate) ltac:(right; eexists; reflexivity) Hd1)
      as (tl & lastId & w' & Hl & Hrun & ? & ? & ? & Hc).
    exists tl, lastId, w'. split; [done|]. split; [exact Hrun|].
    split; [done|]. split; [done|]. split; [done|]. by rewrite Hc.
Qed.

Lemma executeTasks_stale_done fuel ts tl w :
  st_state (status (store w !!! i)) = done →
  Forall (λ t, is_Some (prompt t)) ts → last ts = Some tl →
  ∃ lastId w',
    executeTasks env (i :: ws) (S (S fuel)) ts w
    = Returned ([mkOutcome i lastId tl None done], w') ∧
    clock w' = clock w + 500.
Proof.
  intros Hd Hts Hlast.
  assert (ts ≠ []) as Hnil by (by intros ->).
  destruct (assign_loop_stale ts [] w Hts Hnil ltac:(left; reflexivity) Hd)
    as (tl' & lastId & w1 & Hl & Hrun & Hd1 & Hr1 & _ & Hc1).
  rewrite Hlast in Hl. injection Hl as <-.
  exists lastId. eexists. split.
  - unfold executeTasks. rewrite executeTasks_loop_S.
    rewrite (bool_decide_eq_true_2 (0 < length ts)%nat)
      by (destruct ts; [done|simpl; lia]).
    rewrite Hrun. cbn [orb].
    rewrite (bool_decide_eq_true_2 (0 < length [(i, (lastId, tl))])%nat)
      by (simpl; lia).
    cbn [map_keys fmap list_fmap fst collect_loop].
    unfold readStatus, getResult, readResult, mbind, Js_bind.
    rewrite Hd1.
    rewrite (bool_decide_eq_true_2 (done = done)) by done.
    cbn [orb]. unfold map_get. cbn [List.find fst].
    rewrite (bool_decide_eq_true_2 (i = i)) by done.
    cbn [fmap option_fmap option_map snd]. rewrite Hr1.
    unfold writeStatus, map_delete, mret, Js_ret.
    cbn [List.filter fst].
    rewrite (bool_decide_eq_true_2 (i = i)) by done.
    cbn [negb app].
    rewrite executeTasks_loop_S. reflexivity.
  - cbn [clock with_store]. lia.
Qed.

End stale_status.

(** X21. [findIdleWorker] takes a worker whose status is [done] for
    available, and [executeTasks] reads the status again before the worker
    can have touched it.  So when the first worker of [this.workers] is
    [done] at the call and the workers do nothing within a microtask,
    [executeTasks] hands it every task, takes the old [done] for the
    completion of the last one, and returns after a single timer of 500 ms
    one outcome with status [done] and no result, whatever the worker does
    with the task afterwards. *)
Theorem executeTasks_takes_stale_done
    (env : Orchestrator.Env) (ws : list nat) (i : nat) (fuel : nat)
    (tasks : list Orchestrator.Task) (tl : Orchestrator.Task)
    (w : Orchestrator.World) :
  (∀ n st, env n Orchestrator.Microtask st = st) →
  st_state (status (Orchestrator.store w !!! i)) = done →
  Forall (λ t, is_Some (Orchestrator.prompt t)) tasks →
  last tasks = Some tl → (2 ≤ fuel)%nat →
  ∃ taskId w',
    Orchestrator.executeTasks env (i :: ws) fuel tasks w
    = Orchestrator.Returned ([Orchestrator.mkOutcome i taskId tl None done], w') ∧
    Orchestrator.clock w' = Orchestrator.clock w + 500.
Proof.
  intros Hquiet Hd Hts Hlast Hfuel.
  do 2 (destruct fuel as [|fuel]; [lia|]).
  by apply executeTasks_stale_done.
Qed.

Lemma executeTasks_takes_stale_done_witness :
  ∃ taskId w',
    Orchestrator.executeTasks (Fixtures.daemons Fixtures.agent_ok) [0; 1]%nat 2
      [Fixtures.job "A" false; Fixtures.job "B" false]
      (Fixtures.start [Fixtures.finished; Fixtures.fresh])
    = Orchestrator.Returned
        ([Orchestrator.mkOutcome 0 taskId (Fixtures.job "B" false) None done], w') ∧
    Orchestrator.clock w' = 0 + 500.
Proof.
  apply (executeTasks_takes_stale_done (Fixtures.daemons Fixtures.agent_ok)
           [1%nat] 0 2 [Fixtures.job "A" false; Fixtures.job "B" false]
           (Fixtures.job "B" false)
           (Fixtures.start [Fixtures.finished; Fixtures.fresh])).
  - reflexivity.
  - reflexivity.
  - repeat constructor; eexists; reflexivity.
  - reflexivity.
  - lia.
Defined.

(** ** The helpers of [orchestrator-helper.js] *)

Section helper_facts.
Import Orchestrator Helper.
Context (env : Env) (initQueue : Js unit) (createWorker : nat → Js unit).

Lemma constructor_loop_workers todo : ∀ i ws w out w',
  constructor_loop createWorker todo i ws w = Returned (out, w') →
  out = ws ++ seq i todo.
Proof.
  induction todo as [|todo IH]; intros i ws w out w' H; simpl in H.
  - injection H as <- _. by rewrite app_nil_r.
  - unfold mbind, Js_bind in H.
    destruct (createWorker i w) as [[[] w1]| |]; [|done|done].
    apply IH in H. by rewrite H, <- app_assoc.
Qed.

Lemma new_Orchestrator_workers n w ws w' :
  new_Orchestrator initQueue createWorker n w = Returned (ws, w') →
  ws = pool n.
Proof.
  unfold new_Orchestrator, mbind, Js_bind.
  destruct (initQueue w) as [[[] w1]| |]; [|done|done].
  by intros ->%constructor_loop_workers.
Qed.

Lemma plain_heading_reads_only : reads_only plain_heading.
Proof. intros j w a w' H. by injection H as _ ->. Qed.

Lemma step_heading_reads_only steps : reads_only (step_heading steps).
Proof.
  intros j w a w' H. unfold step_heading in H.
  destruct (steps !! j); [|done]. by injection H as _ ->.
Qed.

Lemma report_returns heading results : reads_only heading → ∀ i w u w',
  report heading i results w = Returned (u, w') →
  w' = w ∧ Forall (λ o, is_Some (o_result o)) results.
Proof.
  intros Hh. induction results as [|o results IH]; intros i w u w' H; simpl in H.
  - injection H as _ ->. by split.
  - unfold mbind, Js_bind in H.
    destruct (heading i w) as [[[] w1]| |] eqn:Hi; [|done|done].
    apply Hh in Hi as ->. unfold output_of in H.
    destruct (o_result o) as [r|] eqn:Hr; [|done]. simpl in H.
    apply IH in H as [-> Hall]. split; [done|].
    constructor; [by rewrite Hr|done].
Qed.

Lemma report_plain results : Forall (λ o, is_Some (o_result o)) results →
  ∀ i w, report plain_heading i results w = Returned (tt, w).
Proof.
  induction 1 as [|o results [r Hr] _ IH]; intros i w; [done|].
  simpl. unfold mbind, Js_bind, output_of. simpl. rewrite Hr. simpl. apply IH.
Qed.

Lemma shutdown_leaves_idle ids w w' j :
  shutdown ids w = Returned (tt, w') → j ∈ ids →
  status (store w' !!! j) = mkStatus idle None.
Proof.
  intros H Hj. destruct (shutdown_loop_world ids w) as (st & Hrun & _ & Hst).
  unfold shutdown in H. rewrite Hrun in H. injection H as <-. simpl.
  rewrite list_lookup_total_alt, Hst, bool_decide_eq_true_2 by done.
  by destruct (store w !! j).
Qed.

Lemma framed_returns exec heading n w out w' :
  reads_only heading →
  framed env initQueue createWorker exec heading n w = Returned (out, w') →
  ∃ w1 w2, new_Orchestrator initQueue createWorker n w = Returned (pool n, w1) ∧
           exec (pool n) w1 = Returned (out, w2) ∧
           Forall (λ o, is_Some (o_result o)) out ∧
           ∀ j, (j < n)%nat → status (store w' !!! j) = mkStatus idle None.
Proof.
  intros Hh H. unfold framed, mbind, Js_bind in H.
  destruct (new_Orchestrator initQueue createWorker n w) as [[ws w1]| |] eqn:Hn;
    [|done|done].
  pose proof (new_Orchestrator_workers _ _ _ _ Hn) as ->.
  unfold await, mbind, Js_bind in H.
  destruct (exec (pool n) w1) as [[res w2]| |] eqn:He; [|done|done].
  simpl in H.
  match type of H with
  | match report _ _ _ ?W with _ => _ end = _ =>
      destruct (report heading 0 res W) as [[[] w3]| |] eqn:Hr; [|done|done]
  end.
  apply report_returns in Hr as [-> Hall]; [|done].
  match type of H with
  | match shutdown ?ids ?W with _ => _ end = _ =>
      destruct (shutdown ids W) as [[[] w4]| |] eqn:Hs; [|done|done]
  end.
  injection H as <- <-.
  exists w1, w2. split; [done|]. split; [done|]. split; [done|].
  intros j Hj. eapply shutdown_leaves_idle; [exact Hs|].
  apply list_elem_of_In, in_seq. lia.
Qed.

Lemma framed_runs exec n w ws w1 out w2 :
  new_Orchestrator initQueue createWorker n w = Returned (ws, w1) →
  exec ws w1 = Returned (out, w2) →
  Forall (λ o, is_Some (o_result o)) out →
  ∃ w', framed env initQueue createWorker exec plain_heading n w
        = Returned (out, w').
Proof.
  intros Hn He Hall. unfold framed, await, mbind, Js_bind.
  rewrite Hn, He. simpl. rewrite report_plain by done.
  destruct (shutdown_loop_world ws
              (mkWorld (env (tick w2) Microtask (store w2)) (clock w2 + 0)
                 (S (tick w2)) (nextId w2) (dispatched w2)))
    as (st & Hrun & _).
  unfold shutdown. rewrite Hrun. by eexists.
Qed.

End helper_facts.

(** X22. When [sequentialPipeline] returns, its outcomes are those of an
    initial part of the steps, each with a result record, and every worker
    of the pool is idle.  A step stops the pipeline unless it says
    [stopOnError: false]: when outcomes are missing, the step of the last
    outcome does not carry [stopOnError: false] and its result has
    [success] false; and every step before the last outcome either carries
    [stopOnError: false] or has succeeded. *)
Theorem sequentialPipeline_stops_by_default
    (env : Orchestrator.Env) (pollMs : Z) (initQueue : Orchestrator.Js unit)
    (createWorker : nat → Orchestrator.Js unit) (fuel : nat)
    (steps : list Helper.Step) (numWorkers : nat)
    (w w' : Orchestrator.World) (out : list Orchestrator.Outcome) :
  Helper.sequentialPipeline env pollMs initQueue createWorker fuel steps
    numWorkers w = Orchestrator.Returned (out, w') →
  Orchestrator.o_task <$> out
    = take (length out) (Helper.pipeline_task <$> steps) ∧
  Forall (λ o, is_Some (Orchestrator.o_result o)) out ∧
  (∀ j, (j < numWorkers)%nat →
        status (Orchestrator.store w' !!! j) = mkStatus idle None) ∧
  ((length out < length steps)%nat →
   ∃ o step r, last out = Some o ∧
               steps !! pred (length out) = Some step ∧
               Helper.s_stopOnError step ≠ Some false ∧
               Orchestrator.o_result o = Some r ∧ r_success r = false) ∧
  (∀ j o step r, out !! j = Some o → steps !! j = Some step →
                 (S j < length out)%nat → Orchestrator.o_result o = Some r →
                 Helper.s_stopOnError step = Some false ∨ r_success r = true).
Proof.
  intros H.
  apply (framed_returns env initQueue createWorker
           (λ workers, Orchestrator.executeSequential env workers pollMs fuel
                         (Helper.pipeline_task <$> steps))
           (Helper.step_heading steps)) in H
    as (w1 & w2 & _ & Hrun & Hall & Hidle);
    [|apply step_heading_reads_only].
  unfold Orchestrator.executeSequential in Hrun.
  apply executeSequential_loop_shape in Hrun as (ext & Hout & Hshape & _).
  rewrite app_nil_l in Hout. subst ext.
  destruct Hshape as (Horder & _ & _ & Hlast & Hmid).
  assert (∀ j o step, out !! j = Some o → steps !! j = Some step →
                      Orchestrator.o_task o = Helper.pipeline_task step) as Hat.
  { intros j o step Ho Hs.
    assert ((Orchestrator.o_task <$> out) !! j = Some (Orchestrator.o_task o))
      as Hj by by rewrite list_lookup_fmap, Ho.
    rewrite Horder in Hj. apply lookup_take_Some in Hj as [Hj _].
    rewrite list_lookup_fmap, Hs in Hj. by injection Hj. }
  split; [exact Horder|]. split; [exact Hall|]. split; [exact Hidle|]. split.
  - intros Hlt. rewrite length_fmap in Hlast.
    destruct (Hlast Hlt) as (o & Ho & Hstop & r & Hr & Hfail).
    assert (is_Some (steps !! pred (length out))) as [step Hs]
      by (apply lookup_lt_is_Some_2; lia).
    exists o, step, r. split; [done|]. split; [done|].
    split; [|by split].
    rewrite last_lookup in Ho. rewrite (Hat _ _ _ Ho Hs) in Hstop.
    intros Hf. unfold Helper.pipeline_task in Hstop. rewrite Hf in Hstop.
    done.
  - intros j o step r Ho Hs Hj Hr.
    destruct (Helper.s_stopOnError step) as [[]|] eqn:Hstop;
      [right|by left|right];
      (destruct (r_success r) eqn:Hsucc; [done|]; exfalso;
       apply (Hmid j o Ho Hj); split;
       [rewrite (Hat _ _ _ Ho Hs); unfold Helper.pipeline_task;
        by rewrite Hstop
       |by exists r]).
Qed.

Lemma sequentialPipeline_stops_by_default_witness :
  let steps := [Helper.mkStep None (Some "A") None None;
                Helper.mkStep (Some "second") (Some "B") None None] in
  let out := [Orchestrator.mkOutcome 0 1 (Orchestrator.mkJob (Some "A") [] true)
                (Some (mkResult (Some 1) "" false (Some "boom"))) error] in
  ∃ w',
  Orchestrator.o_task <$> out
    = take (length out) (Helper.pipeline_task <$> steps) ∧
  Forall (λ o, is_Some (Orchestrator.o_result o)) out ∧
  (∀ j, (j < 2)%nat →
        status (Orchestrator.store w' !!! j) = mkStatus idle None) ∧
  ((length out < length steps)%nat →
   ∃ o step r, last out = Some o ∧
               steps !! pred (length out) = Some step ∧
               Helper.s_stopOnError step ≠ Some false ∧
               Orchestrator.o_result o = Some r ∧ r_success r = false) ∧
  (∀ j o step r, out !! j = Some o → steps !! j = Some step →
                 (S j < length out)%nat → Orchestrator.o_result o = Some r →
                 Helper.s_stopOnError step = Some false ∨ r_success r = true).
Proof.
  intros steps out. eexists.
  eapply (sequentialPipeline_stops_by_default
            (Fixtures.daemons Fixtures.agent_fails) 1000
            Fixtures.initQueue_done Fixtures.createWorker_done 10 steps 2
            (Fixtures.start [Fixtures.fresh; Fixtures.fresh])).
  vm_compute. reflexivity.
Defined.

(** Without [stopOnError] the loop of [executeSequential] goes through the
    whole array. *)
Lemma executeSequential_goes_through env workers pollMs fuel tasks w out w' :
  Orchestrator.executeSequential env workers pollMs fuel tasks w
    = Orchestrator.Returned (out, w') →
  Forall (λ t, Orchestrator.stopOnError t = false) tasks →
  Orchestrator.o_task <$> out = tasks.
Proof.
  intros Hrun Hnever.
  unfold Orchestrator.executeSequential in Hrun.
  apply executeSequential_loop_shape in Hrun as (ext & Hout & Hshape & _).
  rewrite app_nil_l in Hout. subst ext.
  destruct Hshape as (Horder & _ & _ & Hlast & _).
  assert (length out ≤ length tasks)%nat as Hle.
  { apply (f_equal length) in Horder.
    rewrite length_fmap, length_take in Horder. lia. }
  destruct (decide (length out < length tasks)%nat) as [Hlt|Hge].
  - exfalso. destruct (Hlast Hlt) as (o & Ho & Hstop & _).
    apply last_Some_elem_of in Ho.
    assert (Orchestrator.o_task o ∈ tasks) as Hin.
    { assert (Orchestrator.o_task o ∈ Orchestrator.o_task <$> out) as Hin
        by by apply list_elem_of_fmap_2.
      rewrite Horder in Hin. apply elem_of_take in Hin as (k & Hk & _).
      by eapply list_elem_of_lookup_2. }
    rewrite Forall_forall in Hnever. rewrite (Hnever _ Hin) in Hstop. done.
  - rewrite Horder. apply take_ge. lia.
Qed.

Lemma subtasks_never_stop mainGoal :
  Forall (λ t, Orchestrator.stopOnError t = false)
    (Helper.subtask_task mainGoal <$> Helper.subtasks).
Proof. by repeat constructor. Qed.

(** X23. When [decomposeAndExecute] returns, it returns one outcome for
    each of its five subtasks, in their order and with the main goal as
    context, whether the subtasks succeeded or not; every outcome has a
    result record, and every worker of the pool is idle. *)
Theorem decomposeAndExecute_runs_all_subtasks
    (env : Orchestrator.Env) (pollMs : Z) (initQueue : Orchestrator.Js unit)
    (createWorker : nat → Orchestrator.Js unit) (fuel : nat)
    (mainGoal : string) (numWorkers : nat)
    (w w' : Orchestrator.World) (out : list Orchestrator.Outcome) :
  Helper.decomposeAndExecute env pollMs initQueue createWorker fuel mainGoal
    numWorkers w = Orchestrator.Returned (out, w') →
  Orchestrator.o_task <$> out
    = Helper.subtask_task mainGoal <$> Helper.subtasks ∧
  Forall (λ o, is_Some (Orchestrator.o_result o)) out ∧
  (∀ j, (j < numWorkers)%nat →
        status (Orchestrator.store w' !!! j) = mkStatus idle None).
Proof.
  intros H.
  apply (framed_returns env initQueue createWorker
           (λ workers, Orchestrator.executeSequential env workers pollMs fuel
                         (Helper.subtask_task mainGoal <$> Helper.subtasks))
           Helper.plain_heading) in H
    as (w1 & w2 & _ & Hrun & Hall & Hidle);
    [|apply plain_heading_reads_only].
  split; [|by split].
  eapply executeSequential_goes_through;
    [exact Hrun|apply subtasks_never_stop].
Qed.

Lemma decomposeAndExecute_runs_all_subtasks_witness :
  ∃ out w',
  Orchestrator.o_task <$> out
    = Helper.subtask_task "ship it" <$> Helper.subtasks ∧
  Forall (λ o, is_Some (Orchestrator.o_result o)) out ∧
  (∀ j, (j < 1)%nat →
        status (Orchestrator.store w' !!! j) = mkStatus idle None).
Proof.
  eexists _, _.
  eapply (decomposeAndExecute_runs_all_subtasks
            (Fixtures.daemons Fixtures.agent_fails) 1000
            Fixtures.initQueue_done Fixtures.createWorker_done 10 "ship it" 1
            (Fixtures.start [Fixtures.fresh])).
  vm_compute. reflexivity.
Defined.

(** X24. When [parallelTests] returns, every outcome belongs to one of
    the test suites given, comes from a worker of the pool and has a result
    record; there are at most as many outcomes as suites; and every worker
    of the pool is idle. *)
Theorem parallelTests_report
    (env : Orchestrator.Env) (initQueue : Orchestrator.Js unit)
    (createWorker : nat → Orchestrator.Js unit) (fuel : nat)
    (testSuites : list string) (numWorkers : nat)
    (w w' : Orchestrator.World) (out : list Orchestrator.Outcome) :
  Helper.parallelTests env initQueue createWorker fuel testSuites numWorkers w
    = Orchestrator.Returned (out, w') →
  Forall (λ o, (∃ suite, suite ∈ testSuites ∧
                         Orchestrator.o_task o = Helper.test_task suite) ∧
               (Orchestrator.o_workerId o < numWorkers)%nat ∧
               is_Some (Orchestrator.o_result o)) out ∧
  (length out ≤ length testSuites)%nat ∧
  (∀ j, (j < numWorkers)%nat →
        status (Orchestrator.store w' !!! j) = mkStatus idle None).
Proof.
  intros H.
  apply (framed_returns env initQueue createWorker
           (λ workers, Orchestrator.executeTasks env workers fuel
                         (Helper.test_task <$> testSuites))
           Helper.plain_heading) in H
    as (w1 & w2 & _ & Hrun & Hall & Hidle);
    [|apply plain_heading_reads_only].
  pose proof (executeTasks_length_le _ _ _ _ _ _ _ Hrun) as Hle.
  rewrite length_fmap in Hle.
  apply (executeTasks_loop_sound env (Orchestrator.pool numWorkers)
           (Helper.test_task <$> testSuites)) in Hrun;
    [|by intros x Hx|constructor|constructor].
  split; [|by split].
  rewrite Forall_forall in Hrun, Hall. apply Forall_forall. intros o Ho.
  destruct (Hrun o Ho) as (Htask & Hwk & _).
  split; [|split; [|by apply Hall]].
  - apply list_elem_of_fmap in Htask as (suite & ? & ?). by exists suite.
  - apply list_elem_of_In, in_seq in Hwk. lia.
Qed.

Lemma parallelTests_report_witness :
  ∃ out w',
  Forall (λ o, (∃ suite, suite ∈ ["unit"; "e2e"] ∧
                         Orchestrator.o_task o = Helper.test_task suite) ∧
               (Orchestrator.o_workerId o < 2)%nat ∧
               is_Some (Orchestrator.o_result o)) out ∧
  (length out ≤ 2)%nat ∧
  (∀ j, (j < 2)%nat →
        status (Orchestrator.store w' !!! j) = mkStatus idle None).
Proof.
  eexists _, _.
  eapply (parallelTests_report (Fixtures.daemons Fixtures.agent_ok)
            Fixtures.initQueue_done Fixtures.createWorker_done 10
            ["unit"; "e2e"] 2
            (Fixtures.start [Fixtures.fresh; Fixtures.fresh])).
  vm_compute. reflexivity.
Defined.

Lemma pool_S n : Orchestrator.pool (S n) = 0%nat :: seq 1 n.
Proof. reflexivity. Qed.

(** X25. Let the constructor leave worker 0 idle, without task and lock,
    and no other worker with a task waiting, and let the worker daemons run
    while the orchestrator sleeps on its timer.  Then [parallelCodeReview]
    returns a single outcome, whatever the number of files and of workers:
    the review of the last file, by worker 0. *)
Theorem parallelCodeReview_reviews_last_file
    (agent : string → Worker.AgentRun) (initQueue : Orchestrator.Js unit)
    (createWorker : nat → Orchestrator.Js unit) (fuel : nat)
    (files : list string) (file : string) (numWorkers : nat)
    (w w1 : Orchestrator.World) (ws : list nat) :
  Orchestrator.new_Orchestrator initQueue createWorker numWorkers w
    = Orchestrator.Returned (ws, w1) →
  first_worker_free (Orchestrator.store w1) →
  (1 ≤ numWorkers)%nat → last files = Some file → (3 ≤ fuel)%nat →
  ∃ o w',
    Helper.parallelCodeReview (Fixtures.daemons agent) initQueue createWorker
      fuel files numWorkers w = Orchestrator.Returned ([o], w') ∧
    Orchestrator.o_task o = Helper.review_task file ∧
    Orchestrator.o_workerId o = 0%nat ∧
    faithful_outcome agent o.
Proof.
  intros Hn Hfree Hnum Hlast Hfuel.
  pose proof (new_Orchestrator_workers _ _ _ _ _ _ Hn) as ->.
  destruct numWorkers as [|n]; [lia|]. rewrite pool_S in Hn.
  do 3 (destruct fuel as [|fuel]; [lia|]).
  destruct (executeTasks_piles_up_run agent (seq 1 n) fuel
              (Helper.review_task <$> files) (Helper.review_task file) w1 Hfree)
    as (o & w2 & new & Hrun & Htask & Hwk & Hgood & _).
  { apply Forall_forall. intros t (f & -> & _)%list_elem_of_fmap.
    by eexists. }
  { by rewrite fmap_last, Hlast. }
  { eexists. split; [reflexivity|discriminate]. }
  destruct (framed_runs (Fixtures.daemons agent) initQueue createWorker
              (λ workers, Orchestrator.executeTasks (Fixtures.daemons agent)
                            workers (S (S (S fuel)))
                            (Helper.review_task <$> files))
              (S n) w _ w1 [o] w2 Hn Hrun) as [w' Hw'].
  { constructor; [|constructor].
    destruct Hgood as (p & _ & -> & _). by eexists. }
  by exists o, w'.
Qed.

Lemma parallelCodeReview_reviews_last_file_witness :
  ∃ o w',
    Helper.parallelCodeReview (Fixtures.daemons Fixtures.agent_ok)
      Fixtures.initQueue_done Fixtures.createWorker_done
      3 ["a.js"; "b.js"; "c.js"] 3
      (Fixtures.start [Fixtures.fresh; Fixtures.fresh; Fixtures.fresh])
    = Orchestrator.Returned ([o], w') ∧
    Orchestrator.o_task o = Helper.review_task "c.js" ∧
    Orchestrator.o_workerId o = 0%nat ∧
    faithful_outcome Fixtures.agent_ok o.
Proof.
  eapply (parallelCodeReview_reviews_last_file Fixtures.agent_ok
            Fixtures.initQueue_done Fixtures.createWorker_done 3
            ["a.js"; "b.js"; "c.js"] "c.js" 3
            (Fixtures.start [Fixtures.fresh; Fixtures.fresh; Fixtures.fresh])).
  - reflexivity.
  - exists None, [Fixtures.fresh; Fixtures.fresh]. split; [reflexivity|].
    repeat constructor.
  - lia.
  - reflexivity.
  - lia.
Defined.

(** X26. In the same setting [decomposeAndExecute] returns: it runs its
    five subtasks one after the other on worker 0 and reports for each what
    the agent did with it, also when the agent fails on every one. *)
Theorem decomposeAndExecute_with_healthy_worker
    (agent : string → Worker.AgentRun) (pollMs : Z)
    (initQueue : Orchestrator.Js unit)
    (createWorker : nat → Orchestrator.Js unit) (fuel : nat)
    (mainGoal : string) (numWorkers : nat)
    (w w1 : Orchestrator.World) (ws : list nat) :
  Orchestrator.new_Orchestrator initQueue createWorker numWorkers w
    = Orchestrator.Returned (ws, w1) →
  first_worker_free (Orchestrator.store w1) →
  (1 ≤ numWorkers)%nat → (2 ≤ fuel)%nat →
  ∃ out w',
    Helper.decomposeAndExecute (Fixtures.daemons agent) pollMs initQueue
      createWorker fuel mainGoal numWorkers w
    = Orchestrator.Returned (out, w') ∧
    Orchestrator.o_task <$> out
      = Helper.subtask_task mainGoal <$> Helper.subtasks ∧
    Forall (faithful_outcome agent) out ∧
    Forall (λ o, Orchestrator.o_workerId o = 0%nat) out.
Proof.
  intros Hn Hfree Hnum Hfuel.
  pose proof (new_Orchestrator_workers _ _ _ _ _ _ Hn) as ->.
  destruct numWorkers as [|n]; [lia|]. rewrite pool_S in Hn.
  do 2 (destruct fuel as [|fuel]; [lia|]).
  destruct (executeSequential_loop_healthy agent pollMs (seq 1 n) fuel
              (Helper.subtask_task mainGoal <$> Helper.subtasks) [] w1)
    as (out & w2 & Hrun & Hgood & Hwk); [|done|].
  { repeat constructor; eexists; (split; [reflexivity|discriminate]). }
  rewrite app_nil_l in Hrun.
  destruct (framed_runs (Fixtures.daemons agent) initQueue createWorker
              (λ workers, Orchestrator.executeSequential
                            (Fixtures.daemons agent) workers pollMs
                            (S (S fuel))
                            (Helper.subtask_task mainGoal <$> Helper.subtasks))
              (S n) w _ w1 out w2 Hn Hrun) as [w' Hw'].
  { eapply Forall_impl; [exact Hgood|].
    intros o (p & _ & -> & _). by eexists. }
  exists out, w'. split; [exact Hw'|]. split; [|by split].
  eapply executeSequential_goes_through;
    [exact Hrun|apply subtasks_never_stop].
Qed.

Lemma decomposeAndExecute_with_healthy_worker_witness :
  ∃ out w',
    Helper.decomposeAndExecute (Fixtures.daemons Fixtures.agent_fails) 1000
      Fixtures.initQueue_done Fixtures.createWorker_done 2 "ship it" 2
      (Fixtures.start [Fixtures.fresh; Fixtures.fresh])
    = Orchestrator.Returned (out, w') ∧
    Orchestrator.o_task <$> out
      = Helper.subtask_task "ship it" <$> Helper.subtasks ∧
    Forall (faithful_outcome Fixtures.agent_fails) out ∧
    Forall (λ o, Orchestrator.o_workerId o = 0%nat) out.
Proof.
  eapply (decomposeAndExecute_with_healthy_worker Fixtures.agent_fails 1000
            Fixtures.initQueue_done Fixtures.createWorker_done 2 "ship it" 2
            (Fixtures.start [Fixtures.fresh; Fixtures.fresh])).
  - reflexivity.
  - exists None, [Fixtures.fresh]. split; [reflexivity|].
    repeat constructor.
  - lia.
  - lia.
Defined.

(** ** What an idle slot holds *)

Section worker_invariants.
Import Worker.
Context (env : Env) (me : Z).



End worker_invariants.


Section store_invariant.
Import Orchestrator.
Context (env : Env) (workers : list nat) (pollMs : Z).
Context (P : list Slot → Prop).
Hypothesis Henv : ∀ n susp st, P st → P (env n susp st).










(** What is left to show of the scheduler: its two writes. *)
Hypothesis Hassign : ∀ i p c, keeps_store P (assignTask i p c).
Hypothesis Hreset : ∀ i, keeps_store P (writeStatus i idle).







End store_invariant.




(** The reset after a task is collected leaves the result record where it
    is: after [executeSequential] the slot is idle and still holds it. *)
Lemma reset_leaves_result :
  ¬ (∀ env workers pollMs fuel tasks,
       keeps_store (Forall idle_slot_empty)
         (Orchestrator.executeSequential env workers pollMs fuel tasks)).
Proof.
  intros H.
  specialize (H (Fixtures.daemons Fixtures.agent_ok) [0%nat] 1000 5%nat
                [Fixtures.job "A" false] (Fixtures.start [Fixtures.fresh])).
  assert (Forall idle_slot_empty
            (Orchestrator.store (Fixtures.start [Fixtures.fresh]))) as H0
    by (repeat constructor).
  specialize (H _ _ H0 ltac:(vm_compute; reflexivity)).
  apply Forall_cons in H as [H _]. by destruct (H eq_refl).
Qed.


